(** * lilx: a small DOM style parser for XML snippets

    A shallow embedding of [stack.c] and [lilx.c], and the properties of
    the pattern matcher, the state machine, the action handlers and the
    driver loop of [lilx_create_tree].

    - A C string is a [string]: the bytes of its buffer, followed by an
      implicit terminating NUL.  Reading at the terminator yields NUL,
      reading beyond it is an access outside the buffer.
    - Fixed-width integers are [Z] with the wrap-around written out.
    - Pointers are addresses into an explicit heap of objects; [NULL] is 0.
      The stack holds such addresses, so the element on the stack is the
      one that its parent lists as a child.
    - Undefined behaviour (an access outside an allocated block, a frame
      read at the wrong struct type, a use of freed storage) is an
      explicit outcome, [Fault].
    - The loop of [lilx_create_tree] need not end, so it is run for a given
      number of rounds; so is the recursion of [lilx_free_tree].
    - [malloc] is taken to succeed.  The strings and the arrays of an
      element or an attribute are kept in its object: [free] of a struct
      frees them with it, and a struct that is left with a pointer to
      freed storage is marked, every later use of it being a fault. *)

From Stdlib Require Import ZArith Lia ZifyBool Ascii String.
From stdpp Require Import base list strings.

Open Scope Z_scope.

(** ** Outcomes *)

Definition ptr := nat.
Definition NULL : ptr := 0%nat.

Inductive fault : Type :=
  | StackSlot (i : Z)    (* access to slot [i], outside the allocated array *)
  | StackUninit (i : Z)  (* read of a slot that was never written *)
  | StackFree (i : Z)    (* [free] of a pointer [i] slots away from the block *)
  | TokenStore (i : Z)   (* store to [token[i]], outside the token buffer *)
  | XmlRead              (* read of the input beyond its terminator *)
  | BadPointer (p : ptr) (* dereference of a pointer to no object *)
  | WrongKind (p : ptr)  (* frame used at the wrong struct type *)
  | Freed (p : ptr).     (* use of storage that was freed, or its second free *)

Inductive res (A : Type) : Type :=
  | Ret (a : A)
  | Fault (f : fault).
Arguments Ret {A} a.
Arguments Fault {A} f.

#[global] Instance res_ret : MRet res := fun A a => Ret a.
#[global] Instance res_bind : MBind res := fun A B k m =>
  match m with
  | Ret a => k a
  | Fault f => Fault f
  end.

(** ** Integers and characters *)

Definition uint8 (n : Z) : Z := n mod 256.
Definition int8 (n : Z) : Z := (n + 128) mod 256 - 128.

Definition code (c : ascii) : Z := Z.of_N (N_of_ascii c).
Definition NUL : ascii := "000"%char.
Definition QUOTE : ascii := "034"%char.

Definition is_nul (c : ascii) : bool := code c =? 0.

(** [isalnum] and [isspace] of <ctype.h>, in the C locale. *)
Definition isalnum (c : ascii) : bool :=
  let n := code c in
  ((48 <=? n) && (n <=? 57)) || ((65 <=? n) && (n <=? 90))
  || ((97 <=? n) && (n <=? 122)).

Definition isspace (c : ascii) : bool :=
  let n := code c in (n =? 32) || ((9 <=? n) && (n <=? 13)).

(** [*s]: the byte under a cursor; the terminator when nothing is left. *)
Definition peek (s : string) : ascii :=
  match s with
  | String c _ => c
  | EmptyString => NUL
  end.

Definition tail (s : string) : string :=
  match s with
  | String _ r => r
  | EmptyString => EmptyString
  end.

(** The content of the C string held in a buffer: the bytes before the
    first NUL. *)
Fixpoint cstr (s : string) : string :=
  match s with
  | String c r => if is_nul c then EmptyString else String c (cstr r)
  | EmptyString => EmptyString
  end.

Fixpoint strlen (s : string) : nat :=
  match s with
  | String c r => if is_nul c then 0%nat else S (strlen r)
  | EmptyString => 0%nat
  end.

(** [strcpy] into a fresh buffer of [strlen s + 1] bytes. *)
Definition strcpy (s : string) : string := cstr s.

Fixpoint strncmp (s1 s2 : string) (n : nat) : Z :=
  match n with
  | O => 0
  | S n' =>
      let c1 := peek s1 in
      let c2 := peek s2 in
      if negb (code c1 =? code c2) then code c1 - code c2
      else if is_nul c1 then 0
      else strncmp (tail s1) (tail s2) n'
  end.

(** [strchr(s, c) != NULL]; the terminator of [s] counts as part of it. *)
Fixpoint strchr (s : string) (c : ascii) : bool :=
  match s with
  | String d r =>
      if is_nul d then is_nul c else (code d =? code c) || strchr r c
  | EmptyString => is_nul c
  end.

(** [strstr(hay, needle) != NULL]. *)
Fixpoint strstr (hay needle : string) : bool :=
  String.prefix needle hay
  || match hay with
     | String _ r => strstr r needle
     | EmptyString => false
     end.

(** ** stack.c *)

Record stack_t : Type := mk_stack {
  capacity : Z;               (* uint8_t: the maximum capacity *)
  size : Z;                   (* uint8_t: the current size *)
  top : Z;                    (* [void **top], as an offset into the block *)
  slots : list (option ptr)   (* the block; [None] is a slot never written *)
}.

Definition in_block (s : stack_t) (i : Z) : bool :=
  (0 <=? i) && (i <? Z.of_nat (length (slots s))).

(** [*(stack->top)] as an rvalue. *)
Definition load_slot (s : stack_t) (i : Z) : res ptr :=
  if in_block s i then
    match slots s !! Z.to_nat i with
    | Some (Some p) => Ret p
    | _ => Fault (StackUninit i)
    end
  else Fault (StackSlot i).

(** [*(stack->top) = element]. *)
Definition store_slot (s : stack_t) (i : Z) (element : ptr)
  : res (list (option ptr)) :=
  if in_block s i then Ret (<[Z.to_nat i := Some element]> (slots s))
  else Fault (StackSlot i).

Definition stack_create (sz : Z) : stack_t :=
  {| capacity := sz; size := 0; top := 0;
     slots := replicate (Z.to_nat sz) None |}.

Definition stack_free (s : stack_t) : res unit :=
  let top' := top s - (size s - 1) in
  if top' =? 0 then Ret tt else Fault (StackFree top').

Definition stack_push (s : stack_t) (element : ptr) : res (Z * stack_t) :=
  if (element =? NULL)%nat then Ret (1, s)
  else if size s >=? capacity s then Ret (1, s)
  else
    (* don't increment top if the stack is empty *)
    let top' := if size s >? 0 then top s + 1 else top s in
    slots' ← store_slot s top' element;
    Ret (0, {| capacity := capacity s; size := uint8 (size s + 1);
               top := top'; slots := slots' |}).

Definition stack_pop (s : stack_t) : res (ptr * stack_t) :=
  if (size s =? 0) || (size s >? capacity s) then Ret (NULL, s)
  else
    element ← load_slot s (top s);
    Ret (element, {| capacity := capacity s; size := uint8 (size s - 1);
                     top := top s - 1; slots := slots s |}).

Definition stack_peek (s : stack_t) : res ptr :=
  if (size s =? 0) || (size s >? capacity s) then Ret NULL
  else load_slot s (top s).

(** The frames held by the stack, bottom first: the slots [0 .. size-1]. *)
Definition frames (s : stack_t) : list (option ptr) :=
  take (Z.to_nat (size s)) (slots s).

(** ** lilx.h: the tree *)

Definition LILX_MAX_TOKEN_LENGTH : Z := 1000.
Definition LILX_STACK_SIZE : Z := 100.

Record attribute_t : Type := mk_attribute {
  a_name : string;            (* attribute name *)
  a_value : option string     (* attribute value, [None] = NULL *)
}.

Record element_t : Type := mk_element {
  e_name : string;            (* element name *)
  e_body : option string;     (* element body, if present *)
  num_attributes : Z;         (* uint8_t *)
  attributes : list ptr;      (* the attributes themselves *)
  num_children : Z;           (* uint8_t *)
  children : list ptr         (* the child elements themselves *)
}.

(** What a [void *] frame may point to: an element or an attribute; a
    struct that has been freed, together with the strings and arrays it
    held; a struct that is still allocated but holds a pointer to freed
    storage (an attribute after [free(attr->value)], an element after
    [free(element->name)]).  Every use of such a struct is taken to be a
    fault, also the reads of its fields that do not dangle. *)
Inductive object : Type :=
  | OElem (e : element_t)
  | OAttr (a : attribute_t)
  | OFreed
  | OStale.

(** The heap: the object of address [p] is at index [p - 1]. *)
Definition heap := list object.

Definition load (h : heap) (p : ptr) : option object :=
  match p with
  | O => None
  | S i => h !! i
  end.

Definition store (h : heap) (p : ptr) (o : object) : heap :=
  match p with
  | O => h
  | S i => <[i := o]> h
  end.

Definition malloc (h : heap) (o : object) : ptr * heap :=
  (S (length h), h ++ [o]).

(** Dereference of a frame cast to [element_t *], to [attribute_t *]. *)
Definition load_element (h : heap) (p : ptr) : res element_t :=
  match load h p with
  | Some (OElem e) => Ret e
  | Some (OAttr _) => Fault (WrongKind p)
  | Some OFreed | Some OStale => Fault (Freed p)
  | None => Fault (BadPointer p)
  end.

Definition load_attribute (h : heap) (p : ptr) : res attribute_t :=
  match load h p with
  | Some (OAttr a) => Ret a
  | Some (OElem _) => Fault (WrongKind p)
  | Some OFreed | Some OStale => Fault (Freed p)
  | None => Fault (BadPointer p)
  end.

(** [free] of an element or attribute struct; the name is freed with it
    ([free(element->name); free(element)]). *)
Definition free (h : heap) (p : ptr) : res heap :=
  match load h p with
  | Some OFreed => Fault (Freed p)
  | Some _ => Ret (store h p OFreed)
  | None => Fault (BadPointer p)
  end.

(** [free(attr->value)]: the pointer stays in the struct. *)
Definition free_value (h : heap) (attr : ptr) : res heap :=
  a ← load_attribute h attr;
  match a_value a with
  | Some _ => Ret (store h attr OStale)
  | None => Ret h
  end.

(** ** lilx.c: states and the transition table *)

Inductive state : Type :=
  | ELEM_NAME_START  (* inside a starting (or self closing) tag *)
  | ELEM_NAME_END    (* inside an ending tag *)
  | ATTR_NAME        (* inside an attribute name *)
  | ATTR_VAL         (* inside an attribute value *)
  | ELEM             (* inside an element body *)
  | COMMENT          (* inside a comment body *)
  | END.             (* at the end of the document *)

#[global] Instance state_eq_dec : EqDecision state.
Proof. solve_decision. Defined.

Definition state_index (s : state) : nat :=
  match s with
  | ELEM_NAME_START => 0 | ELEM_NAME_END => 1 | ATTR_NAME => 2
  | ATTR_VAL => 3 | ELEM => 4 | COMMENT => 5 | END => 6
  end%nat.

(** The states by index: [0 .. NUM_STATES - 1]. *)
Definition states : list state :=
  [ELEM_NAME_START; ELEM_NAME_END; ATTR_NAME; ATTR_VAL; ELEM; COMMENT; END].

Definition STATE_CHOICES : nat := 2.

Definition XML_BODY_CHARS : string := "!@#$%^&*()-_=+[{]}\/|;:,.?".

(** A transition string that starts with the attribute quote (the double
    quote: XML_USE_SINGLE_QUOTES is not defined, so it is 0 in the #if). *)
Definition quoted (s : string) : string := String QUOTE s.

Definition __lilx_transitions : list (list (list (option string))) :=
  [ (* ELEM_NAME_START *)
    [ [Some "s>s<a"; Some "s/>s<a"]; [Some "s>s</a"; Some "s/>s</a"];
      [Some "Ssa"; None];
      [None; None]; [Some "s>sA"; None];
      [Some "s>s<!--sA"; Some "s/>s<!--sA"];
      [Some "s/>s0"; None] ];
    (* ELEM_NAME_END *)
    [ [Some "s>s<a"; None]; [Some "s>s</a"; None]; [None; None];
      [None; None];
      [Some "s>sA"; None]; [Some "s>s<!--"; None]; [Some "s>s0"; None] ];
    (* ATTR_NAME *)
    [ [None; None]; [None; None]; [None; None];
      [Some (String "=" (quoted "sA")); None]; [None; None];
      [None; None]; [None; None] ];
    (* ATTR_VAL *)
    [ [Some (quoted "s>s<a"); Some (quoted "s/>s<a")];
      [Some (quoted "s>s</a"); Some (quoted "s/>s</a")];
      [Some (quoted "Ssa"); None];
      [None; None]; [Some (quoted "s>A"); Some (quoted "s/>sA")];
      [Some (quoted "s>s<!--sA"); Some (quoted "s/>s<!--sA")];
      [Some (quoted "s/>s0"); None] ];
    (* ELEM *)
    [ [Some "s<a"; None]; [Some "s</a"; None]; [None; None]; [None; None];
      [None; None];
      [Some "<!--sA"; None]; [None; None] ];
    (* COMMENT *)
    [ [Some "-->s<a"; None]; [Some "-->s</a"; None]; [None; None];
      [None; None];
      [Some "-->sA"; None]; [Some "-->s<!--sA"; None]; [None; None] ];
    (* END *)
    [ [None; None]; [None; None]; [None; None]; [None; None]; [None; None];
      [None; None]; [None; None] ] ].

(** [__lilx_transitions[from][to][j]]; [None] is the NULL entry. *)
Definition transition_at (from to : state) (j : nat) : option string :=
  row ← __lilx_transitions !! state_index from;
  alts ← row !! state_index to;
  mjoin (alts !! j).

(** ** The pattern matcher *)

(** The test that one transition character other than ['s'] makes on the
    input byte [c]. *)
Definition accepts (t c : ascii) : bool :=
  if code t =? code "A"%char then
    (strchr XML_BODY_CHARS c && negb (is_nul c)) || isalnum c
  else if code t =? code "a"%char then isalnum c
  else if code t =? code "S"%char then isspace c
  else if code t =? code "0"%char then is_nul c
  else code t =? code c.

(** The loop of [__lilx_compare], from a given value of [*offset]; [Ret None]
    is the return of 1, [Ret (Some n)] the return of 0 with [*offset = n]. *)
Fixpoint compare_loop (transition : string) : string -> Z -> res (option Z) :=
  match transition with
  | EmptyString => fun _ offset => Ret (Some (uint8 (offset - 1)))
  | String t transition' =>
      if is_nul t then fun _ offset => Ret (Some (uint8 (offset - 1)))
      else if code t =? code "s"%char then
        (* whitespace: stay on the 's', move the xml forward;
           otherwise keep the xml, move the transition forward *)
        fix whitespace (xml : string) (offset : Z) {struct xml} :=
          match xml with
          | String c xml' =>
              if isspace c then whitespace xml' (uint8 (offset + 1))
              else compare_loop transition' xml (uint8 (uint8 (offset - 1) + 1))
          | EmptyString =>
              compare_loop transition' xml (uint8 (uint8 (offset - 1) + 1))
          end
      else fun xml offset =>
        if accepts t (peek xml) then
          match xml with
          | String _ xml' => compare_loop transition' xml' (uint8 (offset + 1))
          | EmptyString =>
              (* [xml] now points behind the terminator *)
              if is_nul (peek transition')
              then Ret (Some (uint8 (uint8 (offset + 1) - 1)))
              else Fault XmlRead
          end
        else Ret None
  end.

Definition __lilx_compare (xml transition : string) : res (option Z) :=
  compare_loop transition xml 0.

(** ** The state machine *)

(** The locals and outputs of [__lilx_get_next_state] that the loop updates:
    [last], and ([*current_state], [*offset], [*transition]) once set. *)
Definition candidate : Type := Z * option (state * Z * string).

Definition try_transition (st : state) (xml : string)
    (acc : res candidate) (ij : state * nat) : res candidate :=
  '(last, found) ← acc;
  match transition_at st ij.1 ij.2 with
  | None => Ret (last, found)
  | Some tran =>
      let tranlen := uint8 (Z.of_nat (strlen tran)) in
      m ← __lilx_compare xml tran;
      match m with
      | Some temp_offset =>
          if tranlen >? last
          then Ret (int8 tranlen, Some (ij.1, temp_offset, tran))
          else Ret (last, found)
      | None => Ret (last, found)
      end
  end.

(** [Ret None] is the return of 1 (no state change). *)
Definition __lilx_get_next_state (current_state : state) (xml : string)
  : res (option (state * Z * string)) :=
  '(last, found) ← foldl (try_transition current_state xml) (Ret (-1, None))
                     (i ← states; j ← seq 0 STATE_CHOICES; [(i, j)]);
  if last =? -1 then Ret None else Ret found.

(** ** Tree growth *)

(** [__lilx_init_element], followed by the copy of the name. *)
Definition new_element (name : string) : element_t :=
  {| e_name := name; e_body := None; num_attributes := 0; attributes := [];
     num_children := 0; children := [] |}.

Definition new_attribute (name : string) : attribute_t :=
  {| a_name := name; a_value := None |}.

(** The new list holds the [num_children] entries copied from the old list,
    then the new child. *)
Definition __lilx_add_child (h : heap) (parent child : ptr) : res (Z * heap) :=
  e ← load_element h parent;
  let new_child_list :=
    take (Z.to_nat (num_children e)) (children e) ++ [child] in
  Ret (0, store h parent
            (OElem {| e_name := e_name e; e_body := e_body e;
                      num_attributes := num_attributes e;
                      attributes := attributes e;
                      num_children := uint8 (num_children e + 1);
                      children := new_child_list |})).

Definition __lilx_add_attr (h : heap) (element attr : ptr) : res (Z * heap) :=
  e ← load_element h element;
  let new_attr_list :=
    take (Z.to_nat (num_attributes e)) (attributes e) ++ [attr] in
  Ret (0, store h element
            (OElem {| e_name := e_name e; e_body := e_body e;
                      num_attributes := uint8 (num_attributes e + 1);
                      attributes := new_attr_list;
                      num_children := num_children e;
                      children := children e |})).

(** ** Action handlers

    Each handler returns its return code and leaves the stack and the heap
    as the C function does, the objects that it frees on failure
    included. *)

Definition world : Type := stack_t * heap.

Definition __lilx_elem_name_start_action (w : world) (tkn transition : string)
  : res (Z * world) :=
  let '(stack, h) := w in
  let '(element, h) := malloc h (OElem (new_element (strcpy tkn))) in
  (* is there an element already on the stack? *)
  parent ← stack_peek stack;
  '(rc, h) ← (if (parent =? NULL)%nat then Ret (0, h)
              else __lilx_add_child h parent element);
  if negb (rc =? 0) then h ← free h element; Ret (1, (stack, h))
  (* is the element self closing? *)
  else if strstr transition "/>" then Ret (0, (stack, h))
  else
    (* push the element on the stack *)
    '(rc, stack) ← stack_push stack element;
    if negb (rc =? 0) then h ← free h element; Ret (1, (stack, h))
    else Ret (0, (stack, h)).

Definition __lilx_elem_name_end_action (w : world) (tkn transition : string)
  : res (Z * world) :=
  let '(stack, h) := w in
  element ← stack_peek stack;
  (* no element on stack, or stack corrupt? *)
  if (element =? NULL)%nat then Ret (1, (stack, h))
  else
    e ← load_element h element;
    if negb (strncmp (e_name e) tkn (strlen tkn) =? 0) then Ret (1, (stack, h))
    else
      (* the element is closed - pop it from the stack *)
      '(popped, stack) ← stack_pop stack;
      if negb (popped =? element)%nat then Ret (1, (stack, h))
      else Ret (0, (stack, h)).

Definition __lilx_attr_name_action (w : world) (tkn transition : string)
  : res (Z * world) :=
  let '(stack, h) := w in
  let '(attr, h) := malloc h (OAttr (new_attribute (strcpy tkn))) in
  (* get the attribute's parent from the stack *)
  element ← stack_peek stack;
  if (element =? NULL)%nat then h ← free h attr; Ret (1, (stack, h))
  else
    '(rc, h) ← __lilx_add_attr h element attr;
    if negb (rc =? 0) then h ← free h attr; Ret (1, (stack, h))
    else
      (* push the attribute on to the stack *)
      '(rc, stack) ← stack_push stack attr;
      if negb (rc =? 0) then h ← free h attr; Ret (1, (stack, h))
      else Ret (0, (stack, h)).

Definition __lilx_attr_val_action (w : world) (tkn transition : string)
  : res (Z * world) :=
  let '(stack, h) := w in
  attr ← stack_peek stack;
  if (attr =? NULL)%nat then Ret (1, (stack, h))
  else
    a ← load_attribute h attr;
    (* weak check that the top of the stack is an attribute *)
    if bool_decide (a_value a ≠ None) then Ret (1, (stack, h))
    else
      let h := store h attr (OAttr {| a_name := a_name a;
                                      a_value := Some (strcpy tkn) |}) in
      '(popped, stack) ← stack_pop stack;
      if negb (popped =? attr)%nat then
        h ← free_value h attr; Ret (1, (stack, h))
      else if strstr transition "/>" then
        (* self closing: pop the element from the stack as well *)
        '(popped, stack) ← stack_pop stack;
        if (popped =? NULL)%nat then
          h ← free_value h attr; Ret (1, (stack, h))
        else Ret (0, (stack, h))
      else Ret (0, (stack, h)).

Definition __lilx_elem_action (w : world) (tkn transition : string)
  : res (Z * world) :=
  let '(stack, h) := w in
  element ← stack_peek stack;
  if (element =? NULL)%nat then Ret (1, (stack, h))
  else
    e ← load_element h element;
    Ret (0, (stack, store h element
                      (OElem {| e_name := e_name e;
                                e_body := Some (strcpy tkn);
                                num_attributes := num_attributes e;
                                attributes := attributes e;
                                num_children := num_children e;
                                children := children e |}))).

Definition __lilx_comment_action (w : world) (tkn transition : string)
  : res (Z * world) := Ret (0, w).

Definition __lilx_end_action (w : world) (tkn transition : string)
  : res (Z * world) := Ret (0, w).

(** The handler of a state: [__lilx_actions[state]]. *)
Definition __lilx_actions (st : state)
  : world -> string -> string -> res (Z * world) :=
  match st with
  | ELEM_NAME_START => __lilx_elem_name_start_action
  | ELEM_NAME_END => __lilx_elem_name_end_action
  | ATTR_NAME => __lilx_attr_name_action
  | ATTR_VAL => __lilx_attr_val_action
  | ELEM => __lilx_elem_action
  | COMMENT => __lilx_comment_action
  | END => __lilx_end_action
  end.

(** ** The driver loop of [lilx_create_tree] *)

(** The variables of the loop.  [token] holds the bytes stored in the token
    buffer since [tknidx] was last reset, so [tknidx] is its length. *)
Record config : Type := mk_config {
  cur_state : state;
  xml : string;
  token : string;
  stack : stack_t;
  mem : heap
}.

Definition tknidx (c : config) : Z := Z.of_nat (String.length (token c)).

Inductive progress : Type :=
  | Continue (c : config)   (* the body ran to its end *)
  | Break (c : config)      (* [break] *)
  | Crash (f : fault).

(** [state != END && *xml != 0]. *)
Definition loop_test (c : config) : bool :=
  negb (bool_decide (cur_state c = END)) && negb (is_nul (peek (xml c))).

(** [xml += offset]. *)
Fixpoint advance (n : nat) (s : string) : option string :=
  match n with
  | O => Some s
  | S n' =>
      match s with
      | String _ r => advance n' r
      | EmptyString => None
      end
  end.

(** One run of the loop body. *)
Definition step (c : config) : progress :=
  match __lilx_get_next_state (cur_state c) (xml c) with
  | Fault f => Crash f
  | Ret None =>
      (* no state change: save the current character *)
      if tknidx c =? LILX_MAX_TOKEN_LENGTH then Break c
      else if tknidx c <? LILX_MAX_TOKEN_LENGTH then
        Continue {| cur_state := cur_state c; xml := tail (xml c);
                    token := token c +:+ String (peek (xml c)) EmptyString;
                    stack := stack c; mem := mem c |}
      else Crash (TokenStore (tknidx c))
  | Ret (Some (next_state, offset, transition)) =>
      (* token[tknidx] = 0 *)
      if tknidx c <? LILX_MAX_TOKEN_LENGTH then
        match __lilx_actions (cur_state c) (stack c, mem c) (token c)
                transition with
        | Fault f => Crash f
        | Ret (rc, (stack', mem')) =>
            if negb (rc =? 0) then
              Break {| cur_state := cur_state c; xml := xml c;
                       token := EmptyString; stack := stack'; mem := mem' |}
            else
              match advance (Z.to_nat offset) (xml c) with
              | Some xml' =>
                  Continue {| cur_state := next_state; xml := xml';
                              token := EmptyString;
                              stack := stack'; mem := mem' |}
              | None => Crash XmlRead
              end
        end
      else Crash (TokenStore (tknidx c))
  end.

(** The loop, for at most [fuel] runs of its body; [None] when the loop is
    still running after them. *)
Fixpoint drive (fuel : nat) (c : config) : option (res config) :=
  if loop_test c then
    match fuel with
    | O => None
    | S fuel' =>
        match step c with
        | Continue c' => drive fuel' c'
        | Break c' => Some (Ret c')
        | Crash f => Some (Fault f)
        end
    end
  else Some (Ret c).

(** The caller's root element, and the heap that holds only it. *)
Definition root : ptr := 1%nat.
Definition root_heap : heap := [OElem (new_element "root")].

(** [lilx_create_tree] up to the end of its loop: [Ret None] is the early
    [return 1]. *)
Definition parse (fuel : nat) (input : string)
  : option (res (option config)) :=
  if negb (code (peek input) =? code "<"%char) then Some (Ret None)
  else
    match stack_push (stack_create LILX_STACK_SIZE) root with
    | Fault f => Some (Fault f)
    | Ret (rc, stk) =>
        if negb (rc =? 0) then
          Some (_ ← stack_free stk; Ret None)
        else
          r ← drive fuel {| cur_state := ELEM_NAME_START; xml := tail input;
                            token := EmptyString; stack := stk;
                            mem := root_heap |};
          Some (c ← r; Ret (Some c))
    end.

(** ** The release of the tree *)

(** [free(attr->name); free(attr->value); free(attr)]: a value that was
    freed before is freed a second time. *)
Definition free_attribute (h : heap) (attr : ptr) : res heap :=
  _ ← load_attribute h attr;
  Ret (store h attr OFreed).

(** The loop of [__lilx_free_tree] over the attributes, given in the order
    of the loop. *)
Fixpoint free_attributes (h : heap) (attrs : list ptr) : res heap :=
  match attrs with
  | [] => Ret h
  | attr :: attrs' => h' ← free_attribute h attr; free_attributes h' attrs'
  end.

(** The loop of [__lilx_free_tree] over the children, given in the order of
    the loop; [rec] is the recursive call. *)
Fixpoint free_children (rec : heap -> ptr -> option (res heap)) (h : heap)
    (cs : list ptr) : option (res heap) :=
  match cs with
  | [] => Some (Ret h)
  | c :: cs' =>
      match rec h c with
      | Some (Ret h') => free_children rec h' cs'
      | r => r
      end
  end.

(** [__lilx_free_tree], recursing [depth] calls deep at most.  The name,
    the body and the two arrays of the element are freed with it: the
    element is stale from the first [free] on, and freed at the end unless
    it is the root. *)
Fixpoint __lilx_free_tree (depth : nat) (h : heap) (element : ptr)
    (is_root : Z) : option (res heap) :=
  (* just in case *)
  if (element =? NULL)%nat then Some (Ret h)
  else
    match depth with
    | O => None
    | S depth' =>
        match load_element h element with
        | Fault f => Some (Fault f)
        | Ret e =>
            (* free the element name and body *)
            let h := store h element OStale in
            (* free the element's attributes, the last one first *)
            match free_attributes h
                    (reverse (take (Z.to_nat (num_attributes e))
                                (attributes e))) with
            | Fault f => Some (Fault f)
            | Ret h =>
                (* recursively free the children, the last one first *)
                match free_children
                        (fun h c => __lilx_free_tree depth' h c 0) h
                        (reverse (take (Z.to_nat (num_children e))
                                    (children e))) with
                | Some (Ret h) =>
                    (* the root is the caller's responsibility *)
                    Some (Ret (if is_root =? 0 then store h element OFreed
                               else h))
                | r => r
                end
            end
        end
    end.

Definition lilx_free_tree (depth : nat) (h : heap) (root : ptr)
  : option (res heap) := __lilx_free_tree depth h root 1.

(** ** The end of [lilx_create_tree] *)

(** [state != END || stack.size != 1]: parsing failed. *)
Definition failed (c : config) : bool :=
  negb (bool_decide (cur_state c = END)) || negb (size (stack c) =? 1).

(** [lilx_create_tree]: after the loop the stack is freed, and on failure
    the tree under the root.  The recursion of [lilx_free_tree] may go one
    call deeper than the heap has objects; it needs no more, as it visits
    no object twice. *)
Definition lilx_create_tree (fuel : nat) (input : string) : option (res Z) :=
  match parse fuel input with
  | None => None
  | Some (Fault f) => Some (Fault f)
  | Some (Ret None) => Some (Ret 1)
  | Some (Ret (Some c)) =>
      match stack_free (stack c) with
      | Fault f => Some (Fault f)
      | Ret _ =>
          if failed c then
            match lilx_free_tree (S (length (mem c))) (mem c) root with
            | None => None
            | Some (Fault f) => Some (Fault f)
            | Some (Ret _) => Some (Ret 1)
            end
          else Some (Ret 0)
      end
  end.

(** ** Tree queries *)

(** The loop of [lilx_get_attribute_by_name] over [attributes[i ..]]. *)
Fixpoint find_attribute (h : heap) (attrs : list ptr) (name : string)
    (len : nat) : res ptr :=
  match attrs with
  | [] => Ret NULL
  | p :: attrs' =>
      a ← load_attribute h p;
      if strncmp (a_name a) name len =? 0 then Ret p
      else find_attribute h attrs' name len
  end.

Definition lilx_get_attribute_by_name (h : heap) (element : ptr)
    (name : string) : res ptr :=
  e ← load_element h element;
  let len := uint8 (Z.of_nat (strlen name)) in
  find_attribute h (take (Z.to_nat (num_attributes e)) (attributes e))
    name (Z.to_nat len).

(** [strcmp] of <string.h>. *)
Fixpoint strcmp (s1 s2 : string) : Z :=
  match s1 with
  | EmptyString => code NUL - code (peek s2)
  | String c1 r1 =>
      if negb (code c1 =? code (peek s2)) then code c1 - code (peek s2)
      else if is_nul c1 then 0
      else strcmp r1 (tail s2)
  end.

(** The loop of [lilx_count_elements_by_name] over the children, [rec] being
    the recursive call. *)
Fixpoint count_children (rec : ptr -> option (res Z)) (cs : list ptr)
    (count : Z) : option (res Z) :=
  match cs with
  | [] => Some (Ret count)
  | c :: cs' =>
      match rec c with
      | None => None
      | Some (Fault f) => Some (Fault f)
      | Some (Ret n) => count_children rec cs' (uint8 (count + n))
      end
  end.

(** [lilx_count_elements_by_name], recursing [depth] calls deep at most;
    [None] on a tree that is deeper. *)
Fixpoint lilx_count_elements_by_name (depth : nat) (h : heap) (root : ptr)
    (name : string) : option (res Z) :=
  match depth with
  | O => None
  | S depth' =>
      match load_element h root with
      | Fault f => Some (Fault f)
      | Ret e =>
          (* if the given element has the name, add 1 *)
          let count := if strcmp (e_name e) name =? 0 then uint8 (0 + 1)
                       else 0 in
          count_children
            (fun c => lilx_count_elements_by_name depth' h c name)
            (take (Z.to_nat (num_children e)) (children e)) count
      end
  end.

(** The loop of [lilx_get_elements_by_name] over the children; [out] is
    what has been stored through [elements] so far. *)
Fixpoint get_children (rec : ptr -> Z -> option (res (Z * list ptr)))
    (cs : list ptr) (elements_length found : Z) (out : list ptr)
  : option (res (Z * list ptr)) :=
  match cs with
  | [] => Some (Ret (found, out))
  | c :: cs' =>
      match rec c elements_length with
      | None => None
      | Some (Fault f) => Some (Fault f)
      | Some (Ret (temp, written)) =>
          get_children rec cs' (uint8 (elements_length - temp))
            (uint8 (found + temp)) (out ++ written)
      end
  end.

(** [lilx_get_elements_by_name]: the number returned, and the pointers
    stored in the [elements] array, in the order of the array. *)
Fixpoint lilx_get_elements_by_name (depth : nat) (h : heap) (root : ptr)
    (name : string) (elements_length : Z) : option (res (Z * list ptr)) :=
  if elements_length =? 0 then Some (Ret (0, []))
  else
    match depth with
    | O => None
    | S depth' =>
        match load_element h root with
        | Fault f => Some (Fault f)
        | Ret e =>
            (* does this element match the name? *)
            let '(found, out, len) :=
              if strcmp (e_name e) name =? 0
              then (uint8 (0 + 1), [root], uint8 (elements_length - 1))
              else (0, [], elements_length) in
            get_children
              (fun c len' => lilx_get_elements_by_name depth' h c name len')
              (take (Z.to_nat (num_children e)) (children e)) len found out
        end
    end.

(** ** Definitions used to state the properties *)

(** The length of the whitespace run at the cursor, and the cursor behind
    it. *)
Fixpoint ws_run (xml : string) : nat :=
  match xml with
  | String c r => if isspace c then S (ws_run r) else 0%nat
  | EmptyString => 0%nat
  end.

Fixpoint skip_ws (xml : string) : string :=
  match xml with
  | String c r => if isspace c then skip_ws r else xml
  | EmptyString => EmptyString
  end.

(** The input bytes consumed by a whole pattern, in the words of the
    specification: 1 for a literal and for 'a', 'A' and 'S', the length of
    the whitespace run for 's', 0 for '0'. *)
Fixpoint consumed (transition xml : string) : nat :=
  match transition with
  | EmptyString => 0%nat
  | String t transition' =>
      if code t =? code "s"%char
      then (ws_run xml + consumed transition' (skip_ws xml))%nat
      else if code t =? code "0"%char then consumed transition' xml
      else S (consumed transition' (tail xml))
  end.

(** The input positions the matcher steps over: as [consumed], but the
    position of a '0' counts 1 as well. *)
Fixpoint span (transition xml : string) : nat :=
  match transition with
  | EmptyString => 0%nat
  | String t transition' =>
      if is_nul t then 0%nat
      else if code t =? code "s"%char
      then (ws_run xml + span transition' (skip_ws xml))%nat
      else S (span transition' (tail xml))
  end.

(** The pairs (target state, alternative) in the order of the two loops of
    [__lilx_get_next_state], and the non-NULL patterns found there. *)
Definition choices : list (state * nat) :=
  i ← states; j ← seq 0 STATE_CHOICES; [(i, j)].

Definition candidates (st : state) : list (state * string) :=
  omap (fun ij : state * nat => pair ij.1 <$> transition_at st ij.1 ij.2)
       choices.

Definition matches (xml : string) (cand : state * string) : Prop :=
  exists offset, __lilx_compare xml cand.2 = Ret (Some offset).

Definition pattern_length (cand : state * string) : nat := strlen cand.2.

(** The configuration in which the loop of [lilx_create_tree] is entered. *)
Definition start (input : string) : config :=
  {| cur_state := ELEM_NAME_START; xml := tail input; token := EmptyString;
     stack := {| capacity := LILX_STACK_SIZE; size := 1; top := 0;
                 slots := <[0%nat := Some root]>
                            (replicate (Z.to_nat LILX_STACK_SIZE) None) |};
     mem := root_heap |}.

(** The configuration after [n] complete runs of the loop body. *)
Fixpoint steps (n : nat) (c : config) : option config :=
  match n with
  | O => Some c
  | S n' =>
      if loop_test c then
        match step c with
        | Continue c' => steps n' c'
        | _ => None
        end
      else None
  end.

(** A configuration that the loop reaches on [input]. *)
Definition reachable (input : string) (c : config) : Prop :=
  exists n, steps n (start input) = Some c.

(** The stack laid out as [stack.c] intends: [top] on the last frame. *)
Definition stack_inv (s : stack_t) : Prop :=
  capacity s = LILX_STACK_SIZE /\
  length (slots s) = Z.to_nat LILX_STACK_SIZE /\
  0 <= size s <= LILX_STACK_SIZE /\
  top s = size s - 1.

(** The stack holds exactly the frames [fs], bottom first. *)
Definition holds (s : stack_t) (fs : list ptr) : Prop :=
  stack_inv s /\ frames s = Some <$> fs /\ size s = Z.of_nat (length fs).

Definition is_element (h : heap) (p : ptr) : Prop :=
  exists e, load h p = Some (OElem e).

Definition is_open_attribute (h : heap) (p : ptr) : Prop :=
  exists a, load h p = Some (OAttr a) /\ a_value a = None.

(** The kinds of frames that a state expects: an attribute without a value
    on top of elements in [ATTR_VAL], elements only in the other states. *)
Definition frames_ok (st : state) (h : heap) (fs : list ptr) : Prop :=
  match st with
  | ATTR_VAL =>
      exists below p, fs = below ++ [p] /\ is_open_attribute h p
                      /\ Forall (is_element h) below
  | _ => Forall (is_element h) fs
  end.

(** The root is the bottom frame of a stack that is not empty. *)
Definition root_at_bottom (fs : list ptr) : Prop :=
  fs = [] \/ exists above, fs = root :: above.

Definition root_named (h : heap) : Prop :=
  exists e, load h root = Some (OElem e) /\ e_name e = "root"%string.

Definition inv (c : config) : Prop :=
  exists fs, holds (stack c) fs /\ frames_ok (cur_state c) (mem c) fs
             /\ root_at_bottom fs /\ root_named (mem c).

(** The elements of [h] are elements of [h'], under the same names. *)
Definition extends (h h' : heap) : Prop :=
  forall p e, load h p = Some (OElem e) ->
    exists e', load h' p = Some (OElem e') /\ e_name e' = e_name e.


(** The offset that [__lilx_compare] stores is the number of bytes that the
    specification counts as consumed. *)
Definition offset_is_consumed (xml transition : string) : Prop :=
  forall offset, __lilx_compare xml transition = Ret (Some offset) ->
    offset = Z.of_nat (consumed transition xml).

(** Inputs of the examples. *)
Fixpoint repeat_char (n : nat) (c : ascii) : string :=
  match n with
  | O => EmptyString
  | S n' => String c (repeat_char n' c)
  end.

(** Every '0' of the pattern is its last character. *)
Fixpoint zero_last (transition : string) : bool :=
  match transition with
  | EmptyString => true
  | String t transition' =>
      is_nul t
      || ((if code t =? code "0"%char then is_nul (peek transition') else true)
          && zero_last transition')
  end.

(** [r] is the first of the longest candidates of [cands] that match at
    [xml], with the offset of its match; [None] when no candidate matches. *)
Definition winner (xml : string) (cands : list (state * string))
    (r : option (state * Z * string)) : Prop :=
  match r with
  | None => Forall (fun c => ~ matches xml c) cands
  | Some (i, offset, tran) =>
      exists earlier later,
        cands = earlier ++ (i, tran) :: later /\
        __lilx_compare xml tran = Ret (Some offset) /\
        Forall (fun c => matches xml c ->
                  (pattern_length c < strlen tran)%nat) earlier /\
        Forall (fun c => matches xml c ->
                  (pattern_length c <= strlen tran)%nat) later
  end.

(** The body of the loops of [__lilx_get_next_state] at a non-NULL entry. *)
Definition try_candidate (xml : string) (acc : res candidate)
    (cand : state * string) : res candidate :=
  '(last, found) ← acc;
  let tranlen := uint8 (Z.of_nat (strlen cand.2)) in
  m ← __lilx_compare xml cand.2;
  match m with
  | Some temp_offset =>
      if tranlen >? last
      then Ret (int8 tranlen, Some (cand.1, temp_offset, cand.2))
      else Ret (last, found)
  | None => Ret (last, found)
  end.

(** Patterns short enough for [last], on which the matcher stays inside
    the input. *)
Definition plain (cand : state * string) : bool :=
  (strlen cand.2 <? 128)%nat && zero_last cand.2.

(** What the loops have found after the candidates [done]. *)
Definition found_among (xml : string) (done : list (state * string))
    (acc : candidate) : Prop :=
  winner xml done acc.2 /\
  match acc.2 with
  | None => acc.1 = -1
  | Some (_, _, tran) => acc.1 = Z.of_nat (strlen tran)
  end.

(** The bottom frame is kept, unless the stack has become empty. *)
Definition same_bottom (fs fs' : list ptr) : Prop :=
  fs' = [] \/ (fs <> [] /\ head fs' = head fs).

(** What a handler run on the frames [fs] may end with: no frame read at
    the wrong type, a stack laid out as before and, on success, frames as
    the state [st'] expects. *)
Definition action_ok (st' : state) (h : heap) (fs : list ptr)
    (r : res (Z * world)) : Prop :=
  match r with
  | Fault f => forall p, f <> WrongKind p
  | Ret (rc, (s', h')) =>
      exists fs',
        holds s' fs' /\
        (rc = 0 -> frames_ok st' h' fs' /\ same_bottom fs fs' /\ extends h h')
  end.

(** The configuration after [n] runs of the loop body on [input] (the
    start configuration when the loop does not get that far). *)
Definition after (n : nat) (input : string) : config :=
  default (start input) (steps n (start input)).

(** The document of test.c. *)
Definition newline : string := String "010"%char EmptyString.

Definition testxml : string :=
  "<people>" +:+ newline +:+
  " <person>" +:+ newline +:+
  "  <name>Joey Joe Joe Shabidou</name>" +:+ newline +:+
  "  <occupation>Sherpa</occupation>" +:+ newline +:+
  " </person>" +:+ newline +:+
  " <person>" +:+ newline +:+
  "  <name>Lionel Hutz</name>" +:+ newline +:+
  "  <occupation>Ambulance chaser</occupation>" +:+ newline +:+
  " </person>" +:+ newline +:+
  "</people>".

(** An element opened after the root has been closed. *)
Definition reopened_input : string := "<a></a></root><b><c/>".

(** <a></a></r> *)
Definition close_root_input : string := "<a></a></r>".

(** <a k="v"/> *)
Definition attribute_input : string :=
  "<a k=" +:+ quoted ("v" +:+ quoted "/>").

(** <a id2="x" id="y"/> *)
Definition two_attributes_input : string :=
  "<a id2="
  +:+ quoted ("x" +:+ quoted (" id=" +:+ quoted ("y" +:+ quoted "/>"))).

(** A self closing tag whose name has LILX_MAX_TOKEN_LENGTH characters. *)
Definition long_name_input : string :=
  "<" +:+ repeat_char 1000 "a" +:+ "/>".

(** Two comments, 249 blanks apart, inside an element. *)
Definition blank_comments_input : string :=
  "<a><!--x-->" +:+ repeat_char 249 " " +:+ "<!--y--></a>".

(** A stack of any capacity laid out as [stack.c] intends, with the frames
    [fs], bottom first. *)
Definition stack_ok (s : stack_t) (fs : list ptr) : Prop :=
  0 <= capacity s <= 255 /\
  length (slots s) = Z.to_nat (capacity s) /\
  top s = size s - 1 /\
  frames s = Some <$> fs /\
  size s = Z.of_nat (length fs) /\
  size s <= capacity s.

(** The pushes of [ps], first to last; the return codes are collected. *)
Fixpoint push_all (s : stack_t) (ps : list ptr) : res (list Z * stack_t) :=
  match ps with
  | [] => Ret ([], s)
  | p :: ps' =>
      '(rc, s') ← stack_push s p;
      '(rcs, s'') ← push_all s' ps';
      Ret (rc :: rcs, s'')
  end.

(** [n] pops; the elements are collected in the order they come off. *)
Fixpoint pop_all (n : nat) (s : stack_t) : res (list ptr * stack_t) :=
  match n with
  | O => Ret ([], s)
  | S n' =>
      '(p, s') ← stack_pop s;
      '(ps, s'') ← pop_all n' s';
      Ret (p :: ps, s'')
  end.

(** A match moved [k] positions on: the offset it stores is [k] more, in
    8 bits. *)
Definition shift (k : Z) (m : res (option Z)) : res (option Z) :=
  match m with
  | Ret (Some r) => Ret (Some (uint8 (r + k)))
  | _ => m
  end.

(** The pattern positions other than 's', and the 's' positions. *)
Fixpoint fixed_positions (transition : string) : nat :=
  match transition with
  | EmptyString => 0%nat
  | String t transition' =>
      if is_nul t then 0%nat
      else if code t =? code "s"%char then fixed_positions transition'
      else S (fixed_positions transition')
  end.

Fixpoint blank_positions (transition : string) : nat :=
  match transition with
  | EmptyString => 0%nat
  | String t transition' =>
      if is_nul t then 0%nat
      else if code t =? code "s"%char then S (blank_positions transition')
      else blank_positions transition'
  end.

(** The length of the longest whitespace run of the input. *)
Fixpoint max_ws_run (xml : string) : nat :=
  match xml with
  | EmptyString => 0%nat
  | String _ r => Nat.max (ws_run xml) (max_ws_run r)
  end.

(** A pattern with two positions to step over at least, and at most 256
    when no whitespace run is longer than [m]. *)
Definition fits (m : nat) (cand : state * string) : bool :=
  (2 <=? fixed_positions cand.2)%nat
  && (fixed_positions cand.2 + blank_positions cand.2 * m <=? 256)%nat.


(** The pending token fits the token buffer, terminator apart, and holds
    no NUL. *)
Definition token_ok (c : config) : Prop :=
  tknidx c <= LILX_MAX_TOKEN_LENGTH /\ cstr (token c) = token c.

(** No whitespace run of the input is longer than 82 characters. *)
Definition short_blanks (xml : string) : Prop := (max_ws_run xml <= 82)%nat.

(** An element with one more child, with one more attribute, with a new
    body. *)
Definition add_child_to (e : element_t) (child : ptr) : element_t :=
  {| e_name := e_name e; e_body := e_body e;
     num_attributes := num_attributes e; attributes := attributes e;
     num_children := num_children e + 1;
     children := children e ++ [child] |}.

Definition add_attr_to (e : element_t) (attr : ptr) : element_t :=
  {| e_name := e_name e; e_body := e_body e;
     num_attributes := num_attributes e + 1;
     attributes := attributes e ++ [attr];
     num_children := num_children e; children := children e |}.

Definition with_body (e : element_t) (body : string) : element_t :=
  {| e_name := e_name e; e_body := Some body;
     num_attributes := num_attributes e; attributes := attributes e;
     num_children := num_children e; children := children e |}.

(** The counters of an element count its lists, below the wrap-around. *)
Definition counted (e : element_t) : Prop :=
  num_children e = Z.of_nat (length (children e)) /\
  num_attributes e = Z.of_nat (length (attributes e)) /\
  num_children e < 255 /\ num_attributes e < 255.

(** The children [cs] added one after the other. *)
Fixpoint add_children (h : heap) (parent : ptr) (cs : list ptr)
  : res (list Z * heap) :=
  match cs with
  | [] => Ret ([], h)
  | c :: cs' =>
      '(rc, h') ← __lilx_add_child h parent c;
      '(rcs, h'') ← add_children h' parent cs';
      Ret (rc :: rcs, h'')
  end.

Definition is_attribute (h : heap) (p : ptr) : Prop :=
  exists a, load h p = Some (OAttr a).

(** The name of the attribute at [p] starts with [name]. *)
Definition starts_with (h : heap) (name : string) (p : ptr) : bool :=
  match load h p with
  | Some (OAttr a) => String.prefix (cstr name) (cstr (a_name a))
  | _ => false
  end.

(** The elements of the subtree at [p], in depth-first pre-order; [None]
    when the subtree is deeper than [depth], is not made of elements, or
    has an element whose [children] array is shorter than its
    [num_children]. *)
Fixpoint subtrees (rec : ptr -> option (list ptr)) (cs : list ptr)
  : option (list ptr) :=
  match cs with
  | [] => Some []
  | c :: cs' => l ← rec c; ls ← subtrees rec cs'; Some (l ++ ls)
  end.

Fixpoint subtree (depth : nat) (h : heap) (p : ptr) : option (list ptr) :=
  match depth with
  | O => None
  | S depth' =>
      match load h p with
      | Some (OElem e) =>
          if num_children e <=? Z.of_nat (length (children e)) then
            ls ← subtrees (subtree depth' h)
                   (take (Z.to_nat (num_children e)) (children e));
            Some (p :: ls)
          else None
      | _ => None
      end
  end.

(** The element at [p] has the name [name]. *)
Definition named (h : heap) (name : string) (p : ptr) : bool :=
  match load h p with
  | Some (OElem e) => bool_decide (cstr (e_name e) = cstr name)
  | _ => false
  end.

(** The tree of <a><b/></a><b/> under the root, as the parser lays it
    out. *)
Definition family_heap : heap :=
  [OElem {| e_name := "root"; e_body := None; num_attributes := 0;
            attributes := []; num_children := 2; children := [2; 4]%nat |};
   OElem {| e_name := "a"; e_body := None; num_attributes := 0;
            attributes := []; num_children := 1; children := [3]%nat |};
   OElem (new_element "b"); OElem (new_element "b")].

(** Every element has as many children as it counts, at least, and they
    are elements at higher addresses: the elements form trees. *)
Definition tree_ok (h : heap) : Prop :=
  forall p e, load h p = Some (OElem e) ->
    0 <= num_children e <= Z.of_nat (length (children e))
    /\ Forall (fun c => (p < c)%nat /\ is_element h c) (children e).

(** An element with the attributes "key" and "id", alone in a heap. *)
Definition keys_element : element_t :=
  {| e_name := "a"; e_body := None; num_attributes := 2;
     attributes := [2; 3]%nat; num_children := 0; children := [] |}.

Definition keys_heap : heap :=
  [OElem keys_element;
   OAttr {| a_name := "key"; a_value := Some "x"%string |};
   OAttr {| a_name := "id"; a_value := Some "y"%string |}].

(** What a handler that returns 0 does to the frames [fs]: the frames
    [fs'] that it leaves. *)
Definition effect (st : state) (h : heap) (tkn transition : string)
    (fs fs' : list ptr) : Prop :=
  match st with
  | ELEM_NAME_START =>
      if strstr transition "/>" then fs' = fs
      else fs <> [] /\ fs' = fs ++ [S (length h)]
  | ELEM_NAME_END =>
      exists element e,
        fs = fs' ++ [element] /\ load h element = Some (OElem e)
        /\ String.prefix (cstr tkn) (cstr (e_name e)) = true
  | ATTR_NAME => fs <> [] /\ fs' = fs ++ [S (length h)]
  | ATTR_VAL =>
      if strstr transition "/>"
      then exists element attr, fs = fs' ++ [element; attr]
      else exists attr, fs = fs' ++ [attr]
  | ELEM => fs <> [] /\ fs' = fs
  | COMMENT | END => fs' = fs
  end.

(** The frames that a state needs: an element above the root for an
    attribute name, and the attribute above them for its value. *)
Definition deep (st : state) (fs : list ptr) : Prop :=
  match st with
  | ATTR_NAME => (2 <= length fs)%nat
  | ATTR_VAL => (3 <= length fs)%nat
  | _ => True
  end.

(** The loop body, run from [c], processes a closing tag that closes the
    root: a transition is found in ELEM_NAME_END while the stack holds one
    frame, and the token is a prefix of the name "root". *)
Definition closes_root (c : config) : bool :=
  match __lilx_get_next_state (cur_state c) (xml c) with
  | Ret (Some _) =>
      bool_decide (cur_state c = ELEM_NAME_END)
      && (size (stack c) =? 1)
      && String.prefix (cstr (token c)) "root"
  | _ => false
  end.

(** One of the first [n] runs of the loop body from [c] closes the root. *)
Fixpoint root_closed (n : nat) (c : config) : bool :=
  match n with
  | O => false
  | S n' =>
      closes_root c
      || match step c with
         | Continue c' => root_closed n' c'
         | _ => false
         end
  end.

Fixpoint repeat_string (n : nat) (s : string) : string :=
  match n with
  | O => EmptyString
  | S n' => s +:+ repeat_string n' s
  end.

(** 101 open tags, each inside the one before: one more element than the
    stack takes above the root. *)
Definition nested_input : string := repeat_string 101 "<a>".

(** The elements of a heap that have not been freed. *)
Definition is_live (o : object) : bool :=
  match o with
  | OElem _ => true
  | _ => false
  end.

Definition live (h : heap) : nat := length (List.filter is_live h).

(** * Properties *)

(** ** Fixed-width arithmetic *)

Lemma uint8_small (a : Z) : 0 <= a < 256 -> uint8 a = a.
Proof. unfold uint8. apply Z.mod_small. Qed.

Ltac uint8_solve := unfold uint8 in *; Z.div_mod_to_equations; lia.

(** ** The pattern matcher *)

Section Matcher.

Implicit Types (xml transition : string) (offset : Z).

Lemma compare_loop_end xml offset :
  compare_loop EmptyString xml offset = Ret (Some (uint8 (offset - 1))).
Proof. reflexivity. Qed.

Lemma compare_loop_ws t transition c xml offset :
  is_nul t = false -> (code t =? code "s"%char) = true ->
  compare_loop (String t transition) (String c xml) offset =
  if isspace c
  then compare_loop (String t transition) xml (uint8 (offset + 1))
  else compare_loop transition (String c xml)
         (uint8 (uint8 (offset - 1) + 1)).
Proof. intros Hn Hs. cbn [compare_loop]. rewrite Hn, Hs. reflexivity. Qed.

Lemma compare_loop_ws_end t transition offset :
  is_nul t = false -> (code t =? code "s"%char) = true ->
  compare_loop (String t transition) EmptyString offset =
  compare_loop transition EmptyString (uint8 (uint8 (offset - 1) + 1)).
Proof. intros Hn Hs. cbn [compare_loop]. rewrite Hn, Hs. reflexivity. Qed.

Lemma compare_loop_char t transition xml offset :
  is_nul t = false -> (code t =? code "s"%char) = false ->
  compare_loop (String t transition) xml offset =
  if accepts t (peek xml) then
    match xml with
    | String _ xml' => compare_loop transition xml' (uint8 (offset + 1))
    | EmptyString =>
        if is_nul (peek transition)
        then Ret (Some (uint8 (uint8 (offset + 1) - 1)))
        else Fault XmlRead
    end
  else Ret None.
Proof. intros Hn Hs. cbn [compare_loop]. rewrite Hn, Hs. reflexivity. Qed.

(** What is stored is the count of the positions stepped over, less one,
    in 8 bits. *)
Lemma compare_loop_offset transition :
  forall xml offset r,
    compare_loop transition xml offset = Ret (Some r) ->
    r = uint8 (offset + Z.of_nat (span transition xml) - 1).
Proof.
  induction transition as [|t transition IH]; intros xml offset r.
  - rewrite compare_loop_end. intros [= <-]. cbn [span]. uint8_solve.
  - cbn [span]. destruct (is_nul t) eqn:Hn.
    { cbn [compare_loop]. rewrite Hn. intros [= <-]. uint8_solve. }
    destruct (code t =? code "s"%char) eqn:Hs.
    + revert offset. induction xml as [|c xml IHx]; intros offset.
      * rewrite compare_loop_ws_end by done. intros H%IH. subst r.
        cbn [ws_run skip_ws]. uint8_solve.
      * rewrite compare_loop_ws by done. cbn [ws_run skip_ws].
        destruct (isspace c).
        -- intros H%IHx. subst r. uint8_solve.
        -- intros H%IH. subst r. uint8_solve.
    + rewrite compare_loop_char by done.
      destruct (accepts t (peek xml)); [|done].
      destruct xml as [|c xml].
      * destruct (is_nul (peek transition)) eqn:Hend; [|done].
        intros [= <-]. cbn [tail].
        destruct transition as [|t' transition']; cbn [span].
        -- uint8_solve.
        -- cbn [peek] in Hend. rewrite Hend. uint8_solve.
      * intros H%IH. subst r. cbn [tail]. uint8_solve.
Qed.

End Matcher.

(** C3 (as stated) fails: at the input "><b" the pattern "s>s<a" consumes
    the three bytes "><b", and the offset stored is 2. *)
Lemma compare_offset_not_consumed :
  ~ offset_is_consumed "><b" "s>s<a".
Proof.
  intros H. specialize (H 2 eq_refl). vm_compute in H. discriminate H.
Qed.

(** C3 (amended): when the matcher succeeds on a pattern that steps over
    between 1 and 256 input positions, the offset it stores is that number
    of positions less one, where a literal, 'a', 'A', 'S' and '0' count 1
    and 's' counts the length, possibly zero, of the whitespace run. *)
Theorem compare_offset_span xml transition offset :
  __lilx_compare xml transition = Ret (Some offset) ->
  (1 <= span transition xml <= 256)%nat ->
  offset = Z.of_nat (span transition xml) - 1.
Proof.
  unfold __lilx_compare. intros H%compare_loop_offset Hspan. subst offset.
  rewrite uint8_small; lia.
Qed.

Lemma compare_offset_span_witness :
  2 = Z.of_nat (span "s>s<a" "><b") - 1.
Proof.
  apply (compare_offset_span "><b" "s>s<a" 2); [reflexivity|].
  change (span "s>s<a" "><b") with 3%nat. lia.
Defined.

(** ** The state machine *)

Section StateMachine.

Variable xml : string.

Lemma accepts_terminator t :
  is_nul t = false -> accepts t NUL = true ->
  (code t =? code "0"%char) = true.
Proof.
  unfold accepts, is_nul. intros Hn.
  destruct (code t =? code "A"%char); [done|].
  destruct (code t =? code "a"%char); [done|].
  destruct (code t =? code "S"%char); [done|].
  destruct (code t =? code "0"%char); [done|].
  change (code NUL) with 0. congruence.
Qed.

Lemma compare_loop_no_fault transition :
  zero_last transition = true ->
  forall s offset f, compare_loop transition s offset <> Fault f.
Proof.
  induction transition as [|t transition IH]; intros Hz s offset f; [done|].
  cbn [zero_last] in Hz. destruct (is_nul t) eqn:Hn.
  { cbn [compare_loop]. rewrite Hn. done. }
  cbn [orb] in Hz. apply andb_prop in Hz as [Hz0 Hz].
  destruct (code t =? code "s"%char) eqn:Hs.
  - revert offset. induction s as [|c s IHs]; intros offset.
    + rewrite compare_loop_ws_end by done. by apply IH.
    + rewrite compare_loop_ws by done. destruct (isspace c); [done|].
      by apply IH.
  - rewrite compare_loop_char by done.
    destruct (accepts t (peek s)) eqn:Hacc; [|done].
    destruct s as [|c s]; [|by apply IH].
    apply accepts_terminator in Hacc; [|done]. rewrite Hacc in Hz0.
    by rewrite Hz0.
Qed.

Lemma try_transition_candidates st (l : list (state * nat)) :
  forall acc,
    foldl (try_transition st xml) acc l =
    foldl (try_candidate xml) acc
      (omap (fun ij : state * nat =>
               pair ij.1 <$> transition_at st ij.1 ij.2) l).
Proof.
  induction l as [|ij l IH]; intros acc; [done|].
  cbn [foldl]. rewrite IH. clear IH.
  assert (Hij : try_transition st xml acc ij =
                match transition_at st ij.1 ij.2 with
                | Some tran => try_candidate xml acc (ij.1, tran)
                | None => acc
                end).
  { unfold try_transition, try_candidate.
    destruct (transition_at st ij.1 ij.2); [done|]. by destruct acc as [[]|]. }
  rewrite Hij. unfold omap at 2. cbn [list_omap].
  by destruct (transition_at st ij.1 ij.2).
Qed.

Lemma try_candidate_found done acc cand :
  plain cand = true -> found_among xml done acc ->
  exists acc', try_candidate xml (Ret acc) cand = Ret acc'
               /\ found_among xml (done ++ [cand]) acc'.
Proof.
  intros [Hlen Hz]%andb_prop [Hwin Hlast]. apply Nat.ltb_lt in Hlen.
  destruct acc as [last found], cand as [i tran]; cbn [fst snd] in *.
  unfold try_candidate; cbn [fst snd mbind res_bind].
  assert (Hu : uint8 (Z.of_nat (strlen tran)) = Z.of_nat (strlen tran))
    by (apply uint8_small; lia).
  assert (Hi : int8 (Z.of_nat (strlen tran)) = Z.of_nat (strlen tran)).
  { unfold int8. rewrite Z.mod_small; lia. }
  rewrite Hu.
  destruct (__lilx_compare xml tran) as [[off|]|f] eqn:Hcmp.
  - destruct (Z.of_nat (strlen tran) >? last) eqn:Hgt.
    + eexists; split; [reflexivity|]. rewrite Hi. split; [|done].
      cbn. exists done, []. split_and!; [done|done| |by constructor].
      apply Z.gtb_lt in Hgt.
      destruct found as [[[i' off'] tran']|]; cbn in Hwin, Hlast.
      * destruct Hwin as (ea & la & -> & _ & Hea & Hla).
        apply Forall_app; split; [|constructor].
        -- eapply Forall_impl; [exact Hea|]. cbn. intros c Hc Hm.
           specialize (Hc Hm). lia.
        -- intros _. unfold pattern_length; cbn. lia.
        -- eapply Forall_impl; [exact Hla|]. cbn. intros c Hc Hm.
           specialize (Hc Hm). lia.
      * eapply Forall_impl; [exact Hwin|]. cbn. intros c Hc Hm. done.
    + eexists; split; [reflexivity|]. split; [|done]. cbn.
      rewrite Z.gtb_ltb in Hgt. apply Z.ltb_ge in Hgt.
      destruct found as [[[i' off'] tran']|]; cbn in Hwin, Hlast; [|lia].
      destruct Hwin as (ea & la & -> & Hm' & Hea & Hla).
      exists ea, (la ++ [(i, tran)]). rewrite <- app_assoc. cbn.
      split_and!; [done|done|done|].
      apply Forall_app; split; [done|]. constructor; [|constructor].
      intros _. unfold pattern_length; cbn. lia.
  - eexists; split; [reflexivity|]. split; [|done]. cbn.
    assert (Hno : ~ matches xml (i, tran)).
    { intros [o Ho]. cbn [snd] in Ho. congruence. }
    destruct found as [[[i' off'] tran']|]; cbn in Hwin |- *.
    + destruct Hwin as (ea & la & -> & Hm' & Hea & Hla).
      exists ea, (la ++ [(i, tran)]). rewrite <- app_assoc. cbn.
      split_and!; [done|done|done|].
      apply Forall_app; split; [done|]. constructor; [done|constructor].
    + apply Forall_app; split; [done|]. by constructor.
  - by apply compare_loop_no_fault in Hcmp.
Qed.

Lemma foldl_candidates_found todo :
  forall done acc,
    Forall (fun c => plain c = true) todo -> found_among xml done acc ->
    exists acc', foldl (try_candidate xml) (Ret acc) todo = Ret acc'
                 /\ found_among xml (done ++ todo) acc'.
Proof.
  induction todo as [|cand todo IH]; intros done acc Hplain Hacc.
  - exists acc. by rewrite app_nil_r.
  - apply Forall_cons in Hplain as [Hc Hplain].
    destruct (try_candidate_found done acc cand Hc Hacc) as (acc1 & E & H1).
    cbn [foldl]. rewrite E.
    destruct (IH (done ++ [cand]) acc1 Hplain H1) as (acc' & E' & H').
    exists acc'. split; [done|]. by rewrite <- app_assoc in H'.
Qed.

Lemma candidates_plain st :
  Forall (fun c => plain c = true) (candidates st).
Proof.
  apply Forall_forall. intros c Hin.
  assert (H : forallb plain (candidates st) = true)
    by (destruct st; vm_compute; reflexivity).
  rewrite forallb_forall in H. apply H. by apply list_elem_of_In.
Qed.

(** The loops report the first of the longest patterns that match. *)
Lemma get_next_state_best st :
  exists r, __lilx_get_next_state st xml = Ret r
            /\ winner xml (candidates st) r.
Proof.
  unfold __lilx_get_next_state.
  change (i ← states; j ← seq 0 STATE_CHOICES; [(i, j)]) with choices.
  rewrite try_transition_candidates.
  change (omap _ choices) with (candidates st).
  destruct (foldl_candidates_found (candidates st) [] (-1, None))
    as ([last found] & E & [Hwin Hlast]).
  - apply candidates_plain.
  - split; [constructor|done].
  - unfold candidate in *. rewrite E. cbn [mbind res_bind].
    cbn [app fst snd] in *.
    destruct found as [[[i off] tran]|].
    + exists (Some (i, off, tran)). split; [|done].
      destruct (last =? -1) eqn:Hl; [|done]. apply Z.eqb_eq in Hl. lia.
    + exists None. split; [|done]. subst last. reflexivity.
Qed.

(** C6: the state machine goes over the non-NULL patterns of the current
    state in ascending order of target state, then of alternative; it
    reports the first of the longest patterns that match, with its target
    state and the offset of its match, and no state change when no
    pattern matches. *)
Theorem get_next_state_winner st :
  exists r, __lilx_get_next_state st xml = Ret r
            /\ winner xml (candidates st) r.
Proof. exact (get_next_state_best st). Qed.

End StateMachine.

(** ** C strings *)

Section Strings.

Lemma code_inj (a b : ascii) : code a = code b -> a = b.
Proof.
  unfold code. intros H%(inj Z.of_N).
  rewrite <- (ascii_N_embedding a), <- (ascii_N_embedding b). by f_equal.
Qed.

Lemma code_eqb (a b : ascii) : (code a =? code b) = bool_decide (a = b).
Proof.
  destruct (decide (a = b)) as [->|Hne].
  - by rewrite Z.eqb_refl, bool_decide_true.
  - rewrite bool_decide_false by done. apply Z.eqb_neq.
    intros H. by apply Hne, code_inj.
Qed.

(** The prefix policy: [strncmp] over the length of [b] is 0 exactly when
    the string in [b] is a prefix of the string in [a]. *)
Lemma strncmp_prefix (b : string) :
  forall a, (strncmp a b (strlen b) =? 0) = String.prefix (cstr b) (cstr a).
Proof.
  induction b as [|c b IH]; intros a; [by destruct (cstr a)|].
  cbn [strlen cstr]. destruct (is_nul c) eqn:Hc; [by destruct (cstr a)|].
  cbn [strncmp peek].
  destruct a as [|d a]; cbn [peek tail cstr].
  - change (code NUL) with 0. unfold is_nul in Hc.
    destruct (0 =? code c) eqn:E; [lia|]. cbn. lia.
  - rewrite code_eqb. destruct (decide (d = c)) as [->|Hne].
    + rewrite bool_decide_true by done. cbn [negb]. rewrite Hc.
      cbn [String.prefix]. rewrite IH.
      by destruct (ascii_dec c c).
    + rewrite bool_decide_false by done. cbn [negb].
      assert (code d - code c <> 0).
      { intros H. apply Hne, code_inj. lia. }
      destruct (is_nul d); cbn [String.prefix].
      * lia.
      * destruct (ascii_dec c d); [congruence|]. lia.
Qed.

End Strings.

(** ** The stack *)

Section Stack.

Implicit Types (s : stack_t) (fs : list ptr) (p : ptr).

Lemma holds_size s fs :
  holds s fs -> Z.to_nat (size s) = length fs /\ (length fs <= 100)%nat.
Proof.
  intros ((_ & _ & Hsz & _) & _ & Hlen). unfold LILX_STACK_SIZE in Hsz. lia.
Qed.

Lemma holds_slot s fs i p :
  holds s fs -> fs !! i = Some p -> slots s !! i = Some (Some p).
Proof.
  intros H Hi. pose proof (holds_size s fs H) as [Hn _].
  destruct H as (_ & Hfs & _). unfold frames in Hfs.
  apply lookup_lt_Some in Hi as Hlt.
  rewrite <- (lookup_take_lt _ (Z.to_nat (size s))) by lia.
  rewrite Hfs, list_lookup_fmap, Hi. done.
Qed.

Lemma holds_load_top s fs p :
  holds s (fs ++ [p]) -> load_slot s (top s) = Ret p.
Proof.
  intros H. pose proof (holds_size _ _ H) as [Hn Hle].
  rewrite length_app in Hn, Hle. cbn in Hn, Hle.
  pose proof (holds_slot s _ (length fs) p H) as Hslot.
  rewrite list_lookup_middle in Hslot by done. specialize (Hslot eq_refl).
  destruct H as ((_ & Hlen & _ & Htop) & _ & _).
  unfold load_slot, in_block. rewrite Hlen, Htop.
  replace (Z.to_nat (size s - 1)) with (length fs) by lia.
  rewrite Hslot.
  destruct (0 <=? size s - 1) eqn:E1; [|lia].
  destruct (size s - 1 <? Z.of_nat (Z.to_nat LILX_STACK_SIZE)) eqn:E2;
    [done|]. unfold LILX_STACK_SIZE in E2. lia.
Qed.

Lemma holds_guard s fs :
  holds s fs ->
  (size s =? 0) || (size s >? capacity s) = bool_decide (fs = []).
Proof.
  intros H. pose proof (holds_size _ _ H) as [Hn Hle].
  destruct H as ((Hcap & _ & Hsz & _) & _ & Hlen).
  rewrite Hcap. unfold LILX_STACK_SIZE in *.
  destruct fs as [|p fs]; cbn in *.
  - rewrite Hlen. done.
  - destruct (size s =? 0) eqn:E1; [lia|].
    destruct (size s >? 100) eqn:E2; [lia|]. done.
Qed.

Lemma stack_peek_empty s : holds s [] -> stack_peek s = Ret NULL.
Proof. intros H. unfold stack_peek. by rewrite (holds_guard s []). Qed.

Lemma stack_peek_top s fs p :
  holds s (fs ++ [p]) -> stack_peek s = Ret p.
Proof.
  intros H. unfold stack_peek. rewrite (holds_guard s (fs ++ [p])) by done.
  rewrite bool_decide_false by (by destruct fs).
  by apply holds_load_top with fs.
Qed.

Lemma stack_pop_empty s : holds s [] -> stack_pop s = Ret (NULL, s).
Proof. intros H. unfold stack_pop. by rewrite (holds_guard s []). Qed.

Lemma stack_pop_top s fs p :
  holds s (fs ++ [p]) ->
  exists s', stack_pop s = Ret (p, s') /\ holds s' fs.
Proof.
  intros H. unfold stack_pop. rewrite (holds_guard s (fs ++ [p])) by done.
  rewrite bool_decide_false by (by destruct fs).
  rewrite (holds_load_top s fs p) by done. cbn [mbind res_bind].
  eexists; split; [reflexivity|].
  pose proof (holds_size _ _ H) as [Hn Hle].
  rewrite length_app in Hn, Hle. cbn in Hn, Hle.
  destruct H as ((Hcap & Hlen & Hsz & Htop) & Hfs & Hl).
  rewrite length_app in Hl. cbn in Hl.
  assert (Hu : uint8 (size s - 1) = size s - 1) by (apply uint8_small; lia).
  unfold holds, stack_inv, frames in *. cbn. rewrite Hu.
  split_and!; try done; try lia.
  replace (Z.to_nat (size s - 1)) with (length fs) by lia.
  apply (f_equal (take (length fs))) in Hfs.
  rewrite take_take, fmap_app, take_app_length' in Hfs
    by (by rewrite length_fmap).
  rewrite <- Hfs. f_equal. lia.
Qed.

Lemma stack_push_full s fs p :
  holds s fs -> length fs = 100%nat -> p <> NULL ->
  stack_push s p = Ret (1, s).
Proof.
  intros ((Hcap & _) & _ & Hl) Hfull Hp. unfold stack_push.
  destruct (p =? NULL)%nat eqn:E; [by apply Nat.eqb_eq in E|].
  rewrite Hcap, Hl, Hfull. done.
Qed.

Lemma stack_push_top s fs p :
  holds s fs -> fs <> [] -> (length fs < 100)%nat -> p <> NULL ->
  exists s', stack_push s p = Ret (0, s') /\ holds s' (fs ++ [p]).
Proof.
  intros H Hne Hlt Hp. pose proof (holds_size _ _ H) as [Hn Hle].
  destruct H as ((Hcap & Hlen & Hsz & Htop) & Hfs & Hl).
  assert (Hpos : 0 < size s) by (destruct fs; [done|cbn in Hl; lia]).
  unfold stack_push.
  destruct (p =? NULL)%nat eqn:E; [by apply Nat.eqb_eq in E|].
  destruct (size s >=? capacity s) eqn:E1;
    [unfold LILX_STACK_SIZE in *; lia|].
  destruct (size s >? 0) eqn:E2; [|lia].
  unfold store_slot, in_block. rewrite Hlen.
  destruct (0 <=? top s + 1) eqn:E3; [|lia].
  destruct (top s + 1 <? Z.of_nat (Z.to_nat LILX_STACK_SIZE)) eqn:E4;
    [|unfold LILX_STACK_SIZE in *; lia].
  cbn [andb mbind res_bind]. eexists; split; [reflexivity|].
  assert (Hu : uint8 (size s + 1) = size s + 1)
    by (apply uint8_small; unfold LILX_STACK_SIZE in *; lia).
  unfold holds, stack_inv, frames in *. cbn. rewrite Hu, length_insert.
  rewrite length_app. cbn.
  split_and!; try done; try lia.
  replace (Z.to_nat (size s + 1)) with (S (Z.to_nat (size s))) by lia.
  replace (Z.to_nat (top s + 1)) with (Z.to_nat (size s)) by lia.
  erewrite take_S_r.
  - rewrite take_insert_ge by lia. by rewrite Hfs, fmap_app.
  - apply list_lookup_insert_eq. unfold LILX_STACK_SIZE in *. lia.
Qed.

(** A push on a stack that a pop has emptied stores below the block. *)
Lemma stack_push_emptied s p :
  holds s [] -> p <> NULL -> stack_push s p = Fault (StackSlot (-1)).
Proof.
  intros ((Hcap & Hlen & Hsz & Htop) & Hfs & Hl) Hp. cbn in Hl.
  unfold stack_push.
  destruct (p =? NULL)%nat eqn:E; [by apply Nat.eqb_eq in E|].
  rewrite Hcap, Hl. cbn. unfold store_slot, in_block. rewrite Htop, Hl.
  done.
Qed.

Lemma stack_free_holds s fs : holds s fs -> stack_free s = Ret tt.
Proof.
  intros ((_ & _ & _ & Htop) & _). unfold stack_free. rewrite Htop.
  by replace (size s - 1 - (size s - 1)) with 0 by lia.
Qed.

End Stack.

(** ** The heap *)

Section Heap.

Implicit Types (h : heap) (p q : ptr) (o : object).

Lemma load_valid h p o :
  load h p = Some o -> p <> NULL /\ (p <= length h)%nat.
Proof.
  destruct p as [|i]; [done|]. cbn. intros H%lookup_lt_Some.
  split; [done|lia].
Qed.

Lemma load_malloc h o : load (h ++ [o]) (S (length h)) = Some o.
Proof. unfold load. by apply list_lookup_middle. Qed.

Lemma load_malloc_old h o p x :
  load h p = Some x -> load (h ++ [o]) p = Some x.
Proof. destruct p as [|i]; [done|]. cbn. apply lookup_app_l_Some. Qed.

Lemma load_store h p o x :
  load h p = Some x -> load (store h p o) p = Some o.
Proof.
  destruct p as [|i]; [done|]. cbn. intros H%lookup_lt_Some.
  by apply list_lookup_insert_eq.
Qed.

Lemma load_store_other h p q o : p <> q -> load (store h p o) q = load h q.
Proof.
  destruct p as [|i], q as [|j]; try done. cbn. intros H.
  apply list_lookup_insert_ne. congruence.
Qed.

Lemma free_element h p e :
  load h p = Some (OElem e) -> free h p = Ret (store h p OFreed).
Proof. intros H. unfold free. by rewrite H. Qed.

Lemma free_attr h p a :
  load h p = Some (OAttr a) -> free h p = Ret (store h p OFreed).
Proof. intros H. unfold free. by rewrite H. Qed.

Lemma free_value_set h p a v :
  load h p = Some (OAttr a) -> a_value a = Some v ->
  free_value h p = Ret (store h p OStale).
Proof.
  intros H Hv. unfold free_value, load_attribute. rewrite H. cbn.
  by rewrite Hv.
Qed.

Lemma extends_refl h : extends h h.
Proof. intros p e H. by exists e. Qed.

Lemma extends_trans h1 h2 h3 :
  extends h1 h2 -> extends h2 h3 -> extends h1 h3.
Proof.
  intros H12 H23 p e H. destruct (H12 p e H) as (e2 & H2 & E2).
  destruct (H23 p e2 H2) as (e3 & H3 & E3). exists e3. split; congruence.
Qed.

Lemma extends_malloc h o : extends h (h ++ [o]).
Proof. intros p e H. exists e. split; [|done]. by apply load_malloc_old. Qed.

Lemma extends_store_element h p e e' :
  load h p = Some (OElem e) -> e_name e' = e_name e ->
  extends h (store h p (OElem e')).
Proof.
  intros Hp Hname q x Hq. destruct (decide (p = q)) as [<-|Hne].
  - exists e'. erewrite load_store by done. split; congruence.
  - exists x. by rewrite load_store_other.
Qed.

Lemma extends_store_attribute h p a a' :
  load h p = Some (OAttr a) -> extends h (store h p (OAttr a')).
Proof.
  intros Hp q x Hq. destruct (decide (p = q)) as [<-|Hne]; [congruence|].
  exists x. by rewrite load_store_other.
Qed.

Lemma is_element_extends h h' p :
  extends h h' -> is_element h p -> is_element h' p.
Proof.
  intros H [e He]. destruct (H p e He) as (e' & He' & _). by exists e'.
Qed.

Lemma elements_extend h h' fs :
  extends h h' -> Forall (is_element h) fs -> Forall (is_element h') fs.
Proof.
  intros H Hfs. eapply Forall_impl; [exact Hfs|]. intros p.
  by apply is_element_extends.
Qed.

Lemma root_named_extends h h' :
  extends h h' -> root_named h -> root_named h'.
Proof.
  intros H (e & He & Hn). destruct (H root e He) as (e' & He' & Hn').
  exists e'. split; congruence.
Qed.

Lemma add_child_element h parent child e :
  load h parent = Some (OElem e) ->
  exists h', __lilx_add_child h parent child = Ret (0, h')
             /\ extends h h'
             /\ forall q, q <> parent -> load h' q = load h q.
Proof.
  intros He. unfold __lilx_add_child, load_element. rewrite He.
  cbn [mbind res_bind]. eexists; split; [reflexivity|]. split.
  - by eapply extends_store_element.
  - intros q Hq. by apply load_store_other.
Qed.

Lemma add_attr_element h element attr e :
  load h element = Some (OElem e) ->
  exists h', __lilx_add_attr h element attr = Ret (0, h')
             /\ extends h h'
             /\ forall q, q <> element -> load h' q = load h q.
Proof.
  intros He. unfold __lilx_add_attr, load_element. rewrite He.
  cbn [mbind res_bind]. eexists; split; [reflexivity|]. split.
  - by eapply extends_store_element.
  - intros q Hq. by apply load_store_other.
Qed.

End Heap.

(** ** The action handlers *)

Section Actions.

Implicit Types (s : stack_t) (h : heap) (fs : list ptr) (p : ptr).
Implicit Types (tkn transition : string) (st : state).

#[local] Arguments stack_push : simpl never.
#[local] Arguments stack_pop : simpl never.
#[local] Arguments stack_peek : simpl never.
#[local] Arguments strstr : simpl never.
#[local] Arguments strncmp : simpl never.
#[local] Arguments store : simpl never.
#[local] Arguments load : simpl never.
#[local] Arguments free : simpl never.
#[local] Arguments free_value : simpl never.
#[local] Arguments frames_ok : simpl never.

Lemma same_bottom_same fs : same_bottom fs fs.
Proof. destruct fs; [by left|by right]. Qed.

Lemma same_bottom_push fs p : fs <> [] -> same_bottom fs (fs ++ [p]).
Proof. intros H. right. split; [done|]. by destruct fs. Qed.

Lemma same_bottom_pop fs p : same_bottom (fs ++ [p]) fs.
Proof.
  destruct fs as [|q fs]; [by left|]. right. split; [done|]. done.
Qed.

Lemma same_bottom_pop2 fs p q : same_bottom ((fs ++ [q]) ++ [p]) fs.
Proof.
  destruct fs as [|r fs]; [by left|]. right. split; [done|]. done.
Qed.

Lemma frames_ok_elements st h fs :
  st <> ATTR_VAL -> frames_ok st h fs <-> Forall (is_element h) fs.
Proof. by destruct st. Qed.

Lemma not_null_eqb p : p <> NULL -> (p =? NULL)%nat = false.
Proof. intros H. by apply Nat.eqb_neq. Qed.

(** A handler that returns 1 on a stack that is laid out as expected. *)
Ltac action_fails := eexists; split; [eassumption|intros ?; lia].

Lemma action_ok_done st' h fs s' h' fs' :
  holds s' fs' -> frames_ok st' h' fs' -> same_bottom fs fs' ->
  extends h h' -> action_ok st' h fs (Ret (0, (s', h'))).
Proof. intros Hs Hfs Hb He. exists fs'. by split_and!. Qed.

(** The frame on top of elements is an element, at an address that is not
    NULL. *)
Lemma top_element h fs p :
  Forall (is_element h) (fs ++ [p]) ->
  exists e, load h p = Some (OElem e) /\ (p =? NULL)%nat = false.
Proof.
  intros [_ Hp]%Forall_app. apply Forall_singleton in Hp as [e He].
  exists e. split; [done|]. apply not_null_eqb.
  by destruct (load_valid _ _ _ He).
Qed.

Lemma elem_name_start_action_ok s h fs tkn transition st' :
  holds s fs -> Forall (is_element h) fs -> st' <> ATTR_VAL ->
  action_ok st' h fs (__lilx_elem_name_start_action (s, h) tkn transition).
Proof.
  intros Hs Hfs Hst. unfold __lilx_elem_name_start_action. cbn [malloc].
  set (element := S (length h)).
  set (h1 := h ++ [OElem (new_element (strcpy tkn))]).
  assert (Hext1 : extends h h1) by apply extends_malloc.
  assert (Hnew : load h1 element = Some (OElem (new_element (strcpy tkn))))
    by apply load_malloc.
  destruct fs as [|parent fs _] using rev_ind.
  - rewrite stack_peek_empty by done. cbn.
    destruct (strstr transition "/>").
    + apply (action_ok_done _ _ _ _ _ []); [done| |by left|done].
      by apply frames_ok_elements.
    + rewrite stack_push_emptied by done. cbn. done.
  - rewrite (stack_peek_top s fs parent) by done. cbn [mbind res_bind].
    destruct (top_element _ _ _ Hfs) as (e & He & ->).
    destruct (load_valid _ _ _ He) as [_ Hle].
    destruct (add_child_element h1 parent element e)
      as (h2 & E & Hext2 & Hoth).
    { by apply load_malloc_old. }
    rewrite E. cbn.
    assert (Hext : extends h h2) by by eapply extends_trans.
    assert (Helem : is_element h2 element).
    { exists (new_element (strcpy tkn)). rewrite Hoth; [done|].
      unfold element. lia. }
    destruct (strstr transition "/>").
    + apply (action_ok_done _ _ _ _ _ (fs ++ [parent]));
        [done| |apply same_bottom_same|done].
      apply frames_ok_elements; [done|]. by eapply elements_extend.
    + destruct (decide (length (fs ++ [parent]) < 100)%nat) as [Hlt|Hge].
      * destruct (stack_push_top s (fs ++ [parent]) element)
          as (s' & E' & Hs'); [done|by destruct fs|done|done|].
        rewrite E'. cbn.
        apply (action_ok_done _ _ _ _ _ ((fs ++ [parent]) ++ [element]));
          [done| | |done].
        -- apply frames_ok_elements; [done|]. apply Forall_app. split.
           ++ by eapply elements_extend.
           ++ by apply Forall_singleton.
        -- apply same_bottom_push. by destruct fs.
      * rewrite (stack_push_full s (fs ++ [parent])); [|done| |done].
        -- destruct Helem as [x Hx]. cbn. rewrite (free_element _ _ _ Hx).
           cbn. action_fails.
        -- pose proof (holds_size _ _ Hs). lia.
Qed.

Lemma elem_name_end_action_ok s h fs tkn transition st' :
  holds s fs -> Forall (is_element h) fs -> st' <> ATTR_VAL ->
  action_ok st' h fs (__lilx_elem_name_end_action (s, h) tkn transition).
Proof.
  intros Hs Hfs Hst. unfold __lilx_elem_name_end_action.
  destruct fs as [|element fs _] using rev_ind.
  - rewrite stack_peek_empty by done. cbn. action_fails.
  - rewrite (stack_peek_top s fs element) by done. cbn [mbind res_bind].
    destruct (top_element _ _ _ Hfs) as (e & He & ->).
    apply Forall_app in Hfs as [Hfs _].
    unfold load_element. rewrite He. cbn [mbind res_bind].
    destruct (negb (strncmp (e_name e) tkn (strlen tkn) =? 0));
      [action_fails|].
    destruct (stack_pop_top s fs element Hs) as (s' & E & Hs').
    rewrite E. cbn. rewrite Nat.eqb_refl. cbn.
    apply (action_ok_done _ _ _ _ _ fs);
      [done| |apply same_bottom_pop|apply extends_refl].
    by apply frames_ok_elements.
Qed.

Lemma attr_name_action_ok s h fs tkn transition :
  holds s fs -> Forall (is_element h) fs ->
  action_ok ATTR_VAL h fs (__lilx_attr_name_action (s, h) tkn transition).
Proof.
  intros Hs Hfs. unfold __lilx_attr_name_action. cbn [malloc].
  set (attr := S (length h)).
  set (h1 := h ++ [OAttr (new_attribute (strcpy tkn))]).
  assert (Hext1 : extends h h1) by apply extends_malloc.
  assert (Hnew : load h1 attr = Some (OAttr (new_attribute (strcpy tkn))))
    by apply load_malloc.
  destruct fs as [|element fs _] using rev_ind.
  - rewrite stack_peek_empty by done. cbn. rewrite (free_attr _ _ _ Hnew).
    cbn. action_fails.
  - rewrite (stack_peek_top s fs element) by done. cbn [mbind res_bind].
    destruct (top_element _ _ _ Hfs) as (e & He & ->).
    destruct (load_valid _ _ _ He) as [_ Hle].
    destruct (add_attr_element h1 element attr e)
      as (h2 & E & Hext2 & Hoth).
    { by apply load_malloc_old. }
    rewrite E. cbn.
    assert (Hext : extends h h2) by by eapply extends_trans.
    destruct (decide (length (fs ++ [element]) < 100)%nat) as [Hlt|Hge].
    + destruct (stack_push_top s (fs ++ [element]) attr)
        as (s' & E' & Hs'); [done|by destruct fs|done|done|].
      rewrite E'. cbn.
      apply (action_ok_done _ _ _ _ _ ((fs ++ [element]) ++ [attr]));
        [done| | |done].
      * exists (fs ++ [element]), attr. split_and!; [done| |].
        -- exists (new_attribute (strcpy tkn)). split; [|done].
           rewrite Hoth; [done|]. unfold attr. lia.
        -- by eapply elements_extend.
      * apply same_bottom_push. by destruct fs.
    + rewrite (stack_push_full s (fs ++ [element])); [|done| |done].
      * cbn. erewrite free_attr; [cbn; action_fails|].
        rewrite Hoth; [done|]. unfold attr. lia.
      * pose proof (holds_size _ _ Hs). lia.
Qed.

Lemma attr_val_action_ok s h fs tkn transition st' :
  holds s fs -> frames_ok ATTR_VAL h fs -> st' <> ATTR_VAL ->
  action_ok st' h fs (__lilx_attr_val_action (s, h) tkn transition).
Proof.
  intros Hs (below & attr & -> & (a & Ha & Hval) & Hbelow) Hst.
  unfold __lilx_attr_val_action.
  rewrite (stack_peek_top s below attr) by done. cbn [mbind res_bind].
  destruct (load_valid _ _ _ Ha) as [Hnn Hle].
  rewrite not_null_eqb by done. unfold load_attribute. rewrite Ha.
  cbn [mbind res_bind]. rewrite Hval.
  rewrite bool_decide_false by (intros Hc; by apply Hc).
  set (h1 := store h attr _).
  assert (Hext : extends h h1) by by eapply extends_store_attribute.
  destruct (stack_pop_top s below attr Hs) as (s1 & E & Hs1).
  rewrite E. cbn [mbind res_bind]. rewrite Nat.eqb_refl. cbn [negb].
  destruct (strstr transition "/>").
  - destruct below as [|element below _] using rev_ind.
    + rewrite stack_pop_empty by done. cbn.
      erewrite free_value_set;
        [cbn; action_fails|unfold h1; by eapply load_store|reflexivity].
    + destruct (stack_pop_top s1 below element Hs1) as (s2 & E2 & Hs2).
      rewrite E2. cbn [mbind res_bind].
      destruct (top_element _ _ _ Hbelow) as (e & He & ->).
      apply Forall_app in Hbelow as [Hbelow _].
      apply (action_ok_done _ _ _ _ _ below);
        [done| |apply same_bottom_pop2|done].
      apply frames_ok_elements; [done|]. by eapply elements_extend.
  - apply (action_ok_done _ _ _ _ _ below);
      [done| |apply same_bottom_pop|done].
    apply frames_ok_elements; [done|]. by eapply elements_extend.
Qed.

Lemma elem_action_ok s h fs tkn transition st' :
  holds s fs -> Forall (is_element h) fs -> st' <> ATTR_VAL ->
  action_ok st' h fs (__lilx_elem_action (s, h) tkn transition).
Proof.
  intros Hs Hfs Hst. unfold __lilx_elem_action.
  destruct fs as [|element fs _] using rev_ind.
  - rewrite stack_peek_empty by done. cbn. action_fails.
  - rewrite (stack_peek_top s fs element) by done. cbn [mbind res_bind].
    destruct (top_element _ _ _ Hfs) as (e & He & ->).
    unfold load_element. rewrite He. cbn [mbind res_bind].
    apply (action_ok_done _ _ _ _ _ (fs ++ [element]));
      [done| |apply same_bottom_same|by eapply extends_store_element].
    apply frames_ok_elements; [done|].
    eapply elements_extend; [|done]. by eapply extends_store_element.
Qed.

(** Every handler finds the kind of frame it expects, and leaves the
    kinds of frames that the next state expects. *)
Lemma actions_ok st st' s h fs tkn transition :
  holds s fs -> frames_ok st h fs -> (st' = ATTR_VAL <-> st = ATTR_NAME) ->
  action_ok st' h fs (__lilx_actions st (s, h) tkn transition).
Proof.
  intros Hs Hfs Hst.
  destruct st; cbn [__lilx_actions];
    try (assert (st' <> ATTR_VAL) by (intros E; apply Hst in E; done)).
  - by apply elem_name_start_action_ok.
  - by apply elem_name_end_action_ok.
  - assert (st' = ATTR_VAL) as -> by by apply Hst.
    by apply attr_name_action_ok.
  - by apply attr_val_action_ok.
  - by apply elem_action_ok.
  - apply (action_ok_done _ _ _ _ _ fs);
      [done| |apply same_bottom_same|apply extends_refl].
    by apply frames_ok_elements.
  - apply (action_ok_done _ _ _ _ _ fs);
      [done| |apply same_bottom_same|apply extends_refl].
    by apply frames_ok_elements.
Qed.

End Actions.

(** ** The driver loop *)

Section Driver.

Implicit Types (c : config) (fs : list ptr) (input : string).

Lemma holds_unique s fs fs' : holds s fs -> holds s fs' -> fs = fs'.
Proof.
  intros (_ & H & _) (_ & H' & _). rewrite H in H'.
  by apply (inj (fmap Some)) in H'.
Qed.

Lemma candidates_target st st' tran :
  (st', tran) ∈ candidates st -> (st' = ATTR_VAL <-> st = ATTR_NAME).
Proof.
  intros Hin.
  assert (H : forallb (fun c : state * string =>
                bool_decide (c.1 = ATTR_VAL <-> st = ATTR_NAME))
                (candidates st) = true)
    by (destruct st; vm_compute; reflexivity).
  rewrite forallb_forall in H. apply list_elem_of_In in Hin.
  specialize (H _ Hin). by apply bool_decide_eq_true in H.
Qed.

Lemma get_next_state_candidate st s st' offset tran :
  __lilx_get_next_state st s = Ret (Some (st', offset, tran)) ->
  (st', tran) ∈ candidates st.
Proof.
  intros H. destruct (get_next_state_best s st) as (r & E & Hwin).
  rewrite H in E. injection E as <-. unfold winner in Hwin.
  destruct Hwin as (ea & la & -> & _).
  apply elem_of_app. right. apply elem_of_cons. by left.
Qed.

(** One run of the loop body keeps the frames as the new state expects
    them. *)
Lemma step_frames c c' fs :
  holds (stack c) fs -> frames_ok (cur_state c) (mem c) fs ->
  root_named (mem c) -> step c = Continue c' ->
  exists fs', holds (stack c') fs'
              /\ frames_ok (cur_state c') (mem c') fs'
              /\ root_named (mem c') /\ same_bottom fs fs'.
Proof.
  intros Hs Hfs Hroot. unfold step.
  destruct (__lilx_get_next_state (cur_state c) (xml c))
    as [[[[st' offset] tran]|]|f] eqn:Hnext; [| |done].
  - destruct (tknidx c <? LILX_MAX_TOKEN_LENGTH); [|done].
    apply get_next_state_candidate, candidates_target in Hnext.
    pose proof (actions_ok (cur_state c) st' (stack c) (mem c) fs
                  (token c) tran Hs Hfs Hnext) as Hact.
    destruct (__lilx_actions (cur_state c) (stack c, mem c) (token c) tran)
      as [[rc [s' h']]|f]; [|done].
    destruct (rc =? 0) eqn:Hrc; [|done]. cbn [negb].
    destruct (advance (Z.to_nat offset) (xml c)); [|done].
    intros [= <-]. cbn.
    destruct Hact as (fs' & H1 & Hok).
    destruct Hok as (H2 & H3 & H4); [lia|].
    exists fs'. split_and!; [done|done| |done].
    by eapply root_named_extends.
  - destruct (tknidx c =? LILX_MAX_TOKEN_LENGTH); [done|].
    destruct (tknidx c <? LILX_MAX_TOKEN_LENGTH); [|done].
    intros [= <-]. cbn. exists fs.
    split_and!; [done|done|done|apply same_bottom_same].
Qed.

Lemma step_kind c fs :
  holds (stack c) fs -> frames_ok (cur_state c) (mem c) fs ->
  forall p, step c <> Crash (WrongKind p).
Proof.
  intros Hs Hfs p. unfold step.
  destruct (__lilx_get_next_state (cur_state c) (xml c))
    as [[[[st' offset] tran]|]|f] eqn:Hnext.
  - destruct (tknidx c <? LILX_MAX_TOKEN_LENGTH); [|done].
    apply get_next_state_candidate, candidates_target in Hnext.
    pose proof (actions_ok (cur_state c) st' (stack c) (mem c) fs
                  (token c) tran Hs Hfs Hnext) as Hact.
    destruct (__lilx_actions (cur_state c) (stack c, mem c) (token c) tran)
      as [[rc [s' h']]|f].
    + destruct (negb (rc =? 0)); [done|].
      by destruct (advance (Z.to_nat offset) (xml c)).
    + intros [= ->]. by eapply Hact.
  - destruct (tknidx c =? LILX_MAX_TOKEN_LENGTH); [done|].
    by destruct (tknidx c <? LILX_MAX_TOKEN_LENGTH).
  - destruct (get_next_state_best (xml c) (cur_state c)) as (r & E & _).
    congruence.
Qed.

Lemma same_bottom_root fs fs' :
  same_bottom fs fs' -> root_at_bottom fs -> root_at_bottom fs'.
Proof.
  intros [->|[Hne Hhd]] Hfs; [by left|]. right.
  destruct Hfs as [->|[above ->]]; [done|].
  destruct fs' as [|r above']; [done|]. cbn in Hhd. exists above'. congruence.
Qed.

Lemma step_inv c c' : inv c -> step c = Continue c' -> inv c'.
Proof.
  intros (fs & Hs & Hfs & Hbot & Hroot) Hstep.
  destruct (step_frames c c' fs Hs Hfs Hroot Hstep)
    as (fs' & H1 & H2 & H3 & H4).
  exists fs'. split_and!; [done|done| |done]. by eapply same_bottom_root.
Qed.

Lemma steps_inv n : forall c c', inv c -> steps n c = Some c' -> inv c'.
Proof.
  induction n as [|n IH]; intros c c' Hinv; cbn [steps].
  - by intros [= <-].
  - destruct (loop_test c); [|done].
    destruct (step c) as [c1| |] eqn:Hstep; [|done|done].
    apply IH. by eapply step_inv.
Qed.

Lemma inv_start input : inv (start input).
Proof.
  exists [root]. split; [|split; [|split]].
  - unfold holds, stack_inv, LILX_STACK_SIZE. cbn.
    split_and!; try reflexivity; lia.
  - cbn. apply Forall_singleton. by eexists.
  - right. by exists [].
  - by eexists.
Qed.

Lemma reachable_inv input c : reachable input c -> inv c.
Proof. intros [n Hn]. eapply steps_inv; [apply inv_start|done]. Qed.

(** An empty stack stays empty. *)
Lemma steps_emptied n :
  forall c c', inv c -> holds (stack c) [] -> steps n c = Some c' ->
               holds (stack c') [].
Proof.
  induction n as [|n IH]; intros c c' Hinv Hs; cbn [steps].
  - by intros [= <-].
  - destruct (loop_test c); [|done].
    destruct (step c) as [c1| |] eqn:Hstep; [|done|done].
    destruct Hinv as (fs & Hs' & Hfs & Hbot & Hroot).
    assert (fs = []) as -> by by eapply holds_unique.
    destruct (step_frames c c1 [] Hs Hfs Hroot Hstep)
      as (fs' & H1 & H2 & H3 & H4).
    destruct H4 as [->|[Hne _]]; [|done].
    apply IH; [|done].
    exists []. split_and!; [done|done|by left|done].
Qed.

Lemma step_break_state c c' :
  step c = Break c' -> cur_state c' = cur_state c.
Proof.
  unfold step.
  destruct (__lilx_get_next_state (cur_state c) (xml c))
    as [[[[st' offset] tran]|]|f]; [| |done].
  - destruct (tknidx c <? LILX_MAX_TOKEN_LENGTH); [|done].
    destruct (__lilx_actions (cur_state c) (stack c, mem c) (token c) tran)
      as [[rc [s' h']]|f]; [|done].
    destruct (negb (rc =? 0)); [by intros [= <-]|].
    by destruct (advance (Z.to_nat offset) (xml c)).
  - destruct (tknidx c =? LILX_MAX_TOKEN_LENGTH); [by intros [= <-]|].
    by destruct (tknidx c <? LILX_MAX_TOKEN_LENGTH).
Qed.

(** A [break] leaves the stack laid out as expected. *)
Lemma step_break_holds c c' fs :
  holds (stack c) fs -> frames_ok (cur_state c) (mem c) fs ->
  step c = Break c' -> exists fs', holds (stack c') fs'.
Proof.
  intros Hs Hfs. unfold step.
  destruct (__lilx_get_next_state (cur_state c) (xml c))
    as [[[[st' offset] tran]|]|f] eqn:Hnext; [| |done].
  - destruct (tknidx c <? LILX_MAX_TOKEN_LENGTH); [|done].
    apply get_next_state_candidate, candidates_target in Hnext.
    pose proof (actions_ok (cur_state c) st' (stack c) (mem c) fs
                  (token c) tran Hs Hfs Hnext) as Hact.
    destruct (__lilx_actions (cur_state c) (stack c, mem c) (token c) tran)
      as [[rc [s' h']]|f]; [|done].
    destruct Hact as (fs' & H1 & _).
    destruct (negb (rc =? 0)); [intros [= <-]; by exists fs'|].
    by destruct (advance (Z.to_nat offset) (xml c)).
  - destruct (tknidx c =? LILX_MAX_TOKEN_LENGTH);
      [intros [= <-]; by exists fs|].
    by destruct (tknidx c <? LILX_MAX_TOKEN_LENGTH).
Qed.

(** However the loop ends, the stack can be freed. *)
Lemma drive_holds fuel :
  forall c cf, inv c -> drive fuel c = Some (Ret cf) ->
               exists fs, holds (stack cf) fs.
Proof.
  induction fuel as [|fuel IH]; intros c cf Hinv; cbn [drive].
  - destruct (loop_test c); [done|]. intros [= <-].
    destruct Hinv as (fs & Hs & _). by exists fs.
  - destruct (loop_test c).
    + destruct (step c) as [c1|c1|f] eqn:Hstep; [| |done].
      * apply IH. by eapply step_inv.
      * intros [= <-]. destruct Hinv as (fs & Hs & Hfs & _).
        by eapply step_break_holds.
    + intros [= <-]. destruct Hinv as (fs & Hs & _). by exists fs.
Qed.

Lemma loop_test_end c : cur_state c = END -> loop_test c = false.
Proof. intros H. unfold loop_test. by rewrite bool_decide_true. Qed.

(** A loop that ends in [END] ended at its test. *)
Lemma drive_end fuel :
  forall c cf, drive fuel c = Some (Ret cf) -> cur_state cf = END ->
               exists n, steps n c = Some cf.
Proof.
  induction fuel as [|fuel IH]; intros c cf; cbn [drive].
  - destruct (loop_test c); [done|]. intros [= <-] _. by exists 0%nat.
  - destruct (loop_test c) eqn:Htest.
    + destruct (step c) as [c1|c1|f] eqn:Hstep.
      * intros H1 H2. destruct (IH c1 cf H1 H2) as [n Hn].
        exists (S n). cbn [steps]. by rewrite Htest, Hstep.
      * intros [= <-] Hend. apply step_break_state in Hstep.
        rewrite loop_test_end in Htest; [done|congruence].
      * done.
    + intros [= <-] _. by exists 0%nat.
Qed.

(** The loop runs through every configuration that it reaches. *)
Lemma steps_prefix n :
  forall c0 c m cf,
    steps n c0 = Some c -> steps m c0 = Some cf -> loop_test cf = false ->
    exists k, steps k c = Some cf.
Proof.
  induction n as [|n IH]; intros c0 c m cf; cbn [steps].
  - intros [= <-] H _. by exists m.
  - destruct (loop_test c0) eqn:Htest; [|done].
    destruct (step c0) as [c1| |] eqn:Hstep; [|done|done].
    intros Hn Hm Hcf. destruct m as [|m]; cbn [steps] in Hm.
    + injection Hm as <-. congruence.
    + rewrite Htest, Hstep in Hm. by eapply IH.
Qed.

Lemma push_root :
  stack_push (stack_create LILX_STACK_SIZE) root = Ret (0, stack (start "")).
Proof. reflexivity. Qed.

Lemma parse_start fuel input :
  parse fuel input =
  if negb (code (peek input) =? code "<"%char) then Some (Ret None)
  else r ← drive fuel (start input); Some (c ← r; Ret (Some c)).
Proof. unfold parse. rewrite push_root. reflexivity. Qed.

(** What a successful run looks like. *)
Lemma create_tree_success fuel input :
  lilx_create_tree fuel input = Some (Ret 0) ->
  exists cf n, parse fuel input = Some (Ret (Some cf))
               /\ steps n (start input) = Some cf
               /\ cur_state cf = END /\ holds (stack cf) [root].
Proof.
  unfold lilx_create_tree.
  destruct (parse fuel input) as [[[cf|]|f]|] eqn:Hparse; try done.
  destruct (stack_free (stack cf)); [|done].
  unfold failed.
  destruct (bool_decide (cur_state cf = END)) eqn:Hend; cbn [negb orb].
  2: { by destruct (lilx_free_tree _ (mem cf) root) as [[?|?]|]. }
  destruct (size (stack cf) =? 1) eqn:Hsize; cbn [negb].
  2: { by destruct (lilx_free_tree _ (mem cf) root) as [[?|?]|]. }
  intros _.
  apply bool_decide_eq_true in Hend.
  rewrite parse_start in Hparse.
  destruct (negb (code (peek input) =? code "<"%char)); [done|].
  destruct (drive fuel (start input)) as [[c|f]|] eqn:Hdrive; [|done|done].
  cbn in Hparse. injection Hparse as ->.
  destruct (drive_end _ _ _ Hdrive Hend) as [n Hn].
  exists cf, n. split_and!; [done|done|done|].
  destruct (steps_inv n _ _ (inv_start input) Hn)
    as (fs & Hs & _ & Hbot & _).
  destruct Hs as (Hinv & Hfr & Hlen).
  destruct Hbot as [->|[above ->]]; [cbn in Hlen; lia|].
  destruct above; [done|]. cbn in Hlen. lia.
Qed.

End Driver.

(** ** Sample runs *)

Example create_tree_testxml : lilx_create_tree 300 testxml = Some (Ret 0).
Proof. vm_compute. reflexivity. Qed.

Example create_tree_self_closing :
  lilx_create_tree 100 "<a><b/></a>" = Some (Ret 0).
Proof. vm_compute. reflexivity. Qed.

Example create_tree_attribute :
  lilx_create_tree 100 attribute_input = Some (Ret 0).
Proof. vm_compute. reflexivity. Qed.

Example create_tree_comment :
  lilx_create_tree 100 "<a><!-- ignored --></a>" = Some (Ret 0).
Proof. vm_compute. reflexivity. Qed.

Example create_tree_mismatch : lilx_create_tree 100 "<a></b>" = Some (Ret 1).
Proof. vm_compute. reflexivity. Qed.

Example create_tree_unclosed : lilx_create_tree 100 "<a><c/>" = Some (Ret 1).
Proof. vm_compute. reflexivity. Qed.

Example create_tree_no_tag : lilx_create_tree 100 "a" = Some (Ret 1).
Proof. vm_compute. reflexivity. Qed.

(** A token of more than LILX_MAX_TOKEN_LENGTH characters fails the
    parse. *)
Example create_tree_long_token :
  lilx_create_tree 1100 ("<" +:+ repeat_char 1001 "a" +:+ "/>") = Some (Ret 1).
Proof. vm_compute. reflexivity. Qed.

(** A closing tag for the root fails the parse. *)
Example create_tree_close_root :
  lilx_create_tree 100 close_root_input = Some (Ret 1).
Proof. vm_compute. reflexivity. Qed.

(** The push of an element after a closing tag has popped the root stores
    below the block of the stack. *)
Example create_tree_reopened :
  lilx_create_tree 100 reopened_input = Some (Fault (StackSlot (-1))).
Proof. vm_compute. reflexivity. Qed.

(** ** The claims about the stack and the tree queries *)

(** C10 (the code breaks it): a push on a stack that a pop has emptied
    does not store into slot 0: [stack_pop] has moved [top] below the
    block and [stack_push] does not move it back, so the store goes to
    slot -1. *)
Theorem stack_push_after_emptying :
  exists s1 s2,
    stack_push (stack_create LILX_STACK_SIZE) 1%nat = Ret (0, s1)
    /\ stack_pop s1 = Ret (1%nat, s2)
    /\ size s2 = 0 /\ top s2 = -1
    /\ stack_push s2 2%nat = Fault (StackSlot (-1)).
Proof. do 2 eexists. split_and!; reflexivity. Qed.

(** C8: the closing-tag action succeeds exactly when the stack is not empty
    and the token is a prefix of the name of the element on top; it then
    pops that element.  Otherwise it fails and leaves the stack as it
    is. *)
Theorem elem_name_end_action_prefix s h fs tkn transition :
  holds s fs -> Forall (is_element h) fs ->
  (exists below element e s',
      fs = below ++ [element] /\ load h element = Some (OElem e)
      /\ String.prefix (cstr tkn) (cstr (e_name e)) = true
      /\ __lilx_elem_name_end_action (s, h) tkn transition = Ret (0, (s', h))
      /\ holds s' below)
  \/ (__lilx_elem_name_end_action (s, h) tkn transition = Ret (1, (s, h))
      /\ (fs = [] \/
          exists below element e,
            fs = below ++ [element] /\ load h element = Some (OElem e)
            /\ String.prefix (cstr tkn) (cstr (e_name e)) = false)).
Proof.
  intros Hs Hfs. unfold __lilx_elem_name_end_action.
  destruct fs as [|element fs _] using rev_ind.
  - right. rewrite stack_peek_empty by done. split; [done|by left].
  - rewrite (stack_peek_top s fs element) by done. cbn [mbind res_bind].
    apply Forall_app in Hfs as [_ Hp].
    apply Forall_singleton in Hp as [e He].
    destruct (load_valid _ _ _ He) as [Hnn _].
    rewrite not_null_eqb by done. unfold load_element. rewrite He.
    cbn [mbind res_bind]. rewrite strncmp_prefix.
    destruct (String.prefix (cstr tkn) (cstr (e_name e))) eqn:Hpre.
    + left. destruct (stack_pop_top s fs element Hs) as (s' & E & Hs').
      rewrite E. cbn [mbind res_bind negb]. rewrite Nat.eqb_refl.
      by exists fs, element, e, s'.
    + right. split; [done|]. right. by exists fs, element, e.
Qed.

Lemma elem_name_end_action_prefix_witness :
  (exists below element e s',
      [root] = below ++ [element] /\ load root_heap element = Some (OElem e)
      /\ String.prefix (cstr "ro") (cstr (e_name e)) = true
      /\ __lilx_elem_name_end_action (stack (start ""), root_heap) "ro" "s>s0"
         = Ret (0, (s', root_heap))
      /\ holds s' below)
  \/ (__lilx_elem_name_end_action (stack (start ""), root_heap) "ro" "s>s0"
      = Ret (1, (stack (start ""), root_heap))
      /\ ([root] = [] \/
          exists below element e,
            [root] = below ++ [element]
            /\ load root_heap element = Some (OElem e)
            /\ String.prefix (cstr "ro") (cstr (e_name e)) = false)).
Proof.
  apply (elem_name_end_action_prefix (stack (start "")) root_heap [root]).
  - unfold holds, stack_inv, LILX_STACK_SIZE. cbn.
    split_and!; try reflexivity; lia.
  - apply Forall_singleton. by eexists.
Defined.

(** C9 (the code breaks it): on the element <a id2="x" id="y"/> the lookup
    of "id" returns the attribute "id2", the first one that "id" is a
    prefix of, not the attribute whose name is "id". *)
Theorem get_attribute_by_name_prefix :
  exists c,
    parse 100 two_attributes_input = Some (Ret (Some c))
    /\ load (mem c) 2%nat
       = Some (OElem {| e_name := "a"; e_body := None;
                        num_attributes := 2; attributes := [3; 4]%nat;
                        num_children := 0; children := [] |})
    /\ load (mem c) 3%nat
       = Some (OAttr {| a_name := "id2"; a_value := Some "x"%string |})
    /\ load (mem c) 4%nat
       = Some (OAttr {| a_name := "id"; a_value := Some "y"%string |})
    /\ lilx_get_attribute_by_name (mem c) 2%nat "id" = Ret 3%nat
    /\ lilx_get_attribute_by_name (mem c) 2%nat "i" = Ret 3%nat.
Proof. eexists. split_and!; vm_compute; reflexivity. Qed.

(** ** The claims about the driver loop *)

(** C7: in every configuration that the loop reaches, the frames are of
    the kinds that the state expects (in ATTR_VAL an attribute without a
    value on top of elements, in every other state elements only), and the
    loop body never reads a frame at the wrong struct type. *)
Theorem frames_match_state input c :
  reachable input c ->
  (exists fs, holds (stack c) fs /\ frames_ok (cur_state c) (mem c) fs)
  /\ forall p, step c <> Crash (WrongKind p).
Proof.
  intros (fs & Hs & Hfs & _)%reachable_inv. split.
  - by exists fs.
  - by eapply step_kind.
Qed.

Lemma frames_match_state_witness :
  (exists fs, holds (stack (after 4 attribute_input)) fs
              /\ frames_ok (cur_state (after 4 attribute_input))
                   (mem (after 4 attribute_input)) fs)
  /\ forall p, step (after 4 attribute_input) <> Crash (WrongKind p).
Proof.
  apply (frames_match_state attribute_input (after 4 attribute_input)).
  exists 4%nat. vm_compute. reflexivity.
Defined.


(** C4 (the code breaks it): after a token of LILX_MAX_TOKEN_LENGTH
    characters, the terminating NUL of the token is stored at index
    LILX_MAX_TOKEN_LENGTH, one past the end of the buffer. *)
Theorem token_terminator_out_of_bounds :
  lilx_create_tree 1001 long_name_input
  = Some (Fault (TokenStore LILX_MAX_TOKEN_LENGTH)).
Proof. vm_compute. reflexivity. Qed.

(** A configuration that the loop body maps to itself is never left. *)
Lemma drive_stuck c :
  loop_test c = true -> step c = Continue c ->
  forall fuel, drive fuel c = None.
Proof.
  intros Htest Hstep fuel. induction fuel as [|fuel IH]; cbn [drive].
  - by rewrite Htest.
  - by rewrite Htest, Hstep.
Qed.

Lemma drive_steps_none n :
  forall c0 c, steps n c0 = Some c -> (forall fuel, drive fuel c = None) ->
               forall fuel, drive fuel c0 = None.
Proof.
  induction n as [|n IH]; intros c0 c; cbn [steps].
  - by intros [= <-].
  - destruct (loop_test c0) eqn:Htest; [|done].
    destruct (step c0) as [c1| |] eqn:Hstep; [|done|done].
    intros Hn Hc [|fuel]; cbn [drive]; rewrite Htest; [done|].
    rewrite Hstep. by eapply IH.
Qed.

(** C5 (the code breaks it): on two comments that are 249 blanks apart the
    matcher steps over 257 positions, the 8-bit offset it reports is 0, and
    the loop body leaves state, cursor, token and stack as they are: the
    loop does not end, whatever the number of runs allowed. *)
Theorem create_tree_hangs :
  step (after 4 blank_comments_input) = Continue (after 4 blank_comments_input)
  /\ forall fuel, lilx_create_tree fuel blank_comments_input = None.
Proof.
  assert (Hstep : step (after 4 blank_comments_input)
                  = Continue (after 4 blank_comments_input))
    by (vm_compute; reflexivity).
  split; [done|]. intros fuel. unfold lilx_create_tree.
  rewrite parse_start.
  change (negb (code (peek blank_comments_input) =? code "<"%char))
    with false. cbn match.
  rewrite (drive_steps_none 4 (start blank_comments_input)
             (after 4 blank_comments_input)); [done| |].
  - vm_compute. reflexivity.
  - apply drive_stuck; [|done]. vm_compute. reflexivity.
Qed.

(** ** The stack, at any capacity *)

Section StackAny.

Implicit Types (s : stack_t) (fs : list ptr) (p : ptr).

Lemma holds_stack_ok s fs : holds s fs -> stack_ok s fs.
Proof.
  intros ((Hcap & Hlen & Hsz & Htop) & Hfs & Hl).
  unfold stack_ok, LILX_STACK_SIZE in *. rewrite Hcap.
  split_and!; try done; lia.
Qed.

Lemma stack_ok_slot s fs i p :
  stack_ok s fs -> fs !! i = Some p -> slots s !! i = Some (Some p).
Proof.
  intros (_ & _ & _ & Hfs & Hl & _) Hi. unfold frames in Hfs.
  apply lookup_lt_Some in Hi as Hlt.
  rewrite <- (lookup_take_lt _ (Z.to_nat (size s))) by lia.
  by rewrite Hfs, list_lookup_fmap, Hi.
Qed.

Lemma stack_ok_load_top s fs p :
  stack_ok s (fs ++ [p]) -> load_slot s (top s) = Ret p.
Proof.
  intros H. pose proof (stack_ok_slot s _ (length fs) p H) as Hslot.
  rewrite list_lookup_middle in Hslot by done. specialize (Hslot eq_refl).
  destruct H as (Hcap & Hlen & Htop & _ & Hl & Hle).
  rewrite length_app in Hl. cbn in Hl.
  unfold load_slot, in_block. rewrite Hlen, Htop.
  replace (Z.to_nat (size s - 1)) with (length fs) by lia.
  rewrite Hslot.
  destruct (0 <=? size s - 1) eqn:E1; [|lia].
  destruct (size s - 1 <? Z.of_nat (Z.to_nat (capacity s))) eqn:E2; [done|lia].
Qed.

Lemma stack_ok_guard s fs :
  stack_ok s fs ->
  (size s =? 0) || (size s >? capacity s) = bool_decide (fs = []).
Proof.
  intros (Hcap & _ & _ & _ & Hl & Hle).
  destruct fs as [|p fs]; cbn in *.
  - by rewrite Hl.
  - destruct (size s =? 0) eqn:E1; [lia|].
    destruct (size s >? capacity s) eqn:E2; [lia|]. done.
Qed.

Lemma stack_ok_peek s fs p : stack_ok s (fs ++ [p]) -> stack_peek s = Ret p.
Proof.
  intros H. unfold stack_peek. rewrite (stack_ok_guard s (fs ++ [p])) by done.
  rewrite bool_decide_false by (by destruct fs).
  by apply stack_ok_load_top with fs.
Qed.

Lemma stack_ok_pop s fs p :
  stack_ok s (fs ++ [p]) ->
  exists s', stack_pop s = Ret (p, s') /\ stack_ok s' fs
             /\ capacity s' = capacity s.
Proof.
  intros H. unfold stack_pop. rewrite (stack_ok_guard s (fs ++ [p])) by done.
  rewrite bool_decide_false by (by destruct fs).
  rewrite (stack_ok_load_top s fs p) by done. cbn [mbind res_bind].
  eexists; split; [reflexivity|]. split; [|done].
  destruct H as (Hcap & Hlen & Htop & Hfs & Hl & Hle).
  rewrite length_app in Hl. cbn in Hl.
  assert (Hu : uint8 (size s - 1) = size s - 1) by (apply uint8_small; lia).
  unfold stack_ok, frames in *. cbn. rewrite Hu.
  split_and!; try done; try lia.
  replace (Z.to_nat (size s - 1)) with (length fs) by lia.
  apply (f_equal (take (length fs))) in Hfs.
  rewrite take_take, fmap_app, take_app_length' in Hfs
    by (by rewrite length_fmap).
  rewrite <- Hfs. f_equal. lia.
Qed.

Lemma stack_ok_push s fs p :
  stack_ok s fs -> fs <> [] -> size s < capacity s -> p <> NULL ->
  exists s', stack_push s p = Ret (0, s') /\ stack_ok s' (fs ++ [p])
             /\ capacity s' = capacity s.
Proof.
  intros (Hcap & Hlen & Htop & Hfs & Hl & Hle) Hne Hlt Hp.
  assert (Hpos : 0 < size s) by (destruct fs; [done|cbn in Hl; lia]).
  unfold stack_push.
  destruct (p =? NULL)%nat eqn:E; [by apply Nat.eqb_eq in E|].
  destruct (size s >=? capacity s) eqn:E1; [lia|].
  destruct (size s >? 0) eqn:E2; [|lia].
  unfold store_slot, in_block. rewrite Hlen.
  destruct (0 <=? top s + 1) eqn:E3; [|lia].
  destruct (top s + 1 <? Z.of_nat (Z.to_nat (capacity s))) eqn:E4; [|lia].
  cbn [andb mbind res_bind]. eexists; split; [reflexivity|]. split; [|done].
  assert (Hu : uint8 (size s + 1) = size s + 1) by (apply uint8_small; lia).
  unfold stack_ok, frames in *. cbn. rewrite Hu, length_insert.
  rewrite length_app. cbn.
  split_and!; try done; try lia.
  replace (Z.to_nat (size s + 1)) with (S (Z.to_nat (size s))) by lia.
  replace (Z.to_nat (top s + 1)) with (Z.to_nat (size s)) by lia.
  erewrite take_S_r.
  - rewrite take_insert_ge by lia. by rewrite Hfs, fmap_app.
  - apply list_lookup_insert_eq. lia.
Qed.

(** The first push on a new stack goes to slot 0. *)
Lemma stack_create_push cap p :
  0 < cap <= 255 -> p <> NULL ->
  exists s', stack_push (stack_create cap) p = Ret (0, s')
             /\ stack_ok s' [p] /\ capacity s' = cap.
Proof.
  intros Hcap Hp. unfold stack_push, stack_create. cbn [size capacity top].
  destruct (p =? NULL)%nat eqn:E; [by apply Nat.eqb_eq in E|].
  destruct (0 >=? cap) eqn:E1; [lia|]. cbn [Z.gtb Z.compare].
  unfold store_slot, in_block. cbn [slots]. rewrite length_replicate.
  destruct (0 <? Z.of_nat (Z.to_nat cap)) eqn:E2; [|lia].
  cbn [Z.leb Z.compare andb mbind res_bind].
  eexists; split; [reflexivity|]. split; [|done].
  unfold stack_ok, frames. cbn.
  rewrite length_insert, length_replicate.
  split_and!; try done; try lia.
  - destruct (Z.to_nat cap) as [|n] eqn:En; [lia|]. done.
  - change (uint8 (0 + 1)) with 1. lia.
Qed.

Lemma stack_ok_push_full s fs p :
  stack_ok s fs -> size s = capacity s -> stack_push s p = Ret (1, s).
Proof.
  intros _ Hfull. unfold stack_push. destruct (p =? NULL)%nat; [done|].
  destruct (size s >=? capacity s) eqn:E; [done|lia].
Qed.

End StackAny.

Lemma push_all_ok ps :
  forall s fs,
    stack_ok s fs -> fs <> [] -> Forall (fun p => p <> NULL) ps ->
    size s + Z.of_nat (length ps) <= capacity s ->
    exists s', push_all s ps = Ret (replicate (length ps) 0, s')
               /\ stack_ok s' (fs ++ ps) /\ capacity s' = capacity s.
Proof.
  induction ps as [|p ps IH]; intros s fs Hs Hne Hps Hlen.
  - exists s. by rewrite app_nil_r.
  - apply Forall_cons in Hps as [Hp Hps]. cbn [length] in Hlen.
    destruct (stack_ok_push s fs p Hs Hne) as (s1 & E1 & Hs1 & Hc1);
      [lia|done|].
    destruct (IH s1 (fs ++ [p])) as (s' & E' & Hs' & Hc');
      [done|by destruct fs|done| |].
    { destruct Hs1 as (_ & _ & _ & _ & Hl1 & _), Hs as (_ & _ & _ & _ & Hl & _).
      rewrite length_app in Hl1. cbn in Hl1. lia. }
    exists s'. cbn [push_all]. rewrite E1. cbn [mbind res_bind]. rewrite E'.
    cbn [mbind res_bind length replicate].
    rewrite <- app_assoc in Hs'. split_and!; [done|done|congruence].
Qed.

(** ** Properties of the stack *)

(** X1: on a stack that is neither empty nor full, a push followed by a pop
    gives the element back and leaves the frames as they were; a peek in
    between sees the element. *)
Theorem stack_push_pop s fs p :
  stack_ok s fs -> fs <> [] -> size s < capacity s -> p <> NULL ->
  exists s1 s2,
    stack_push s p = Ret (0, s1) /\ stack_peek s1 = Ret p
    /\ stack_pop s1 = Ret (p, s2) /\ stack_ok s2 fs.
Proof.
  intros Hs Hne Hlt Hp.
  destruct (stack_ok_push s fs p Hs Hne Hlt Hp) as (s1 & E1 & Hs1 & _).
  destruct (stack_ok_pop s1 fs p Hs1) as (s2 & E2 & Hs2 & _).
  exists s1, s2. split_and!; [done| |done|done]. by eapply stack_ok_peek.
Qed.

(** X2: a new stack of capacity [cap] takes [cap] pushes, which it holds in
    the order pushed; the next push returns 1 and changes nothing. *)
Theorem push_all_to_capacity cap ps :
  0 < cap <= 255 -> Forall (fun p => p <> NULL) ps ->
  Z.of_nat (length ps) = cap ->
  exists s, push_all (stack_create cap) ps = Ret (replicate (length ps) 0, s)
            /\ stack_ok s ps
            /\ forall p, stack_push s p = Ret (1, s).
Proof.
  intros Hcap Hps Hlen. destruct ps as [|p ps]; [cbn in Hlen; lia|].
  apply Forall_cons in Hps as [Hp Hps]. cbn [length] in Hlen.
  destruct (stack_create_push cap p Hcap Hp) as (s1 & E1 & Hs1 & Hc1).
  destruct (push_all_ok ps s1 [p]) as (s & E & Hs & Hc); [done|done|done| |].
  { destruct Hs1 as (_ & _ & _ & _ & Hl1 & _). cbn in Hl1. lia. }
  exists s. cbn [push_all]. rewrite E1. cbn [mbind res_bind]. rewrite E.
  cbn [mbind res_bind length replicate]. split_and!; [done|done|].
  intros q. eapply stack_ok_push_full; [done|].
  destruct Hs as (_ & _ & _ & _ & Hl & _). cbn [app length] in Hl. lia.
Qed.

(** X3: pops give the frames back last in, first out; once the stack is
    empty a pop returns NULL and changes nothing. *)
Theorem pop_all_reverse ps :
  forall s fs,
    stack_ok s (fs ++ ps) ->
    exists s', pop_all (length ps) s = Ret (reverse ps, s')
               /\ stack_ok s' fs
               /\ (fs = [] -> stack_pop s' = Ret (NULL, s')
                              /\ stack_peek s' = Ret NULL).
Proof.
  induction ps as [|p ps IH] using rev_ind; intros s fs Hs.
  - rewrite app_nil_r in Hs. exists s. split_and!; [done|done|].
    intros ->. unfold stack_pop, stack_peek.
    by rewrite (stack_ok_guard s []).
  - rewrite app_assoc in Hs.
    destruct (stack_ok_pop s (fs ++ ps) p Hs) as (s1 & E1 & Hs1 & _).
    destruct (IH s1 fs Hs1) as (s' & E' & Hs' & Hempty).
    exists s'. rewrite length_app, Nat.add_comm. cbn [length Nat.add pop_all].
    rewrite E1. cbn [mbind res_bind]. rewrite E'. cbn [mbind res_bind].
    by rewrite reverse_snoc.
Qed.

(** X4: [stack_free] passes the start of the block to [free] on every
    stack that has been pushed to, emptied or not; on a stack that was
    created and never pushed to, it passes the address of slot 1. *)
Theorem stack_free_block s fs cap :
  stack_ok s fs ->
  stack_free s = Ret tt
  /\ stack_free (stack_create cap) = Fault (StackFree 1).
Proof.
  intros (_ & _ & Htop & _). split; [|done]. unfold stack_free.
  rewrite Htop. by replace (size s - 1 - (size s - 1)) with 0 by lia.
Qed.

Lemma stack_ok_start : stack_ok (stack (start "")) [root].
Proof.
  unfold stack_ok. cbn. unfold LILX_STACK_SIZE.
  split_and!; try reflexivity; lia.
Defined.

Lemma stack_push_pop_witness :
  exists s1 s2,
    stack_push (stack (start "")) 2%nat = Ret (0, s1)
    /\ stack_peek s1 = Ret 2%nat
    /\ stack_pop s1 = Ret (2%nat, s2) /\ stack_ok s2 [root].
Proof.
  apply (stack_push_pop (stack (start "")) [root] 2%nat).
  - exact stack_ok_start.
  - discriminate.
  - cbn. unfold LILX_STACK_SIZE. lia.
  - discriminate.
Defined.

Lemma push_all_to_capacity_witness :
  exists s, push_all (stack_create 2) [1; 2]%nat
            = Ret (replicate (length [1; 2]%nat) 0, s)
            /\ stack_ok s [1; 2]%nat
            /\ forall p, stack_push s p = Ret (1, s).
Proof.
  apply (push_all_to_capacity 2 [1; 2]%nat).
  - lia.
  - repeat constructor; discriminate.
  - reflexivity.
Defined.

Lemma pop_all_reverse_witness :
  exists s', pop_all (length [root]) (stack (start ""))
             = Ret (reverse [root], s')
             /\ stack_ok s' []
             /\ (@nil ptr = [] -> stack_pop s' = Ret (NULL, s')
                            /\ stack_peek s' = Ret NULL).
Proof.
  apply (pop_all_reverse [root] (stack (start "")) []). exact stack_ok_start.
Defined.

Lemma stack_free_block_witness :
  stack_free (stack (start "")) = Ret tt
  /\ stack_free (stack_create 100) = Fault (StackFree 1).
Proof.
  apply (stack_free_block (stack (start "")) [root] 100).
  exact stack_ok_start.
Defined.

(** ** The pattern matcher: offsets *)

Section Offsets.

Implicit Types (xml transition : string) (offset : Z).

Lemma compare_loop_shift transition :
  forall xml offset k,
    compare_loop transition xml (uint8 (offset + k))
    = shift k (compare_loop transition xml offset).
Proof.
  induction transition as [|t transition IH]; intros xml offset k.
  - rewrite !compare_loop_end. cbn [shift]. do 2 f_equal. uint8_solve.
  - destruct (is_nul t) eqn:Hn.
    { cbn [compare_loop]. rewrite Hn. cbn [shift]. do 2 f_equal. uint8_solve. }
    destruct (code t =? code "s"%char) eqn:Hs.
    + revert offset. induction xml as [|c xml IHx]; intros offset.
      * rewrite !compare_loop_ws_end by done. rewrite <- IH. f_equal.
        uint8_solve.
      * rewrite !compare_loop_ws by done. destruct (isspace c).
        -- rewrite <- IHx. f_equal. uint8_solve.
        -- rewrite <- IH. f_equal. uint8_solve.
    + rewrite !compare_loop_char by done.
      destruct (accepts t (peek xml)); [|done].
      destruct xml as [|c xml].
      * destruct (is_nul (peek transition)); [|done]. cbn [shift].
        do 2 f_equal. uint8_solve.
      * rewrite <- IH. f_equal. uint8_solve.
Qed.

Lemma compare_loop_uint8 transition xml offset r :
  compare_loop transition xml offset = Ret (Some r) -> uint8 r = r.
Proof. intros ->%compare_loop_offset. uint8_solve. Qed.

Lemma shift_0 transition xml offset :
  shift 0 (compare_loop transition xml offset)
  = compare_loop transition xml offset.
Proof.
  destruct (compare_loop transition xml offset) as [[r|]|f] eqn:E; [|done..].
  cbn [shift]. rewrite Z.add_0_r. by rewrite (compare_loop_uint8 _ _ _ _ E).
Qed.

Lemma shift_shift a b m :
  shift a (shift b m) = shift (a + b) m.
Proof.
  destruct m as [[r|]|f]; [|done..]. cbn [shift]. do 2 f_equal. uint8_solve.
Qed.

(** An 's' at the head of a pattern steps over the whole whitespace run
    at the cursor. *)
Lemma compare_ws_run transition xml :
  __lilx_compare xml (String "s" transition)
  = shift (Z.of_nat (ws_run xml))
      (__lilx_compare (skip_ws xml) (String "s" transition)).
Proof.
  unfold __lilx_compare. induction xml as [|c xml IH].
  - cbn [ws_run skip_ws]. by rewrite shift_0.
  - cbn [ws_run skip_ws]. rewrite compare_loop_ws by done.
    destruct (isspace c) eqn:Hc.
    + rewrite (compare_loop_shift _ xml 0 1), IH, shift_shift.
      f_equal. lia.
    + rewrite shift_0. rewrite compare_loop_ws by done. by rewrite Hc.
Qed.

Lemma ws_run_skip xml :
  (ws_run xml + String.length (skip_ws xml) = String.length xml)%nat.
Proof.
  induction xml as [|c xml IH]; [done|]. cbn [ws_run skip_ws].
  destruct (isspace c); cbn [String.length]; lia.
Qed.

(** A match steps over the input left and, with a last '0', its
    terminator. *)
Lemma compare_loop_span transition :
  forall xml offset r,
    compare_loop transition xml offset = Ret (Some r) ->
    (span transition xml <= S (String.length xml))%nat.
Proof.
  induction transition as [|t transition IH]; intros xml offset r.
  - cbn [span]. lia.
  - cbn [span]. destruct (is_nul t) eqn:Hn; [lia|].
    destruct (code t =? code "s"%char) eqn:Hs.
    + revert offset. induction xml as [|c xml IHx]; intros offset.
      * rewrite compare_loop_ws_end by done. intros H%IH.
        cbn [ws_run skip_ws] in *. lia.
      * rewrite compare_loop_ws by done. cbn [ws_run skip_ws].
        destruct (isspace c).
        -- intros H%IHx. cbn [String.length]. lia.
        -- intros H%IH. lia.
    + rewrite compare_loop_char by done.
      destruct (accepts t (peek xml)); [|done].
      destruct xml as [|c xml].
      * destruct (is_nul (peek transition)) eqn:Hend; [|done]. intros _.
        cbn [tail String.length].
        destruct transition as [|t' transition']; cbn [span]; [lia|].
        cbn [peek] in Hend. rewrite Hend. lia.
      * intros H%IH. cbn [tail String.length]. lia.
Qed.

Lemma fixed_positions_span transition :
  forall xml, (fixed_positions transition <= span transition xml)%nat.
Proof.
  induction transition as [|t transition IH]; intros xml; [done|].
  cbn [fixed_positions span]. destruct (is_nul t); [done|].
  destruct (code t =? code "s"%char).
  - specialize (IH (skip_ws xml)). lia.
  - specialize (IH (tail xml)). lia.
Qed.

Lemma ws_run_max xml : (ws_run xml <= max_ws_run xml)%nat.
Proof. destruct xml as [|c xml]; [done|]. cbn [max_ws_run]. lia. Qed.

Lemma max_ws_run_tail xml : (max_ws_run (tail xml) <= max_ws_run xml)%nat.
Proof. destruct xml as [|c xml]; [done|]. cbn [tail max_ws_run]. lia. Qed.

Lemma max_ws_run_skip xml : (max_ws_run (skip_ws xml) <= max_ws_run xml)%nat.
Proof.
  induction xml as [|c xml IH]; [done|]. cbn [skip_ws].
  destruct (isspace c); [|done]. cbn [max_ws_run]. lia.
Qed.

Lemma span_max_ws_run transition :
  forall xml,
    (span transition xml
     <= fixed_positions transition
        + blank_positions transition * max_ws_run xml)%nat.
Proof.
  induction transition as [|t transition IH]; intros xml; [done|].
  cbn [fixed_positions blank_positions span]. destruct (is_nul t); [done|].
  destruct (code t =? code "s"%char).
  - specialize (IH (skip_ws xml)). pose proof (ws_run_max xml).
    pose proof (max_ws_run_skip xml). nia.
  - specialize (IH (tail xml)). pose proof (max_ws_run_tail xml). nia.
Qed.

Lemma advance_length n :
  forall s s', advance n s = Some s' ->
               (String.length s' + n = String.length s)%nat.
Proof.
  induction n as [|n IH]; intros s s'; cbn [advance].
  - intros [= <-]. lia.
  - destruct s as [|c s]; [done|]. intros H%IH. cbn [String.length]. lia.
Qed.


Lemma advance_max_ws_run n :
  forall s s', advance n s = Some s' -> (max_ws_run s' <= max_ws_run s)%nat.
Proof.
  induction n as [|n IH]; intros s s'; cbn [advance].
  - by intros [= <-].
  - destruct s as [|c s]; [done|]. intros H%IH. cbn [max_ws_run]. lia.
Qed.

(** The offset of a match on a pattern with a position other than 's' does
    not lead beyond the terminator of the input. *)
Lemma compare_offset_bound xml transition offset :
  __lilx_compare xml transition = Ret (Some offset) ->
  (1 <= fixed_positions transition)%nat ->
  0 <= offset <= Z.of_nat (String.length xml).
Proof.
  unfold __lilx_compare. intros H Hfix.
  pose proof (compare_loop_span _ _ _ _ H) as Hspan.
  pose proof (fixed_positions_span transition xml) as Hmin.
  apply compare_loop_offset in H. subst offset. uint8_solve.
Qed.

End Offsets.

(** ** The driver loop: progress and faults *)

Section Progress.

Implicit Types (c : config) (fs : list ptr) (input : string).

#[local] Arguments stack_push : simpl never.
#[local] Arguments stack_pop : simpl never.
#[local] Arguments stack_peek : simpl never.
#[local] Arguments strstr : simpl never.
#[local] Arguments strncmp : simpl never.
#[local] Arguments store : simpl never.
#[local] Arguments load : simpl never.
#[local] Arguments free : simpl never.
#[local] Arguments free_value : simpl never.
#[local] Arguments frames_ok : simpl never.

Lemma candidates_fit st : forallb (fits 82) (candidates st) = true.
Proof. destruct st; vm_compute; reflexivity. Qed.

Lemma candidate_fits st cand :
  cand ∈ candidates st -> fits 82 cand = true.
Proof.
  intros Hin. pose proof (candidates_fit st) as H.
  rewrite forallb_forall in H. apply H. by apply list_elem_of_In.
Qed.

Lemma get_next_state_match st xml st' offset tran :
  __lilx_get_next_state st xml = Ret (Some (st', offset, tran)) ->
  (st', tran) ∈ candidates st
  /\ __lilx_compare xml tran = Ret (Some offset).
Proof.
  intros H. destruct (get_next_state_best xml st) as (r & E & Hwin).
  rewrite H in E. injection E as <-. unfold winner in Hwin.
  destruct Hwin as (ea & la & -> & Hm & _). split; [|done].
  apply elem_of_app. right. apply elem_of_cons. by left.
Qed.


(** Without wrap-around, a state change moves the cursor on. *)
Lemma get_next_state_forward st xml st' offset tran :
  __lilx_get_next_state st xml = Ret (Some (st', offset, tran)) ->
  (span tran xml <= 256)%nat -> 1 <= offset.
Proof.
  intros [Hin Hm]%get_next_state_match Hspan.
  apply candidate_fits in Hin as [Hfix _]%andb_prop. cbn [snd] in Hfix.
  pose proof (fixed_positions_span tran xml) as Hmin.
  apply compare_loop_offset in Hm. subst offset. uint8_solve.
Qed.

Lemma short_blanks_span st xml cand :
  short_blanks xml -> cand ∈ candidates st -> (span cand.2 xml <= 256)%nat.
Proof.
  intros Hxml [_ Hfit]%candidate_fits%andb_prop.
  pose proof (span_max_ws_run cand.2 xml) as Hspan.
  unfold short_blanks in Hxml. nia.
Qed.

Lemma loop_test_cursor c :
  loop_test c = true -> exists ch r, xml c = String ch r /\ is_nul ch = false.
Proof.
  unfold loop_test. intros [_ H]%andb_prop.
  destruct (xml c) as [|ch r]; [done|]. exists ch, r. split; [done|].
  cbn [peek] in H. by destruct (is_nul ch).
Qed.

Section Ends.

(** A property of the input left that rules out the wrap-around of the
    offset. *)
Variable P : string -> Prop.
Hypothesis P_span :
  forall st xml cand offset,
    P xml -> cand ∈ candidates st ->
    __lilx_compare xml cand.2 = Ret (Some offset) ->
    (span cand.2 xml <= 256)%nat.
Hypothesis P_advance :
  forall n s s', P s -> advance n s = Some s' -> P s'.

Lemma step_shorter c c' :
  P (xml c) -> loop_test c = true -> step c = Continue c' ->
  P (xml c') /\ (String.length (xml c') < String.length (xml c))%nat.
Proof.
  intros HP Htest. unfold step.
  destruct (__lilx_get_next_state (cur_state c) (xml c))
    as [[[[st' offset] tran]|]|f] eqn:Hnext; [| |done].
  - destruct (tknidx c <? LILX_MAX_TOKEN_LENGTH); [|done].
    destruct (__lilx_actions (cur_state c) (stack c, mem c) (token c) tran)
      as [[rc [s' h']]|f]; [|done].
    destruct (negb (rc =? 0)); [done|].
    destruct (advance (Z.to_nat offset) (xml c)) as [xml'|] eqn:Hadv; [|done].
    intros [= <-]. cbn [xml]. split; [by eapply P_advance|].
    pose proof (get_next_state_match _ _ _ _ _ Hnext) as [Hin Hm].
    pose proof (P_span _ _ _ _ HP Hin Hm) as Hspan. cbn [snd] in Hspan.
    pose proof (get_next_state_forward _ _ _ _ _ Hnext Hspan).
    apply advance_length in Hadv. lia.
  - destruct (tknidx c =? LILX_MAX_TOKEN_LENGTH); [done|].
    destruct (tknidx c <? LILX_MAX_TOKEN_LENGTH); [|done].
    intros [= <-]. cbn [xml].
    destruct (loop_test_cursor c Htest) as (ch & r & E & _).
    rewrite E in *. cbn [tail String.length]. split; [|lia].
    by apply (P_advance 1%nat (String ch r) r).
Qed.

Lemma drive_ends fuel :
  forall c, P (xml c) -> (String.length (xml c) <= fuel)%nat ->
            exists r, drive fuel c = Some r.
Proof.
  induction fuel as [|fuel IH]; intros c HP Hlen; cbn [drive].
  - destruct (loop_test c) eqn:Htest; [|by eexists].
    destruct (loop_test_cursor c Htest) as (ch & r & E & _).
    rewrite E in Hlen. cbn in Hlen. lia.
  - destruct (loop_test c) eqn:Htest; [|by eexists].
    destruct (step c) as [c1|c1|f] eqn:Hstep; [|by eexists..].
    destruct (step_shorter c c1 HP Htest Hstep) as [HP1 Hlt].
    apply IH; [done|lia].
Qed.

Lemma parse_ends_with input :
  P (tail input) ->
  exists r, parse (String.length input) input = Some r.
Proof.
  intros HP. rewrite parse_start.
  destruct (negb (code (peek input) =? code "<"%char)); [by eexists|].
  destruct (drive_ends (String.length input) (start input)) as [r E].
  - done.
  - cbn [start xml]. destruct input; cbn; lia.
  - rewrite E. cbn. by eexists.
Qed.

End Ends.

Lemma parse_ends_short_blanks input :
  short_blanks input ->
  exists r, parse (String.length input) input = Some r.
Proof.
  intros Hin. apply (parse_ends_with short_blanks).
  - intros st xml cand offset Hxml Hcand _. by eapply short_blanks_span.
  - intros n s s' Hs Hadv. unfold short_blanks in *.
    apply advance_max_ws_run in Hadv. lia.
  - unfold short_blanks in *. pose proof (max_ws_run_tail input). lia.
Qed.

Lemma parse_ends_short input :
  (String.length input <= 256)%nat ->
  exists r, parse (String.length input) input = Some r.
Proof.
  intros Hin.
  apply (parse_ends_with (fun s => (String.length s <= 255)%nat)).
  - intros st xml cand offset Hxml Hcand Hm.
    apply compare_loop_span in Hm. lia.
  - intros n s s' Hs Hadv. apply advance_length in Hadv. lia.
  - destruct input; cbn in *; lia.
Qed.

End Progress.

(** ** The driver loop: the faults that are left *)

Section Faults.

Implicit Types (s : stack_t) (h : heap) (fs : list ptr) (p : ptr).
Implicit Types (tkn transition : string) (st : state) (c : config).

#[local] Arguments stack_push : simpl never.
#[local] Arguments stack_pop : simpl never.
#[local] Arguments stack_peek : simpl never.
#[local] Arguments strstr : simpl never.
#[local] Arguments strncmp : simpl never.
#[local] Arguments store : simpl never.
#[local] Arguments load : simpl never.
#[local] Arguments free : simpl never.
#[local] Arguments free_value : simpl never.
#[local] Arguments frames_ok : simpl never.







Lemma cstr_snoc tkn ch :
  cstr tkn = tkn -> is_nul ch = false ->
  cstr (tkn +:+ String ch EmptyString) = tkn +:+ String ch EmptyString.
Proof.
  intros Ht Hch. induction tkn as [|d tkn IH]; simpl.
  - by rewrite Hch.
  - simpl in Ht. destruct (is_nul d); [done|].
    injection Ht as Ht. by rewrite IH.
Qed.

Lemma length_snoc tkn ch :
  String.length (tkn +:+ String ch EmptyString) = S (String.length tkn).
Proof. induction tkn as [|d tkn IH]; simpl; [done|]. by rewrite IH. Qed.

Lemma step_token c c' :
  token_ok c -> loop_test c = true -> step c = Continue c' -> token_ok c'.
Proof.
  intros [Hlen Hnul] Htest. unfold step.
  destruct (__lilx_get_next_state (cur_state c) (xml c))
    as [[[[st' offset] tran]|]|f]; [| |done].
  - destruct (tknidx c <? LILX_MAX_TOKEN_LENGTH); [|done].
    destruct (__lilx_actions (cur_state c) (stack c, mem c) (token c) tran)
      as [[rc [s' h']]|f]; [|done].
    destruct (negb (rc =? 0)); [done|].
    destruct (advance (Z.to_nat offset) (xml c)); [|done].
    intros [= <-]. by split.
  - destruct (tknidx c =? LILX_MAX_TOKEN_LENGTH) eqn:E1; [done|].
    destruct (tknidx c <? LILX_MAX_TOKEN_LENGTH) eqn:E2; [|done].
    intros [= <-]. unfold token_ok, tknidx in *. cbn [token].
    destruct (loop_test_cursor c Htest) as (ch & r & E & Hch).
    rewrite E. cbn [peek]. rewrite length_snoc. split; [lia|].
    by apply cstr_snoc.
Qed.

Lemma steps_token n :
  forall c c', token_ok c -> steps n c = Some c' -> token_ok c'.
Proof.
  induction n as [|n IH]; intros c c' Hc; cbn [steps].
  - by intros [= <-].
  - destruct (loop_test c) eqn:Htest; [|done].
    destruct (step c) as [c1| |] eqn:Hstep; [|done|done].
    apply IH. by eapply step_token.
Qed.

Lemma reachable_token input c : reachable input c -> token_ok c.
Proof. intros [n Hn]. eapply steps_token; [|done]. by split. Qed.


End Faults.

(** ** Further properties of the matcher, the state machine and the loop *)

(** X5: on a pattern whose '0' characters are all last, as every pattern of
    the transition table is, the matcher returns without reading the input
    beyond its terminator. *)
Theorem compare_in_input xml transition :
  zero_last transition = true ->
  exists m, __lilx_compare xml transition = Ret m.
Proof.
  intros Hz. unfold __lilx_compare.
  destruct (compare_loop transition xml 0) as [m|f] eqn:E; [by exists m|].
  by apply compare_loop_no_fault in E.
Qed.

Lemma compare_in_input_witness :
  exists m, __lilx_compare "> " "s>s0" = Ret m.
Proof. apply (compare_in_input "> " "s>s0"). reflexivity. Defined.

(** X6: an 's' at the head of a pattern steps over the whole whitespace
    run at the cursor: the match is the match behind the run, with the
    length of the run added to the offset, in 8 bits. *)
Theorem compare_skips_whitespace xml transition :
  __lilx_compare xml (String "s" transition)
  = shift (Z.of_nat (ws_run xml))
      (__lilx_compare (skip_ws xml) (String "s" transition)).
Proof. exact (compare_ws_run transition xml). Qed.

(** X7: the offset of a match on a pattern with a position other than 's'
    is at most the length of the input left: skipping it does not lead
    beyond the terminator. *)
Theorem compare_offset_in_input xml transition offset :
  __lilx_compare xml transition = Ret (Some offset) ->
  (1 <= fixed_positions transition)%nat ->
  0 <= offset <= Z.of_nat (String.length xml).
Proof. exact (compare_offset_bound xml transition offset). Qed.

Lemma compare_offset_in_input_witness :
  0 <= 2 <= Z.of_nat (String.length "><b").
Proof.
  apply (compare_offset_in_input "><b" "s>s<a" 2); [reflexivity|].
  change (fixed_positions "s>s<a") with 3%nat. lia.
Defined.

(** X8: the state ATTR_VAL is entered from ATTR_NAME only, and ATTR_NAME
    is left to ATTR_VAL only. *)
Theorem attr_val_follows_attr_name st xml st' offset tran :
  __lilx_get_next_state st xml = Ret (Some (st', offset, tran)) ->
  st' = ATTR_VAL <-> st = ATTR_NAME.
Proof. intros H. by eapply candidates_target, get_next_state_candidate. Qed.

Lemma attr_val_follows_attr_name_witness :
  ATTR_VAL = ATTR_VAL <-> ATTR_NAME = ATTR_NAME.
Proof.
  apply (attr_val_follows_attr_name ATTR_NAME ("=" +:+ quoted "v") ATTR_VAL 2
           ("=" +:+ quoted "sA")).
  reflexivity.
Defined.

(** X9: in every configuration that the loop reaches, the pending token
    has at most LILX_MAX_TOKEN_LENGTH characters, none of them NUL. *)
Theorem token_fits_buffer input c :
  reachable input c -> token_ok c.
Proof. exact (reachable_token input c). Qed.

Lemma token_fits_buffer_witness : token_ok (after 4 attribute_input).
Proof.
  apply (token_fits_buffer attribute_input).
  exists 4%nat. vm_compute. reflexivity.
Defined.



(** ** Tree growth and the handlers, in detail *)

Section Growth.

Implicit Types (s : stack_t) (h : heap) (fs : list ptr) (p : ptr).
Implicit Types (tkn transition : string) (e : element_t).

#[local] Arguments stack_push : simpl never.
#[local] Arguments stack_pop : simpl never.
#[local] Arguments stack_peek : simpl never.
#[local] Arguments strstr : simpl never.
#[local] Arguments strncmp : simpl never.
#[local] Arguments store : simpl never.
#[local] Arguments load : simpl never.
#[local] Arguments free : simpl never.
#[local] Arguments free_value : simpl never.

Lemma add_child_counted h parent child e :
  load h parent = Some (OElem e) ->
  num_children e = Z.of_nat (length (children e)) -> num_children e < 255 ->
  __lilx_add_child h parent child
  = Ret (0, store h parent (OElem (add_child_to e child))).
Proof.
  intros He Hn Hlt. unfold __lilx_add_child, load_element. rewrite He.
  cbn [mbind res_bind]. unfold add_child_to. do 4 f_equal.
  f_equal; [apply uint8_small; lia|].
  rewrite Hn, Nat2Z.id. by rewrite firstn_all.
Qed.

Lemma add_attr_counted h element attr e :
  load h element = Some (OElem e) ->
  num_attributes e = Z.of_nat (length (attributes e)) ->
  num_attributes e < 255 ->
  __lilx_add_attr h element attr
  = Ret (0, store h element (OElem (add_attr_to e attr))).
Proof.
  intros He Hn Hlt. unfold __lilx_add_attr, load_element. rewrite He.
  cbn [mbind res_bind]. unfold add_attr_to. do 4 f_equal.
  f_equal; [apply uint8_small; lia|].
  f_equal. rewrite Hn, Nat2Z.id. by rewrite firstn_all.
Qed.

Lemma add_children_ok cs :
  forall h parent e,
    load h parent = Some (OElem e) ->
    num_children e = Z.of_nat (length (children e)) ->
    Z.of_nat (length (children e) + length cs) <= 255 ->
    exists h' e',
      add_children h parent cs = Ret (replicate (length cs) 0, h')
      /\ load h' parent = Some (OElem e')
      /\ children e' = children e ++ cs
      /\ num_children e' = Z.of_nat (length (children e) + length cs)
      /\ e_name e' = e_name e /\ e_body e' = e_body e
      /\ attributes e' = attributes e
      /\ num_attributes e' = num_attributes e
      /\ forall q, q <> parent -> load h' q = load h q.
Proof.
  induction cs as [|c cs IH]; intros h parent e He Hn Hlen.
  - exists h, e. rewrite app_nil_r, Nat.add_0_r. by split_and!.
  - cbn [length] in Hlen.
    cbn [add_children].
    rewrite (add_child_counted h parent c e) by (done || lia).
    cbn [mbind res_bind].
    destruct (IH (store h parent (OElem (add_child_to e c))) parent
                (add_child_to e c))
      as (h' & e' & E & He' & Hcs & Hnum & Hname & Hbody & Hattrs & Hna & Hoth).
    { by eapply load_store. }
    { cbn. rewrite length_app. cbn. lia. }
    { cbn. rewrite length_app. cbn. lia. }
    exists h', e'. rewrite E. cbn [mbind res_bind length replicate].
    cbn in Hcs, Hnum, Hname, Hbody, Hattrs, Hna.
    rewrite length_app in Hnum. cbn in Hnum.
    rewrite <- app_assoc in Hcs.
    split_and!; try done; try lia.
    intros q Hq. rewrite Hoth by done. by apply load_store_other.
Qed.

Lemma holds_snoc_length s fs p :
  holds s (fs ++ [p]) -> (length fs < 100)%nat.
Proof. intros [_ H]%holds_size. rewrite length_app in H. cbn in H. lia. Qed.

Lemma add_children_app parent l2 l1 :
  forall h r1 h1,
    add_children h parent l1 = Ret (r1, h1) ->
    add_children h parent (l1 ++ l2)
    = '(r2, h2) ← add_children h1 parent l2; Ret (r1 ++ r2, h2).
Proof.
  induction l1 as [|c l1 IH]; intros h r1 h1.
  - intros [= <- <-]. cbn [app].
    by destruct (add_children h parent l2) as [[r2 h2]|f].
  - cbn [app add_children].
    destruct (__lilx_add_child h parent c) as [[rc h']|f]; [|done].
    cbn [mbind res_bind].
    destruct (add_children h' parent l1) as [[rcs h'']|f] eqn:E; [|done].
    cbn [mbind res_bind]. intros [= <- <-]. rewrite (IH h' rcs h'' E).
    by destruct (add_children h'' parent l2) as [[r2 h2]|f].
Qed.

Lemma add_children_wrap h parent e cs d c :
  load h parent = Some (OElem e) ->
  num_children e = Z.of_nat (length (children e)) ->
  (length (children e) + length cs = 255)%nat ->
  exists h' e',
    add_children h parent (cs ++ [d; c])
    = Ret (replicate (length (cs ++ [d; c])) 0, h')
    /\ load h' parent = Some (OElem e')
    /\ children e' = [c] /\ num_children e' = 1.
Proof.
  intros He Hn Hlen.
  destruct (add_children_ok cs h parent e He Hn)
    as (h1 & e1 & E & He1 & Hcs & Hnum & _); [lia|].
  rewrite (add_children_app parent [d; c] cs h _ h1 E).
  cbn [add_children]. unfold __lilx_add_child, load_element.
  rewrite He1. cbn [mbind res_bind].
  erewrite load_store by done. cbn [mbind res_bind num_children children].
  do 2 eexists. split; [by rewrite length_app, replicate_add|].
  split; [eapply load_store; by eapply load_store|].
  cbn [children num_children]. rewrite Hnum.
  replace (Z.of_nat (length (children e) + length cs)) with 255 by lia.
  done.
Qed.

End Growth.

(** X13: children added to an element one after the other are listed in
    the order added, behind the ones it had, as long as the element has no
    more than 255 children; nothing else in the heap changes. *)
Theorem add_children_order cs h parent e :
  load h parent = Some (OElem e) ->
  num_children e = Z.of_nat (length (children e)) ->
  Z.of_nat (length (children e) + length cs) <= 255 ->
  exists h' e',
    add_children h parent cs = Ret (replicate (length cs) 0, h')
    /\ load h' parent = Some (OElem e')
    /\ children e' = children e ++ cs
    /\ num_children e' = Z.of_nat (length (children e) + length cs)
    /\ e_name e' = e_name e /\ e_body e' = e_body e
    /\ attributes e' = attributes e
    /\ num_attributes e' = num_attributes e
    /\ forall q, q <> parent -> load h' q = load h q.
Proof. exact (add_children_ok cs h parent e). Qed.

Lemma add_children_order_witness :
  exists h' e',
    add_children root_heap root [2; 3]%nat
    = Ret (replicate (length [2; 3]%nat) 0, h')
    /\ load h' root = Some (OElem e')
    /\ children e' = children (new_element "root") ++ [2; 3]%nat
    /\ num_children e'
       = Z.of_nat (length (children (new_element "root"))
                   + length [2; 3]%nat)
    /\ e_name e' = e_name (new_element "root")
    /\ e_body e' = e_body (new_element "root")
    /\ attributes e' = attributes (new_element "root")
    /\ num_attributes e' = num_attributes (new_element "root")
    /\ forall q, q <> root -> load h' q = load root_heap q.
Proof.
  apply (add_children_order [2; 3]%nat root_heap root (new_element "root")).
  - reflexivity.
  - reflexivity.
  - cbn. lia.
Defined.

(** X14: the counter of the children wraps around at 256: the child added
    to an element of 256 children is its only child afterwards. *)
Theorem add_child_counter_wraps h parent e cs d c :
  load h parent = Some (OElem e) ->
  num_children e = Z.of_nat (length (children e)) ->
  (length (children e) + length cs = 255)%nat ->
  exists h' e',
    add_children h parent (cs ++ [d; c])
    = Ret (replicate (length (cs ++ [d; c])) 0, h')
    /\ load h' parent = Some (OElem e')
    /\ children e' = [c] /\ num_children e' = 1.
Proof. exact (add_children_wrap h parent e cs d c). Qed.

Lemma add_child_counter_wraps_witness :
  exists h' e',
    add_children root_heap root (replicate 255 2%nat ++ [3; 4]%nat)
    = Ret (replicate (length (replicate 255 2%nat ++ [3; 4]%nat)) 0, h')
    /\ load h' root = Some (OElem e')
    /\ children e' = [4%nat] /\ num_children e' = 1.
Proof.
  apply (add_child_counter_wraps root_heap root (new_element "root")
           (replicate 255 2%nat) 3%nat 4%nat); reflexivity.
Defined.

(** ** The action handlers and the tree *)

Section Handlers.

Implicit Types (s : stack_t) (h : heap) (fs : list ptr) (p : ptr).
Implicit Types (tkn transition : string) (e : element_t).

#[local] Arguments stack_push : simpl never.
#[local] Arguments stack_pop : simpl never.
#[local] Arguments stack_peek : simpl never.
#[local] Arguments strstr : simpl never.
#[local] Arguments strncmp : simpl never.
#[local] Arguments store : simpl never.
#[local] Arguments load : simpl never.
#[local] Arguments free : simpl never.
#[local] Arguments free_value : simpl never.

(** X15: with an element on top of the stack, the handler of a tag name
    creates an element of that name and attaches it as the last child of
    the element on top; it pushes the new element unless the tag is self
    closing.  When the stack is full it returns 1 and frees the new
    element, which the element on top still lists as its last child. *)
Theorem elem_name_start_action_attaches s h fs parent e tkn transition :
  holds s (fs ++ [parent]) -> load h parent = Some (OElem e) ->
  num_children e = Z.of_nat (length (children e)) -> num_children e < 255 ->
  exists rc s',
    __lilx_elem_name_start_action (s, h) tkn transition
    = Ret (rc, (s',
                let h' := store (h ++ [OElem (new_element (strcpy tkn))])
                            parent (OElem (add_child_to e (S (length h)))) in
                if rc =? 0 then h' else store h' (S (length h)) OFreed))
    /\ if strstr transition "/>" then rc = 0 /\ s' = s
       else if (length fs <? 99)%nat
            then rc = 0 /\ holds s' (fs ++ [parent; S (length h)])
            else rc = 1 /\ s' = s.
Proof.
  intros Hs He Hn Hlt. unfold __lilx_elem_name_start_action. cbn [malloc].
  rewrite (stack_peek_top s fs parent) by done. cbn [mbind res_bind].
  destruct (load_valid _ _ _ He) as [Hnn Hle].
  rewrite not_null_eqb by done.
  rewrite (add_child_counted _ parent _ e); [|by apply load_malloc_old|done..].
  cbn [mbind res_bind Z.eqb negb].
  destruct (strstr transition "/>"); [by exists 0, s|].
  pose proof (holds_snoc_length _ _ _ Hs) as Hlen.
  destruct (length fs <? 99)%nat eqn:Hfs.
  - destruct (stack_push_top s (fs ++ [parent]) (S (length h)))
      as (s' & E' & Hs'); [done|by destruct fs| |done|].
    { rewrite length_app. cbn. lia. }
    rewrite E'. cbn [mbind res_bind Z.eqb negb]. exists 0, s'.
    split; [done|]. split; [done|]. by rewrite <- app_assoc in Hs'.
  - rewrite (stack_push_full s (fs ++ [parent])); [|done| |done].
    + cbn [mbind res_bind Z.eqb negb].
      erewrite free_element; [by exists 1, s|].
      rewrite load_store_other by lia. apply load_malloc.
    + rewrite length_app. cbn. lia.
Qed.

(** X16: with an element on top of the stack, the handler of an attribute
    name creates an attribute of that name, without a value, appends it to
    the attributes of the element on top and pushes it.  When the stack is
    full it returns 1 and frees the new attribute, which the element on
    top still lists as its last attribute. *)
Theorem attr_name_action_attaches s h fs element e tkn transition :
  holds s (fs ++ [element]) -> load h element = Some (OElem e) ->
  num_attributes e = Z.of_nat (length (attributes e)) ->
  num_attributes e < 255 ->
  exists rc s',
    __lilx_attr_name_action (s, h) tkn transition
    = Ret (rc, (s',
                let h' := store (h ++ [OAttr (new_attribute (strcpy tkn))])
                            element (OElem (add_attr_to e (S (length h)))) in
                if rc =? 0 then h' else store h' (S (length h)) OFreed))
    /\ if (length fs <? 99)%nat
       then rc = 0 /\ holds s' (fs ++ [element; S (length h)])
       else rc = 1 /\ s' = s.
Proof.
  intros Hs He Hn Hlt. unfold __lilx_attr_name_action. cbn [malloc].
  rewrite (stack_peek_top s fs element) by done. cbn [mbind res_bind].
  destruct (load_valid _ _ _ He) as [Hnn Hle].
  rewrite not_null_eqb by done.
  rewrite (add_attr_counted _ element _ e); [|by apply load_malloc_old|done..].
  cbn [mbind res_bind Z.eqb negb].
  pose proof (holds_snoc_length _ _ _ Hs) as Hlen.
  destruct (length fs <? 99)%nat eqn:Hfs.
  - destruct (stack_push_top s (fs ++ [element]) (S (length h)))
      as (s' & E' & Hs'); [done|by destruct fs| |done|].
    { rewrite length_app. cbn. lia. }
    rewrite E'. cbn [mbind res_bind Z.eqb negb]. exists 0, s'.
    split; [done|]. split; [done|]. by rewrite <- app_assoc in Hs'.
  - rewrite (stack_push_full s (fs ++ [element])); [|done| |done].
    + cbn [mbind res_bind Z.eqb negb].
      erewrite free_attr; [by exists 1, s|].
      rewrite load_store_other by lia. apply load_malloc.
    + rewrite length_app. cbn. lia.
Qed.

(** X17: the handler of an attribute value sets the value of the attribute
    on top of the stack to the token and pops the attribute, and the
    element below it when the tag is self closing; when there is no frame
    below it returns 1 and frees the value, which the attribute still
    points to.  An attribute that has a value already makes it return 1
    and change nothing. *)
Theorem attr_val_action_sets s h below attr a tkn transition :
  holds s (below ++ [attr]) -> load h attr = Some (OAttr a) ->
  Forall (fun p => p <> NULL) below ->
  match a_value a with
  | Some _ => __lilx_attr_val_action (s, h) tkn transition = Ret (1, (s, h))
  | None =>
      exists rc s',
        __lilx_attr_val_action (s, h) tkn transition
        = Ret (rc, (s',
                    let h' := store h attr
                                (OAttr {| a_name := a_name a;
                                          a_value := Some (strcpy tkn) |}) in
                    if rc =? 0 then h' else store h' attr OStale))
        /\ if strstr transition "/>"
           then (below = [] /\ rc = 1 /\ holds s' [])
                \/ (exists below' element,
                       below = below' ++ [element] /\ rc = 0
                       /\ holds s' below')
           else rc = 0 /\ holds s' below
  end.
Proof.
  intros Hs Ha Hbelow. unfold __lilx_attr_val_action.
  rewrite (stack_peek_top s below attr) by done. cbn [mbind res_bind].
  destruct (load_valid _ _ _ Ha) as [Hnn _].
  rewrite not_null_eqb by done. unfold load_attribute. rewrite Ha.
  cbn [mbind res_bind]. destruct (a_value a) as [v|] eqn:Hv.
  { by rewrite bool_decide_true. }
  rewrite bool_decide_false by (intros Hc; by apply Hc).
  destruct (stack_pop_top s below attr Hs) as (s1 & E & Hs1).
  rewrite E. cbn [mbind res_bind]. rewrite Nat.eqb_refl. cbn [negb].
  destruct (strstr transition "/>").
  - destruct below as [|element below _] using rev_ind.
    + rewrite stack_pop_empty by done. cbn [mbind res_bind Nat.eqb NULL].
      erewrite free_value_set; [|by eapply load_store|reflexivity].
      exists 1, s1. split; [done|]. left. by split_and!.
    + destruct (stack_pop_top s1 below element Hs1) as (s2 & E2 & Hs2).
      rewrite E2. cbn [mbind res_bind].
      apply Forall_app in Hbelow as [_ Hel].
      rewrite Forall_singleton in Hel. rewrite not_null_eqb by exact Hel.
      exists 0, s2. split; [done|]. right. exists below, element.
      by split_and!.
  - by exists 0, s1.
Qed.

(** X18: the handler of an element body replaces the body of the element
    on top of the stack by the token and leaves the stack as it is; on an
    empty stack it returns 1. *)
Theorem elem_action_sets_body s h fs tkn transition :
  holds s fs ->
  match last fs with
  | None => __lilx_elem_action (s, h) tkn transition = Ret (1, (s, h))
  | Some element =>
      forall e, load h element = Some (OElem e) ->
        __lilx_elem_action (s, h) tkn transition
        = Ret (0, (s, store h element (OElem (with_body e (strcpy tkn)))))
  end.
Proof.
  intros Hs. unfold __lilx_elem_action.
  destruct fs as [|element fs _] using rev_ind.
  - cbn [last]. by rewrite stack_peek_empty.
  - rewrite last_snoc. intros e He.
    rewrite (stack_peek_top s fs element) by done. cbn [mbind res_bind].
    destruct (load_valid _ _ _ He) as [Hnn _].
    rewrite not_null_eqb by done. unfold load_element. by rewrite He.
Qed.

End Handlers.

Lemma holds_start : holds (stack (start "")) [root].
Proof.
  unfold holds, stack_inv. cbn. unfold LILX_STACK_SIZE.
  split_and!; try reflexivity; lia.
Defined.

Lemma holds_attribute :
  holds (stack (after 4 attribute_input)) ([1; 2] ++ [3])%nat.
Proof.
  unfold holds, stack_inv.
  change (stack (after 4 attribute_input))
    with {| capacity := 100; size := 3; top := 2;
            slots := [Some 1; Some 2; Some 3]%nat ++ replicate 97 None |}.
  cbn. unfold LILX_STACK_SIZE. split_and!; try reflexivity; lia.
Defined.

Lemma elem_name_start_action_attaches_witness :
  exists rc s',
    __lilx_elem_name_start_action (stack (start ""), root_heap) "a" "s>s<a"
    = Ret (rc, (s',
                let h' := store
                            (root_heap ++ [OElem (new_element (strcpy "a"))])
                            root
                            (OElem (add_child_to (new_element "root")
                                      (S (length root_heap)))) in
                if rc =? 0 then h'
                else store h' (S (length root_heap)) OFreed))
    /\ if strstr "s>s<a" "/>" then rc = 0 /\ s' = stack (start "")
       else if (length (@nil ptr) <? 99)%nat
            then rc = 0
                 /\ holds s' ([] ++ [root; S (length root_heap)])
            else rc = 1 /\ s' = stack (start "").
Proof.
  apply (elem_name_start_action_attaches (stack (start "")) root_heap []
           root (new_element "root") "a" "s>s<a").
  - exact holds_start.
  - reflexivity.
  - reflexivity.
  - cbn. lia.
Defined.

Lemma attr_name_action_attaches_witness :
  exists rc s',
    __lilx_attr_name_action (stack (start ""), root_heap) "k" "=s"
    = Ret (rc, (s',
                let h' := store
                            (root_heap
                             ++ [OAttr (new_attribute (strcpy "k"))])
                            root
                            (OElem (add_attr_to (new_element "root")
                                      (S (length root_heap)))) in
                if rc =? 0 then h'
                else store h' (S (length root_heap)) OFreed))
    /\ if (length (@nil ptr) <? 99)%nat
       then rc = 0 /\ holds s' ([] ++ [root; S (length root_heap)])
       else rc = 1 /\ s' = stack (start "").
Proof.
  apply (attr_name_action_attaches (stack (start "")) root_heap []
           root (new_element "root") "k" "=s").
  - exact holds_start.
  - reflexivity.
  - reflexivity.
  - cbn. lia.
Defined.

Lemma attr_val_action_sets_witness :
  match a_value (new_attribute "k") with
  | Some _ =>
      __lilx_attr_val_action
        (stack (after 4 attribute_input), mem (after 4 attribute_input))
        "v" "s/>s0"
      = Ret (1, (stack (after 4 attribute_input),
                 mem (after 4 attribute_input)))
  | None =>
      exists rc s',
        __lilx_attr_val_action
          (stack (after 4 attribute_input), mem (after 4 attribute_input))
          "v" "s/>s0"
        = Ret (rc, (s',
                    let h' := store (mem (after 4 attribute_input)) 3%nat
                                (OAttr {| a_name := a_name (new_attribute "k");
                                          a_value := Some (strcpy "v") |}) in
                    if rc =? 0 then h' else store h' 3%nat OStale))
        /\ if strstr "s/>s0" "/>"
           then ([1; 2]%nat = [] /\ rc = 1 /\ holds s' [])
                \/ (exists below' element,
                       [1; 2]%nat = below' ++ [element] /\ rc = 0
                       /\ holds s' below')
           else rc = 0 /\ holds s' [1; 2]%nat
  end.
Proof.
  apply (attr_val_action_sets (stack (after 4 attribute_input))
           (mem (after 4 attribute_input)) [1; 2]%nat 3%nat
           (new_attribute "k") "v" "s/>s0").
  - exact holds_attribute.
  - vm_compute. reflexivity.
  - repeat constructor; discriminate.
Defined.

Lemma elem_action_sets_body_witness :
  match last [root] with
  | None =>
      __lilx_elem_action (stack (start ""), root_heap) "text" "s<a"
      = Ret (1, (stack (start ""), root_heap))
  | Some element =>
      forall e, load root_heap element = Some (OElem e) ->
        __lilx_elem_action (stack (start ""), root_heap) "text" "s<a"
        = Ret (0, (stack (start ""),
                   store root_heap element
                     (OElem (with_body e (strcpy "text")))))
  end.
Proof.
  apply (elem_action_sets_body (stack (start "")) root_heap [root]).
  exact holds_start.
Defined.

(** ** Tree queries *)

Lemma find_attribute_first h attrs name :
  Forall (is_attribute h) attrs ->
  find_attribute h attrs name (strlen name)
  = Ret (default NULL (List.find (starts_with h name) attrs)).
Proof.
  induction attrs as [|p attrs IH]; intros Hattrs; [done|].
  apply Forall_cons in Hattrs as [[a Ha] Hattrs].
  cbn [find_attribute List.find]. unfold load_attribute, starts_with.
  rewrite Ha. cbn [mbind res_bind]. rewrite strncmp_prefix.
  destruct (String.prefix (cstr name) (cstr (a_name a))); [done|].
  by apply IH.
Qed.

(** X19: for a name of fewer than 256 characters, the attribute lookup
    returns the first attribute of the element whose name starts with the
    given name, and NULL when there is none. *)
Theorem get_attribute_first_match h element e name :
  load h element = Some (OElem e) ->
  num_attributes e = Z.of_nat (length (attributes e)) ->
  Forall (is_attribute h) (attributes e) ->
  (strlen name < 256)%nat ->
  lilx_get_attribute_by_name h element name
  = Ret (default NULL (List.find (starts_with h name) (attributes e))).
Proof.
  intros He Hn Hattrs Hlen. unfold lilx_get_attribute_by_name, load_element.
  rewrite He. cbn [mbind res_bind].
  rewrite Hn, Nat2Z.id, firstn_all, uint8_small, Nat2Z.id by lia.
  by apply find_attribute_first.
Qed.

Lemma get_attribute_first_match_witness :
  lilx_get_attribute_by_name keys_heap 1%nat "id"
  = Ret (default NULL
           (List.find (starts_with keys_heap "id") (attributes keys_element))).
Proof.
  apply (get_attribute_first_match keys_heap 1%nat keys_element "id").
  - reflexivity.
  - reflexivity.
  - repeat constructor; by eexists.
  - change (strlen "id") with 2%nat. lia.
Defined.

(** ** The searches by element name *)

Section Queries.

Implicit Types (h : heap) (p : ptr) (name : string).

Lemma strcmp_eq (a : string) :
  forall b, (strcmp a b =? 0) = bool_decide (cstr a = cstr b).
Proof.
  induction a as [|c a IH]; intros b.
  - cbn [strcmp cstr]. change (code NUL) with 0.
    destruct b as [|d b]; cbn [peek cstr]; [done|].
    unfold is_nul. destruct (code d =? 0) eqn:E.
    + rewrite bool_decide_true by done. lia.
    + rewrite bool_decide_false by done. lia.
  - cbn [strcmp cstr]. destruct b as [|d b]; cbn [peek tail cstr].
    + change (code NUL) with 0. unfold is_nul.
      destruct (code c =? 0) eqn:E; cbn [negb].
      * by rewrite bool_decide_true.
      * rewrite bool_decide_false by done. lia.
    + rewrite code_eqb. destruct (decide (c = d)) as [->|Hne].
      * rewrite bool_decide_true by done. cbn [negb].
        destruct (is_nul d); [by rewrite bool_decide_true|].
        rewrite IH. apply bool_decide_ext. split; [by intros ->|].
        by intros [=].
      * rewrite bool_decide_false by done. cbn [negb].
        assert (code c - code d <> 0).
        { intros H. apply Hne, code_inj. lia. }
        destruct (is_nul c) eqn:Hc, (is_nul d) eqn:Hd.
        -- unfold is_nul in *. lia.
        -- rewrite bool_decide_false by done. lia.
        -- rewrite bool_decide_false by done. lia.
        -- rewrite bool_decide_false by congruence. lia.
Qed.

Lemma named_element h name p e :
  load h p = Some (OElem e) ->
  (strcmp (e_name e) name =? 0) = named h name p.
Proof. intros He. unfold named. rewrite He. apply strcmp_eq. Qed.

Lemma count_children_spec (rec : ptr -> option (res Z))
    (sub : ptr -> option (list ptr)) h name :
  (forall c l, sub c = Some l ->
     rec c = Some (Ret (uint8 (Z.of_nat
                                 (length (List.filter (named h name) l)))))) ->
  forall cs ls count,
    subtrees sub cs = Some ls -> 0 <= count < 256 ->
    count_children rec cs count
    = Some (Ret (uint8 (count
                        + Z.of_nat (length (List.filter (named h name) ls))))).
Proof.
  intros Hrec. induction cs as [|c cs IH]; intros ls count Hls Hcount.
  - injection Hls as <-. cbn. rewrite Z.add_0_r. by rewrite uint8_small.
  - cbn [subtrees] in Hls. destruct (sub c) as [l|] eqn:Hl; [|done].
    cbn in Hls. destruct (subtrees sub cs) as [ls'|] eqn:Hls'; [|done].
    cbn in Hls. injection Hls as <-.
    cbn [count_children]. rewrite (Hrec c l Hl).
    rewrite (IH ls') by (done || uint8_solve).
    rewrite List.filter_app, length_app. do 2 f_equal. uint8_solve.
Qed.

Lemma count_elements_spec name h depth :
  forall p l,
    subtree depth h p = Some l ->
    lilx_count_elements_by_name depth h p name
    = Some (Ret (uint8 (Z.of_nat (length (List.filter (named h name) l))))).
Proof.
  induction depth as [|depth IH]; intros p l; [done|].
  cbn [subtree lilx_count_elements_by_name]. unfold load_element.
  destruct (load h p) as [[e|a| |]|] eqn:He; [|done..].
  destruct (num_children e <=? Z.of_nat (length (children e))); [|done].
  destruct (subtrees (subtree depth h) _) as [ls|] eqn:Hls; [|done].
  cbn. intros [= <-].
  rewrite (count_children_spec _ (subtree depth h) h name IH _ ls _ Hls).
  - cbn [List.filter]. rewrite <- (named_element h name p e He).
    destruct (strcmp (e_name e) name =? 0); cbn [length];
      f_equal; f_equal; change (uint8 (0 + 1)) with 1; uint8_solve.
  - destruct (strcmp (e_name e) name =? 0); [|lia].
    change (uint8 (0 + 1)) with 1. lia.
Qed.

Lemma take_filter_app {A} (n : nat) (l1 l2 : list A) :
  take n (l1 ++ l2) = take n l1 ++ take (n - length (take n l1)) l2.
Proof.
  rewrite take_app, length_take. f_equal.
  destruct (decide (n <= length l1)%nat).
  - replace (n - length l1)%nat with 0%nat by lia.
    by replace (n - n `min` length l1)%nat with 0%nat by lia.
  - f_equal. lia.
Qed.

Lemma get_children_spec (rec : ptr -> Z -> option (res (Z * list ptr)))
    (sub : ptr -> option (list ptr)) h name :
  (forall c l len, sub c = Some l -> 0 <= len <= 255 ->
     rec c len
     = Some (Ret (Z.of_nat (length (take (Z.to_nat len)
                                      (List.filter (named h name) l))),
                  take (Z.to_nat len) (List.filter (named h name) l)))) ->
  forall cs ls len found out,
    subtrees sub cs = Some ls -> 0 <= len -> 0 <= found ->
    found + len <= 255 ->
    get_children rec cs len found out
    = Some (Ret (found
                 + Z.of_nat (length (take (Z.to_nat len)
                                       (List.filter (named h name) ls))),
                 out ++ take (Z.to_nat len) (List.filter (named h name) ls))).
Proof.
  intros Hrec. induction cs as [|c cs IH];
    intros ls len found out Hls Hl Hf Hsum.
  - injection Hls as <-. cbn. rewrite take_nil. cbn.
    by rewrite Z.add_0_r, app_nil_r.
  - cbn [subtrees] in Hls. destruct (sub c) as [l|] eqn:Hl'; [|done].
    cbn in Hls. destruct (subtrees sub cs) as [ls'|] eqn:Hls'; [|done].
    cbn in Hls. injection Hls as <-.
    cbn [get_children]. rewrite (Hrec c l len Hl') by lia.
    set (w := take (Z.to_nat len) (List.filter (named h name) l)).
    assert (Hw : (length w <= Z.to_nat len)%nat).
    { unfold w. rewrite length_take. lia. }
    rewrite !uint8_small by lia.
    rewrite (IH ls') by (done || lia).
    rewrite List.filter_app, take_filter_app. fold w.
    replace (Z.to_nat (len - Z.of_nat (length w)))
      with (Z.to_nat len - length w)%nat by lia.
    rewrite length_app, <- app_assoc. do 3 f_equal. lia.
Qed.

Lemma get_elements_spec name h depth :
  forall p l len,
    subtree depth h p = Some l -> 0 <= len <= 255 ->
    lilx_get_elements_by_name depth h p name len
    = Some (Ret (Z.of_nat (length (take (Z.to_nat len)
                                     (List.filter (named h name) l))),
                 take (Z.to_nat len) (List.filter (named h name) l))).
Proof.
  induction depth as [|depth IH]; intros p l len; [done|].
  intros Hsub Hlen. cbn [lilx_get_elements_by_name].
  destruct (len =? 0) eqn:Hz.
  { assert (len = 0) as -> by lia. done. }
  cbn [subtree] in Hsub. unfold load_element.
  destruct (load h p) as [[e|a| |]|] eqn:He; [|done..].
  destruct (num_children e <=? Z.of_nat (length (children e))); [|done].
  destruct (subtrees (subtree depth h) _) as [ls|] eqn:Hls; [|done].
  cbn in Hsub. injection Hsub as <-.
  cbn [List.filter]. rewrite <- (named_element h name p e He).
  destruct (strcmp (e_name e) name =? 0).
  - change (uint8 (0 + 1)) with 1. rewrite uint8_small by lia.
    rewrite (get_children_spec _ (subtree depth h) h name IH _ ls)
      by (done || lia).
    replace (Z.to_nat len) with (S (Z.to_nat (len - 1))) by lia.
    cbn [take length app]. do 3 f_equal. lia.
  - rewrite (get_children_spec _ (subtree depth h) h name IH _ ls)
      by (done || lia).
    done.
Qed.

End Queries.

(** X20: on a tree of elements, each with as many children as it counts,
    the count of the elements of a name is the number of elements of the
    subtree whose name is that name, in 8 bits. *)
Theorem count_elements_counts depth h p name l :
  subtree depth h p = Some l ->
  lilx_count_elements_by_name depth h p name
  = Some (Ret (uint8 (Z.of_nat (length (List.filter (named h name) l))))).
Proof. exact (count_elements_spec name h depth p l). Qed.

(** X21: on a tree of elements, each with as many children as it counts,
    and for an array of up to 255 entries, the collection of the elements
    of a name stores the elements of the subtree whose name is that name,
    in depth-first pre-order, until the array is full, and returns the
    number of elements stored. *)
Theorem get_elements_collects depth h p name l len :
  subtree depth h p = Some l -> 0 <= len <= 255 ->
  lilx_get_elements_by_name depth h p name len
  = Some (Ret (Z.of_nat (length (take (Z.to_nat len)
                                   (List.filter (named h name) l))),
               take (Z.to_nat len) (List.filter (named h name) l))).
Proof. exact (get_elements_spec name h depth p l len). Qed.

Lemma count_elements_counts_witness :
  lilx_count_elements_by_name 3 family_heap root "b" = Some (Ret 2).
Proof.
  apply (count_elements_counts 3 family_heap root "b" [1; 2; 3; 4]%nat).
  vm_compute. reflexivity.
Defined.

Lemma get_elements_collects_witness :
  lilx_get_elements_by_name 3 family_heap root "b" 1 = Some (Ret (1, [3%nat])).
Proof.
  apply (get_elements_collects 3 family_heap root "b" [1; 2; 3; 4]%nat 1).
  - vm_compute. reflexivity.
  - lia.
Defined.

(** ** The parsed tree *)

Section Trees.

Implicit Types (s : stack_t) (h : heap) (fs : list ptr) (p : ptr).
Implicit Types (tkn transition : string) (e : element_t).

#[local] Arguments stack_push : simpl never.
#[local] Arguments stack_pop : simpl never.
#[local] Arguments stack_peek : simpl never.
#[local] Arguments strstr : simpl never.
#[local] Arguments strncmp : simpl never.
#[local] Arguments store : simpl never.
#[local] Arguments load : simpl never.
#[local] Arguments free : simpl never.
#[local] Arguments free_value : simpl never.
#[local] Arguments frames_ok : simpl never.

Lemma load_malloc_inv h o p x :
  load (h ++ [o]) p = Some x ->
  load h p = Some x \/ (p = S (length h) /\ x = o).
Proof.
  destruct p as [|i]; [done|]. unfold load.
  intros [H|[Hi H]]%lookup_app_Some; [by left|right].
  apply list_lookup_singleton_Some in H as [Hz <-]. split; [|done].
  f_equal. lia.
Qed.

Lemma is_element_malloc h o p : is_element h p -> is_element (h ++ [o]) p.
Proof. intros [e He]. exists e. by apply load_malloc_old. Qed.

Lemma is_element_store h q e e' p :
  load h q = Some (OElem e) -> is_element h p ->
  is_element (store h q (OElem e')) p.
Proof.
  intros Hq [x Hx]. destruct (decide (q = p)) as [->|Hne].
  - exists e'. by eapply load_store.
  - exists x. by rewrite load_store_other.
Qed.

Lemma is_element_store_attr h q a a' p :
  load h q = Some (OAttr a) -> is_element h p ->
  is_element (store h q (OAttr a')) p.
Proof.
  intros Hq [x Hx]. destruct (decide (q = p)) as [->|Hne]; [congruence|].
  exists x. by rewrite load_store_other.
Qed.

Lemma tree_ok_malloc_element h name :
  tree_ok h -> tree_ok (h ++ [OElem (new_element name)]).
Proof.
  intros Hh p e [He|[_ Heq]]%load_malloc_inv.
  - destruct (Hh p e He) as [Hn Hcs]. split; [done|].
    eapply Forall_impl; [exact Hcs|]. intros c [Hlt Hc]. split; [done|].
    by apply is_element_malloc.
  - injection Heq as ->. split; [done|constructor].
Qed.

Lemma tree_ok_malloc_attribute h a :
  tree_ok h -> tree_ok (h ++ [OAttr a]).
Proof.
  intros Hh p e [He|[_ [=]]]%load_malloc_inv.
  destruct (Hh p e He) as [Hn Hcs]. split; [done|].
  eapply Forall_impl; [exact Hcs|]. intros c [Hlt Hc]. split; [done|].
  by apply is_element_malloc.
Qed.

Lemma tree_ok_store h q e e' :
  tree_ok h -> load h q = Some (OElem e) ->
  0 <= num_children e' <= Z.of_nat (length (children e')) ->
  Forall (fun c => (q < c)%nat /\ is_element h c) (children e') ->
  tree_ok (store h q (OElem e')).
Proof.
  intros Hh Hq Hn' He' p x Hp. destruct (decide (q = p)) as [<-|Hne].
  - erewrite load_store in Hp by done. injection Hp as <-. split; [done|].
    eapply Forall_impl; [exact He'|]. intros c [Hlt Hc]. split; [done|].
    by eapply is_element_store.
  - rewrite load_store_other in Hp by done.
    destruct (Hh p x Hp) as [Hn Hcs]. split; [done|].
    eapply Forall_impl; [exact Hcs|]. intros c [Hlt Hc]. split; [done|].
    by eapply is_element_store.
Qed.

Lemma tree_ok_store_attr h q a a' :
  tree_ok h -> load h q = Some (OAttr a) -> tree_ok (store h q (OAttr a')).
Proof.
  intros Hh Hq p x Hp. destruct (decide (q = p)) as [<-|Hne].
  - erewrite load_store in Hp by done. done.
  - rewrite load_store_other in Hp by done.
    destruct (Hh p x Hp) as [Hn Hcs]. split; [done|].
    eapply Forall_impl; [exact Hcs|]. intros c [Hlt Hc]. split; [done|].
    by eapply is_element_store_attr.
Qed.

Lemma add_child_tree_ok h parent child e rc h' :
  tree_ok h -> load h parent = Some (OElem e) -> is_element h child ->
  (parent < child)%nat ->
  __lilx_add_child h parent child = Ret (rc, h') -> tree_ok h'.
Proof.
  intros Hh He Hc Hlt. unfold __lilx_add_child, load_element. rewrite He.
  cbn [mbind res_bind]. intros [= _ <-].
  destruct (Hh parent e He) as [Hn Hcs].
  eapply tree_ok_store; [done..| |]; cbn [children num_children].
  - rewrite length_app, length_take. cbn [length]. uint8_solve.
  - apply Forall_app. split; [by apply Forall_take|].
    by apply Forall_singleton.
Qed.

Lemma add_attr_tree_ok h element attr e rc h' :
  tree_ok h -> load h element = Some (OElem e) ->
  __lilx_add_attr h element attr = Ret (rc, h') -> tree_ok h'.
Proof.
  intros Hh He. unfold __lilx_add_attr, load_element. rewrite He.
  cbn [mbind res_bind]. intros [= _ <-].
  destruct (Hh element e He) as [Hn Hcs]. by eapply tree_ok_store.
Qed.

Lemma elem_name_start_action_tree s h fs tkn transition s' h' :
  holds s fs -> Forall (is_element h) fs -> tree_ok h ->
  __lilx_elem_name_start_action (s, h) tkn transition = Ret (0, (s', h')) ->
  tree_ok h'.
Proof.
  intros Hs Hfs Hh. unfold __lilx_elem_name_start_action. cbn [malloc].
  pose proof (tree_ok_malloc_element h (strcpy tkn) Hh) as Hh1.
  set (h1 := h ++ [OElem (new_element (strcpy tkn))]) in *.
  assert (Hout : forall h2, tree_ok h2 ->
    (if strstr transition "/>" then Ret (0, (s, h2))
     else '(rc1, stack) ← stack_push s (S (length h));
          if negb (rc1 =? 0) then h0 ← free h2 (S (length h));
                                  Ret (1, (stack, h0))
          else Ret (0, (stack, h2))) = Ret (0, (s', h')) -> tree_ok h').
  { intros h2 Hh2. destruct (strstr transition "/>"); [by intros [= _ <-]|].
    destruct (stack_push s (S (length h))) as [[rc1 s1]|f]; [|done]. cbn.
    destruct (negb (rc1 =? 0)); [by destruct (free _ _)|].
    by intros [= _ <-]. }
  destruct fs as [|parent fs _] using rev_ind.
  - rewrite stack_peek_empty by done. cbn [mbind res_bind Nat.eqb NULL].
    cbn [Z.eqb negb]. by apply Hout.
  - rewrite (stack_peek_top s fs parent) by done. cbn [mbind res_bind].
    destruct (top_element _ _ _ Hfs) as (e & He & ->).
    destruct (load_valid _ _ _ He) as [_ Hle].
    destruct (__lilx_add_child h1 parent (S (length h))) as [[rc0 h2]|f]
      eqn:E; [|done].
    eapply add_child_tree_ok in E; [|done|by apply load_malloc_old| |lia].
    + cbn [mbind res_bind].
      destruct (negb (rc0 =? 0)); [by destruct (free _ _)|]. by apply Hout.
    + eexists. apply load_malloc.
Qed.

Lemma attr_name_action_tree s h fs tkn transition s' h' :
  holds s fs -> Forall (is_element h) fs -> tree_ok h ->
  __lilx_attr_name_action (s, h) tkn transition = Ret (0, (s', h')) ->
  tree_ok h'.
Proof.
  intros Hs Hfs Hh. unfold __lilx_attr_name_action. cbn [malloc].
  pose proof (tree_ok_malloc_attribute h (new_attribute (strcpy tkn)) Hh)
    as Hh1.
  set (h1 := h ++ [OAttr (new_attribute (strcpy tkn))]) in *.
  destruct fs as [|element fs _] using rev_ind.
  - rewrite stack_peek_empty by done. cbn [mbind res_bind Nat.eqb NULL].
    by destruct (free _ _).
  - rewrite (stack_peek_top s fs element) by done. cbn [mbind res_bind].
    destruct (top_element _ _ _ Hfs) as (e & He & ->).
    destruct (__lilx_add_attr h1 element (S (length h))) as [[rc0 h2]|f]
      eqn:E; [|done].
    eapply add_attr_tree_ok in E; [|done|by apply load_malloc_old].
    cbn [mbind res_bind].
    destruct (negb (rc0 =? 0)); [by destruct (free _ _)|].
    destruct (stack_push s (S (length h))) as [[rc1 s1]|f]; [|done]. cbn.
    destruct (negb (rc1 =? 0)); [by destruct (free _ _)|].
    by intros [= _ <-].
Qed.

Lemma attr_val_action_tree s h fs tkn transition s' h' :
  holds s fs -> frames_ok ATTR_VAL h fs -> tree_ok h ->
  __lilx_attr_val_action (s, h) tkn transition = Ret (0, (s', h')) ->
  tree_ok h'.
Proof.
  intros Hs (below & attr & -> & (a & Ha & Hval) & Hbelow) Hh.
  unfold __lilx_attr_val_action.
  rewrite (stack_peek_top s below attr) by done. cbn [mbind res_bind].
  destruct (load_valid _ _ _ Ha) as [Hnn Hle].
  rewrite not_null_eqb by done. unfold load_attribute. rewrite Ha.
  cbn [mbind res_bind]. rewrite Hval.
  rewrite bool_decide_false by (intros Hc; by apply Hc).
  pose proof (tree_ok_store_attr h attr a
                {| a_name := a_name a; a_value := Some (strcpy tkn) |}
                Hh Ha) as Hh1.
  destruct (stack_pop s) as [[popped s1]|f]; [|done]. cbn [mbind res_bind].
  destruct (negb (popped =? attr)%nat); [by destruct (free_value _ _)|].
  destruct (strstr transition "/>"); [|by intros [= _ <-]].
  destruct (stack_pop s1) as [[popped2 s2]|f]; [|done]. cbn [mbind res_bind].
  destruct (popped2 =? NULL)%nat; [by destruct (free_value _ _)|].
  by intros [= _ <-].
Qed.

Lemma actions_tree st s h fs tkn transition s' h' :
  holds s fs -> frames_ok st h fs -> tree_ok h ->
  __lilx_actions st (s, h) tkn transition = Ret (0, (s', h')) ->
  tree_ok h'.
Proof.
  intros Hs Hfs Hh. destruct st; cbn [__lilx_actions].
  - by eapply elem_name_start_action_tree.
  - unfold __lilx_elem_name_end_action.
    destruct (stack_peek s) as [element|f]; [|done]. cbn [mbind res_bind].
    destruct (element =? NULL)%nat; [done|].
    destruct (load_element h element) as [e|f]; [|done].
    cbn [mbind res_bind].
    destruct (negb (strncmp (e_name e) tkn (strlen tkn) =? 0)); [done|].
    destruct (stack_pop s) as [[popped s1]|f]; [|done]. cbn [mbind res_bind].
    destruct (negb (popped =? element)%nat); [done|]. by intros [= _ <-].
  - by eapply attr_name_action_tree.
  - by eapply attr_val_action_tree.
  - unfold __lilx_elem_action.
    destruct (stack_peek s) as [element|f]; [|done]. cbn [mbind res_bind].
    destruct (element =? NULL)%nat; [done|].
    unfold load_element.
    destruct (load h element) as [[e|a| |]|] eqn:He; [|done..].
    cbn [mbind res_bind]. intros [= _ <-].
    destruct (Hh element e He) as [Hn Hcs]. by eapply tree_ok_store.
  - by intros [= _ <-].
  - by intros [= _ <-].
Qed.

Lemma step_tree (c c' : config) fs :
  holds (stack c) fs -> frames_ok (cur_state c) (mem c) fs ->
  tree_ok (mem c) -> step c = Continue c' -> tree_ok (mem c').
Proof.
  intros Hs Hfs Hh. unfold step.
  destruct (__lilx_get_next_state (cur_state c) (xml c))
    as [[[[st' offset] tran]|]|f]; [| |done].
  - destruct (tknidx c <? LILX_MAX_TOKEN_LENGTH); [|done].
    destruct (__lilx_actions (cur_state c) (stack c, mem c) (token c) tran)
      as [[rc [s' h']]|f] eqn:Hact; [|done].
    destruct (negb (rc =? 0)) eqn:Hrc; [done|].
    assert (rc = 0) as -> by lia.
    destruct (advance (Z.to_nat offset) (xml c)); [|done].
    intros [= <-]. cbn [mem]. by eapply actions_tree.
  - destruct (tknidx c =? LILX_MAX_TOKEN_LENGTH); [done|].
    destruct (tknidx c <? LILX_MAX_TOKEN_LENGTH); [|done].
    by intros [= <-].
Qed.

Lemma steps_tree n :
  forall c c' : config, inv c -> tree_ok (mem c) -> steps n c = Some c' ->
               tree_ok (mem c').
Proof.
  induction n as [|n IH]; intros c c' Hinv Hh; cbn [steps].
  - by intros [= <-].
  - destruct (loop_test c); [|done].
    destruct (step c) as [c1| |] eqn:Hstep; [|done|done].
    apply IH; [by eapply step_inv|].
    destruct Hinv as (fs & Hs & Hfs & _). by eapply step_tree.
Qed.

Lemma tree_ok_root_heap : tree_ok root_heap.
Proof.
  intros p e Hp. destruct p as [|[|p]]; [done| |done].
  injection Hp as <-. split; [done|constructor].
Qed.

Lemma reachable_tree input (c : config) : reachable input c -> tree_ok (mem c).
Proof.
  intros [n Hn]. eapply steps_tree; [apply inv_start| |done].
  apply tree_ok_root_heap.
Qed.

Lemma subtrees_total h (sub : ptr -> option (list ptr)) (cs : list ptr) :
  Forall (fun c => exists l, sub c = Some l) cs ->
  exists ls, subtrees sub cs = Some ls.
Proof.
  induction cs as [|c cs IH]; intros Hcs; [by eexists|].
  apply Forall_cons in Hcs as [[l Hl] Hcs].
  destruct (IH Hcs) as [ls Hls]. exists (l ++ ls).
  cbn [subtrees]. rewrite Hl. cbn. by rewrite Hls.
Qed.

Lemma subtree_total h depth :
  tree_ok h ->
  forall p, is_element h p -> (length h - p < depth)%nat ->
            exists l, subtree depth h p = Some (p :: l).
Proof.
  intros Hh. induction depth as [|depth IH]; intros p [e He] Hd; [lia|].
  cbn [subtree]. rewrite He. destruct (Hh p e He) as [Hn Hcs].
  replace (num_children e <=? Z.of_nat (length (children e))) with true
    by lia.
  destruct (subtrees_total h (subtree depth h)
              (take (Z.to_nat (num_children e)) (children e))) as [ls Hls].
  - apply Forall_take. eapply Forall_impl; [exact Hcs|].
    intros c [Hlt Hc]. cbn beta.
    destruct (IH c Hc) as [l Hl]; [|by eexists].
    destruct Hc as [ec Hec]. destruct (load_valid _ _ _ Hec). lia.
  - exists ls. by rewrite Hls.
Qed.

End Trees.

(** X22: in every configuration that the loop reaches, the elements under
    the root form a tree no deeper than the heap has objects, so that the
    two searches by element name return on it: the count of the elements
    of a name, and their collection into an array of up to 255 entries. *)
Theorem parsed_tree_searchable input c name :
  reachable input c ->
  exists l,
    subtree (S (length (mem c))) (mem c) root = Some (root :: l)
    /\ lilx_count_elements_by_name (S (length (mem c))) (mem c) root name
       = Some (Ret (uint8 (Z.of_nat
            (length (List.filter (named (mem c) name) (root :: l))))))
    /\ forall len, 0 <= len <= 255 ->
         lilx_get_elements_by_name (S (length (mem c))) (mem c) root name len
         = Some (Ret (Z.of_nat (length (take (Z.to_nat len)
                    (List.filter (named (mem c) name) (root :: l)))),
                  take (Z.to_nat len)
                    (List.filter (named (mem c) name) (root :: l)))).
Proof.
  intros Hc. pose proof (reachable_tree _ _ Hc) as Hh.
  destruct (reachable_inv _ _ Hc) as (_ & _ & _ & _ & (e & He & _)).
  destruct (subtree_total (mem c) (S (length (mem c))) Hh root) as [l Hl].
  - by exists e.
  - lia.
  - exists l. split; [done|]. split; [by apply count_elements_spec|].
    intros len Hlen. by apply get_elements_spec.
Qed.

Lemma parsed_tree_searchable_witness :
  exists l,
    subtree (S (length (mem (after 10 reopened_input))))
      (mem (after 10 reopened_input)) root = Some (root :: l)
    /\ lilx_count_elements_by_name
         (S (length (mem (after 10 reopened_input))))
         (mem (after 10 reopened_input)) root "a"
       = Some (Ret (uint8 (Z.of_nat
            (length (List.filter (named (mem (after 10 reopened_input)) "a")
                       (root :: l))))))
    /\ forall len, 0 <= len <= 255 ->
         lilx_get_elements_by_name
           (S (length (mem (after 10 reopened_input))))
           (mem (after 10 reopened_input)) root "a" len
         = Some (Ret (Z.of_nat (length (take (Z.to_nat len)
                    (List.filter (named (mem (after 10 reopened_input)) "a")
                       (root :: l)))),
                  take (Z.to_nat len)
                    (List.filter (named (mem (after 10 reopened_input)) "a")
                       (root :: l)))).
Proof.
  apply (parsed_tree_searchable reopened_input (after 10 reopened_input) "a").
  exists 10%nat. vm_compute. reflexivity.
Defined.

(** ** The root and the closing tags *)

Section Root.

Implicit Types (s : stack_t) (h : heap) (fs : list ptr) (p : ptr).
Implicit Types (tkn transition : string) (st : state).

#[local] Arguments stack_push : simpl never.
#[local] Arguments stack_pop : simpl never.
#[local] Arguments stack_peek : simpl never.
#[local] Arguments strstr : simpl never.
#[local] Arguments strncmp : simpl never.
#[local] Arguments store : simpl never.
#[local] Arguments load : simpl never.
#[local] Arguments free : simpl never.
#[local] Arguments free_value : simpl never.
#[local] Arguments frames_ok : simpl never.

Lemma elem_name_start_action_effect s h fs tkn transition s' h' :
  holds s fs -> Forall (is_element h) fs ->
  __lilx_elem_name_start_action (s, h) tkn transition = Ret (0, (s', h')) ->
  exists fs', holds s' fs' /\ effect ELEM_NAME_START h tkn transition fs fs'.
Proof.
  intros Hs Hfs. unfold __lilx_elem_name_start_action, effect. cbn [malloc].
  destruct fs as [|parent fs _] using rev_ind.
  - rewrite stack_peek_empty by done. cbn [mbind res_bind Nat.eqb NULL].
    cbn [Z.eqb negb].
    destruct (strstr transition "/>"); [intros [= <- _]; by exists []|].
    by rewrite stack_push_emptied.
  - rewrite (stack_peek_top s fs parent) by done. cbn [mbind res_bind].
    destruct (top_element _ _ _ Hfs) as (e & He & ->).
    destruct (add_child_element
                (h ++ [OElem (new_element (strcpy tkn))]) parent
                (S (length h)) e) as (h2 & E & _).
    { by apply load_malloc_old. }
    rewrite E. cbn [mbind res_bind Z.eqb negb].
    destruct (strstr transition "/>");
      [intros [= <- _]; by exists (fs ++ [parent])|].
    destruct (decide (length (fs ++ [parent]) < 100)%nat) as [Hlt|Hge].
    + destruct (stack_push_top s (fs ++ [parent]) (S (length h)))
        as (s1 & E' & Hs'); [done|by destruct fs|done|done|].
      rewrite E'. cbn [mbind res_bind Z.eqb negb]. intros [= <- _].
      exists ((fs ++ [parent]) ++ [S (length h)]).
      split; [done|]. split; [by destruct fs|done].
    + rewrite (stack_push_full s (fs ++ [parent])); [|done| |done].
      * cbn [mbind res_bind Z.eqb negb]. by destruct (free _ _).
      * pose proof (holds_size _ _ Hs). lia.
Qed.

Lemma elem_name_end_action_effect s h fs tkn transition s' h' :
  holds s fs -> Forall (is_element h) fs ->
  __lilx_elem_name_end_action (s, h) tkn transition = Ret (0, (s', h')) ->
  exists fs', holds s' fs' /\ effect ELEM_NAME_END h tkn transition fs fs'.
Proof.
  intros Hs Hfs. unfold __lilx_elem_name_end_action, effect.
  destruct fs as [|element fs _] using rev_ind.
  - by rewrite stack_peek_empty.
  - rewrite (stack_peek_top s fs element) by done. cbn [mbind res_bind].
    destruct (top_element _ _ _ Hfs) as (e & He & ->).
    unfold load_element. rewrite He. cbn [mbind res_bind].
    rewrite strncmp_prefix.
    destruct (String.prefix (cstr tkn) (cstr (e_name e))) eqn:Hpre; [|done].
    destruct (stack_pop_top s fs element Hs) as (s1 & E & Hs').
    rewrite E. cbn [mbind res_bind negb]. rewrite Nat.eqb_refl.
    intros [= <- _]. exists fs. split; [done|]. by exists element, e.
Qed.

Lemma attr_name_action_effect s h fs tkn transition s' h' :
  holds s fs -> Forall (is_element h) fs ->
  __lilx_attr_name_action (s, h) tkn transition = Ret (0, (s', h')) ->
  exists fs', holds s' fs' /\ effect ATTR_NAME h tkn transition fs fs'.
Proof.
  intros Hs Hfs. unfold __lilx_attr_name_action, effect. cbn [malloc].
  destruct fs as [|element fs _] using rev_ind.
  - rewrite stack_peek_empty by done. cbn [mbind res_bind Nat.eqb NULL].
    by destruct (free _ _).
  - rewrite (stack_peek_top s fs element) by done. cbn [mbind res_bind].
    destruct (top_element _ _ _ Hfs) as (e & He & ->).
    destruct (add_attr_element
                (h ++ [OAttr (new_attribute (strcpy tkn))]) element
                (S (length h)) e) as (h2 & E & _).
    { by apply load_malloc_old. }
    rewrite E. cbn [mbind res_bind Z.eqb negb].
    destruct (decide (length (fs ++ [element]) < 100)%nat) as [Hlt|Hge].
    + destruct (stack_push_top s (fs ++ [element]) (S (length h)))
        as (s1 & E' & Hs'); [done|by destruct fs|done|done|].
      rewrite E'. cbn [mbind res_bind Z.eqb negb]. intros [= <- _].
      exists ((fs ++ [element]) ++ [S (length h)]).
      split; [done|]. split; [by destruct fs|done].
    + rewrite (stack_push_full s (fs ++ [element])); [|done| |done].
      * cbn [mbind res_bind Z.eqb negb]. by destruct (free _ _).
      * pose proof (holds_size _ _ Hs). lia.
Qed.

Lemma attr_val_action_effect s h fs tkn transition s' h' :
  holds s fs -> frames_ok ATTR_VAL h fs ->
  __lilx_attr_val_action (s, h) tkn transition = Ret (0, (s', h')) ->
  exists fs', holds s' fs' /\ effect ATTR_VAL h tkn transition fs fs'.
Proof.
  intros Hs (below & attr & -> & (a & Ha & Hval) & Hbelow).
  unfold __lilx_attr_val_action, effect.
  rewrite (stack_peek_top s below attr) by done. cbn [mbind res_bind].
  destruct (load_valid _ _ _ Ha) as [Hnn Hle].
  rewrite not_null_eqb by done. unfold load_attribute. rewrite Ha.
  cbn [mbind res_bind]. rewrite Hval.
  rewrite bool_decide_false by (intros Hc; by apply Hc).
  destruct (stack_pop_top s below attr Hs) as (s1 & E & Hs1).
  rewrite E. cbn [mbind res_bind]. rewrite Nat.eqb_refl. cbn [negb].
  destruct (strstr transition "/>").
  - destruct below as [|element below _] using rev_ind.
    + rewrite stack_pop_empty by done. cbn [mbind res_bind Nat.eqb NULL].
      by destruct (free_value _ _).
    + destruct (stack_pop_top s1 below element Hs1) as (s2 & E2 & Hs2).
      rewrite E2. cbn [mbind res_bind].
      destruct (top_element _ _ _ Hbelow) as (e & He & ->).
      intros [= <- _]. exists below. split; [done|].
      exists element, attr. by rewrite <- app_assoc.
  - intros [= <- _]. exists below. split; [done|]. by exists attr.
Qed.

Lemma elem_action_effect s h fs tkn transition s' h' :
  holds s fs -> Forall (is_element h) fs ->
  __lilx_elem_action (s, h) tkn transition = Ret (0, (s', h')) ->
  exists fs', holds s' fs' /\ effect ELEM h tkn transition fs fs'.
Proof.
  intros Hs Hfs. unfold __lilx_elem_action, effect.
  destruct fs as [|element fs _] using rev_ind.
  - by rewrite stack_peek_empty.
  - rewrite (stack_peek_top s fs element) by done. cbn [mbind res_bind].
    destruct (top_element _ _ _ Hfs) as (e & He & ->).
    unfold load_element. rewrite He. cbn [mbind res_bind].
    intros [= <- _]. exists (fs ++ [element]).
    split; [done|]. split; [by destruct fs|done].
Qed.

Lemma actions_effect st s h fs tkn transition s' h' :
  holds s fs -> frames_ok st h fs ->
  __lilx_actions st (s, h) tkn transition = Ret (0, (s', h')) ->
  exists fs', holds s' fs' /\ effect st h tkn transition fs fs'.
Proof.
  intros Hs Hfs. destruct st; cbn [__lilx_actions].
  - by apply elem_name_start_action_effect.
  - by apply elem_name_end_action_effect.
  - by apply attr_name_action_effect.
  - by apply attr_val_action_effect.
  - by apply elem_action_effect.
  - intros [= <- _]. by exists fs.
  - intros [= <- _]. by exists fs.
Qed.

#[local] Arguments effect : simpl never.
#[local] Arguments __lilx_get_next_state : simpl never.

(** ATTR_NAME is entered by a pattern without "/>", from ELEM_NAME_START
    or from ATTR_VAL. *)
Lemma candidates_attr_name st tran :
  (ATTR_NAME, tran) ∈ candidates st ->
  strstr tran "/>" = false /\ (st = ELEM_NAME_START \/ st = ATTR_VAL).
Proof.
  intros Hin.
  assert (H : forallb (fun c : state * string =>
                bool_decide (c.1 = ATTR_NAME ->
                             strstr c.2 "/>" = false
                             /\ (st = ELEM_NAME_START \/ st = ATTR_VAL)))
                (candidates st) = true)
    by (destruct st; vm_compute; reflexivity).
  rewrite forallb_forall in H. apply list_elem_of_In in Hin.
  specialize (H _ Hin). apply bool_decide_eq_true in H. by apply H.
Qed.

(** What one run of the loop body does to the frames. *)
Lemma step_effect (c c' : config) fs :
  holds (stack c) fs -> frames_ok (cur_state c) (mem c) fs ->
  step c = Continue c' ->
  (exists offset tran fs',
      __lilx_get_next_state (cur_state c) (xml c)
      = Ret (Some (cur_state c', offset, tran))
      /\ holds (stack c') fs'
      /\ effect (cur_state c) (mem c) (token c) tran fs fs')
  \/ (__lilx_get_next_state (cur_state c) (xml c) = Ret None
      /\ cur_state c' = cur_state c /\ stack c' = stack c).
Proof.
  intros Hs Hfs. unfold step.
  destruct (__lilx_get_next_state (cur_state c) (xml c))
    as [[[[st' offset] tran]|]|f] eqn:Hnext; [| |done].
  - destruct (tknidx c <? LILX_MAX_TOKEN_LENGTH); [|done].
    destruct (__lilx_actions (cur_state c) (stack c, mem c) (token c) tran)
      as [[rc [s' h']]|f] eqn:Hact; [|done].
    destruct (negb (rc =? 0)) eqn:Hrc; [done|].
    assert (rc = 0) as -> by lia.
    destruct (advance (Z.to_nat offset) (xml c)); [|done].
    intros [= <-]. cbn [cur_state stack]. left.
    destruct (actions_effect _ _ _ _ _ _ _ _ Hs Hfs Hact) as (fs' & H1 & H2).
    by exists offset, tran, fs'.
  - destruct (tknidx c =? LILX_MAX_TOKEN_LENGTH); [done|].
    destruct (tknidx c <? LILX_MAX_TOKEN_LENGTH); [|done].
    intros [= <-]. by right.
Qed.

Lemma step_deep (c c' : config) fs :
  holds (stack c) fs -> frames_ok (cur_state c) (mem c) fs ->
  deep (cur_state c) fs -> step c = Continue c' ->
  exists fs', holds (stack c') fs' /\ deep (cur_state c') fs'.
Proof.
  intros Hs Hfs Hdeep Hstep.
  destruct (step_effect c c' fs Hs Hfs Hstep)
    as [(offset & tran & fs' & Hnext & Hs' & Heff)|(_ & Hst & Hstack)].
  - exists fs'. split; [done|].
    apply get_next_state_candidate in Hnext.
    destruct (cur_state c') eqn:Hst'; try exact I; cbn [deep].
    + apply candidates_attr_name in Hnext as [Hno [Hst|Hst]];
        rewrite Hst in *; unfold effect in Heff; rewrite Hno in Heff.
      * destruct Heff as [Hne ->]. rewrite length_app. cbn.
        destruct fs; [done|cbn; lia].
      * destruct Heff as [attr ->]. cbn [deep] in Hdeep.
        rewrite length_app in Hdeep. cbn in Hdeep. lia.
    + apply candidates_target in Hnext. destruct Hnext as [Hst _].
      rewrite Hst in * by done. unfold effect in Heff.
      destruct Heff as [_ ->]. cbn [deep] in Hdeep.
      rewrite length_app. cbn. lia.
  - exists fs. rewrite Hstack, Hst. by split.
Qed.




Lemma closes_root_emptied (c : config) :
  holds (stack c) [] -> closes_root c = false.
Proof.
  intros (_ & _ & Hsz). cbn in Hsz. unfold closes_root.
  destruct (__lilx_get_next_state (cur_state c) (xml c)) as [[r|]|f];
    [|done..].
  replace (size (stack c) =? 1) with false by lia.
  by rewrite andb_false_r.
Qed.

Lemma root_closed_emptied n :
  forall c c' : config,
    inv c -> holds (stack c) [] -> steps n c = Some c' ->
    root_closed n c = false.
Proof.
  induction n as [|n IH]; intros c c' Hinv Hs; cbn [steps root_closed];
    [done|].
  destruct (loop_test c) eqn:Ht; [|done].
  destruct (step c) as [c1| |] eqn:Hstep; [|done|done]. intros Hn.
  rewrite closes_root_emptied by done. cbn [orb].
  apply (IH c1 c'); [by eapply step_inv| |done].
  apply (steps_emptied 1 c c1 Hinv Hs). cbn [steps]. by rewrite Ht, Hstep.
Qed.


(** The invariant of the loop, with the depth that the state needs. *)
Lemma steps_deep n :
  forall (c c' : config) fs,
    inv c -> holds (stack c) fs -> deep (cur_state c) fs ->
    steps n c = Some c' ->
    exists fs', holds (stack c') fs' /\ deep (cur_state c') fs'.
Proof.
  induction n as [|n IH]; intros c c' fs Hinv Hs Hdeep; cbn [steps].
  - intros [= <-]. by exists fs.
  - destruct (loop_test c); [|done].
    destruct (step c) as [c1| |] eqn:Hstep; [|done|done].
    destruct Hinv as (fs0 & Hs0 & Hfs & Hbot & Hroot).
    assert (fs0 = fs) as -> by by eapply holds_unique.
    destruct (step_deep c c1 fs Hs Hfs Hdeep Hstep) as (fs1 & Hs1 & Hd1).
    apply (IH c1 c' fs1); [|done|done].
    eapply step_inv; [|done]. by exists fs.
Qed.




End Root.



(** ** The loop without faults *)

Section Returns.

#[local] Arguments __lilx_get_next_state : simpl never.
#[local] Arguments __lilx_actions : simpl never.






(** A property of the input left that rules out the wrap-around of the
    offset. *)
Variable P : string -> Prop.
Hypothesis P_span :
  forall st xml cand offset,
    P xml -> cand ∈ candidates st ->
    __lilx_compare xml cand.2 = Ret (Some offset) ->
    (span cand.2 xml <= 256)%nat.
Hypothesis P_advance :
  forall n s s', P s -> advance n s = Some s' -> P s'.



End Returns.







(** ** The end of [lilx_create_tree] *)

Section Release.

Implicit Types (h : heap) (p : ptr).

Lemma drive_more fuel :
  forall (c : config) r, drive fuel c = Some r -> drive (S fuel) c = Some r.
Proof.
  induction fuel as [|fuel IH]; intros c r.
  - cbn [drive]. destruct (loop_test c); [intros [=]|]. intros H. exact H.
  - intros H. change (drive (S (S fuel)) c)
      with (if loop_test c then
              match step c with
              | Continue c' => drive (S fuel) c'
              | Break c' => Some (Ret c')
              | Crash f => Some (Fault f)
              end
            else Some (Ret c)).
    cbn [drive] in H. destruct (loop_test c); [|exact H].
    destruct (step c) as [c1|c1|f]; [|exact H..]. exact (IH c1 r H).
Qed.

Lemma drive_fuel fuel k (c : config) r :
  drive fuel c = Some r -> drive (fuel + k) c = Some r.
Proof.
  intros H. induction k as [|k IH].
  - by rewrite Nat.add_0_r.
  - rewrite Nat.add_succ_r. by apply drive_more.
Qed.

(** More fuel does not change what [lilx_create_tree] returns. *)
Lemma create_tree_fuel fuel k input r :
  lilx_create_tree fuel input = Some r ->
  lilx_create_tree (fuel + k) input = Some r.
Proof.
  unfold lilx_create_tree. rewrite !parse_start.
  destruct (negb (code (peek input) =? code "<"%char)); [done|].
  destruct (drive fuel (start input)) as [r0|] eqn:E; [|done].
  by rewrite (drive_fuel fuel k _ _ E).
Qed.

Lemma create_tree_any_fuel fuel0 fuel input r :
  lilx_create_tree fuel0 input = Some r ->
  lilx_create_tree fuel input = None \/ lilx_create_tree fuel input = Some r.
Proof.
  intros H0. destruct (lilx_create_tree fuel input) as [r'|] eqn:E;
    [|by left]. right.
  apply (create_tree_fuel fuel fuel0) in E.
  apply (create_tree_fuel fuel0 fuel) in H0.
  rewrite Nat.add_comm in E. congruence.
Qed.

(** ** [lilx_free_tree] ends *)

Lemma filter_insert_le (l : list object) :
  forall i o,
    is_live o = false ->
    (length (List.filter is_live (<[i := o]> l))
     <= length (List.filter is_live l))%nat.
Proof.
  induction l as [|x l IH]; intros i o Ho; [done|].
  destruct i as [|i].
  - change (<[0%nat := o]> (x :: l)) with (o :: l). cbn [List.filter].
    rewrite Ho. destruct (is_live x); cbn [length]; lia.
  - change (<[S i := o]> (x :: l)) with (x :: <[i := o]> l).
    cbn [List.filter]. specialize (IH i o Ho).
    destruct (is_live x); cbn [length]; lia.
Qed.

Lemma filter_insert_lt (l : list object) :
  forall i e o,
    l !! i = Some (OElem e) -> is_live o = false ->
    (length (List.filter is_live (<[i := o]> l))
     < length (List.filter is_live l))%nat.
Proof.
  induction l as [|x l IH]; intros i e o He Ho; [done|].
  destruct i as [|i].
  - change (<[0%nat := o]> (x :: l)) with (o :: l). cbn [List.filter].
    cbn in He. injection He as ->. rewrite Ho. cbn [is_live length]. lia.
  - change (<[S i := o]> (x :: l)) with (x :: <[i := o]> l).
    cbn [List.filter]. cbn in He. specialize (IH i e o He Ho).
    destruct (is_live x); cbn [length]; lia.
Qed.

Lemma live_store_le h p o :
  is_live o = false -> (live (store h p o) <= live h)%nat.
Proof.
  intros Ho. destruct p as [|i]; [done|]. by apply filter_insert_le.
Qed.

Lemma live_store_lt h p e o :
  load h p = Some (OElem e) -> is_live o = false ->
  (live (store h p o) < live h)%nat.
Proof.
  intros He Ho. destruct p as [|i]; [done|]. by eapply filter_insert_lt.
Qed.

Lemma live_length h : (live h <= length h)%nat.
Proof. unfold live. apply List.filter_length_le. Qed.

Lemma free_attributes_live attrs :
  forall h h', free_attributes h attrs = Ret h' -> (live h' <= live h)%nat.
Proof.
  induction attrs as [|a attrs IH]; intros h h'; cbn [free_attributes].
  - intros [= <-]. lia.
  - unfold free_attribute.
    destruct (load_attribute h a) as [x|f]; [|intros [=]].
    cbn [mbind res_bind]. intros H%IH.
    pose proof (live_store_le h a OFreed eq_refl). lia.
Qed.

Lemma free_children_ends (rec : heap -> ptr -> option (res heap)) bound cs :
  (forall h c, (live h <= bound)%nat ->
     exists r, rec h c = Some r
               /\ forall h', r = Ret h' -> (live h' <= live h)%nat) ->
  forall h, (live h <= bound)%nat ->
    exists r, free_children rec h cs = Some r
              /\ forall h', r = Ret h' -> (live h' <= live h)%nat.
Proof.
  intros Hrec. induction cs as [|c cs IH]; intros h Hh; cbn [free_children].
  - exists (Ret h). split; [done|]. intros h' [= <-]. lia.
  - destruct (Hrec h c Hh) as (r & -> & Hr). destruct r as [h1|f].
    + specialize (Hr h1 eq_refl).
      destruct (IH h1) as (r2 & E & Hr2); [lia|].
      exists r2. split; [done|]. intros h' ->. specialize (Hr2 h' eq_refl).
      lia.
    + exists (Fault f). by split.
Qed.

(** The recursion of [__lilx_free_tree] is no deeper than the heap has
    elements that are not freed: it visits none of them twice. *)
Lemma free_tree_ends depth :
  forall h element is_root,
    (live h < depth)%nat ->
    exists r, __lilx_free_tree depth h element is_root = Some r
              /\ forall h', r = Ret h' -> (live h' <= live h)%nat.
Proof.
  induction depth as [|depth IH]; intros h element is_root Hd; [lia|].
  cbn [__lilx_free_tree].
  destruct (element =? NULL)%nat.
  { exists (Ret h). split; [done|]. intros h' [= <-]. lia. }
  unfold load_element.
  destruct (load h element) as [[e|a| |]|] eqn:He;
    try (eexists; split; [reflexivity|intros h' [=]]).
  pose proof (live_store_lt h element e OStale He eq_refl) as Hlt.
  destruct (free_attributes (store h element OStale) _) as [h1|f] eqn:E1;
    [|eexists; split; [reflexivity|intros h' [=]]].
  apply free_attributes_live in E1.
  destruct (free_children_ends
              (fun h c => __lilx_free_tree depth h c 0) (depth - 1)
              (reverse (take (Z.to_nat (num_children e)) (children e))))
    with (h := h1) as (r & E & Hr).
  - intros h2 c Hh2. apply IH. lia.
  - lia.
  - rewrite E. destruct r as [h2|f].
    + specialize (Hr h2 eq_refl). eexists. split; [reflexivity|].
      intros h' [= <-]. destruct (is_root =? 0); [|lia].
      pose proof (live_store_le h2 element OFreed eq_refl). lia.
    + eexists. split; [reflexivity|intros h' [=]].
Qed.

Lemma lilx_free_tree_ends h p :
  exists r, lilx_free_tree (S (length h)) h p = Some r.
Proof.
  destruct (free_tree_ends (S (length h)) h p 1) as (r & E & _).
  - pose proof (live_length h). lia.
  - by exists r.
Qed.

End Release.

(** C2 (the code breaks it): on 101 nested open tags the loop ends in
    ELEM_NAME_START with a full stack, which is a failure; the handler has
    freed the element that it could not push, after it had attached it to
    its parent, and [lilx_free_tree] walks into the freed element: the
    function does not return 1, however long the loop is let run. *)
Theorem create_tree_full_stack :
  (exists c, parse 400 nested_input = Some (Ret (Some c))
             /\ cur_state c = ELEM_NAME_START /\ size (stack c) = 100
             /\ load (mem c) 101%nat = Some OFreed)
  /\ lilx_create_tree 400 nested_input = Some (Fault (Freed 101%nat))
  /\ forall fuel, lilx_create_tree fuel nested_input <> Some (Ret 1).
Proof.
  assert (E : lilx_create_tree 400 nested_input
              = Some (Fault (Freed 101%nat))) by (vm_compute; reflexivity).
  split; [|split; [exact E|]].
  - eexists. split; [vm_compute; reflexivity|].
    split_and!; vm_compute; reflexivity.
  - intros fuel H.
    destruct (create_tree_any_fuel 400 fuel nested_input _ E); congruence.
Qed.
